(** * PageRank: transition model, sampling estimator, iterative estimator

    A shallow embedding of [pagerank.py].  Python floats are read as exact
    rationals ([Qc]); a [dict] is an association list in insertion order with
    distinct keys; the outlink [set] of a page is a [gset]; an exception is a
    value of [exn] carried by [result]. *)

From stdpp Require Import base decidable option list sorting numbers strings gmap.
From Stdlib Require Import QArith Qcanon Field Lqa.

Local Open Scope Qc_scope.

(** ** Exceptions *)

Inductive exn : Type :=
  | KeyError
  | ZeroDivisionError
  | ValueError
  | IndexError.

Inductive result (A : Type) : Type :=
  | Ok (a : A)
  | Raise (e : exn).
Arguments Ok {A} a.
Arguments Raise {A} e.

#[global] Instance exn_eq_dec : EqDecision exn.
Proof. solve_decision. Defined.
#[global] Instance result_eq_dec `{EqDecision A} : EqDecision (result A).
Proof. solve_decision. Defined.

#[global] Instance result_ret : MRet result := λ A a, Ok a.
#[global] Instance result_bind : MBind result := λ A B k m,
  match m with
  | Ok a => k a
  | Raise e => Raise e
  end.

(** [for x in xs: acc = body(acc, x)], stopping at the first exception. *)
Fixpoint for_each {A S : Type} (body : S → A → result S) (xs : list A) (acc : S)
  : result S :=
  match xs with
  | [] => Ok acc
  | x :: xs' => acc' ← body acc x ; for_each body xs' acc'
  end.

(** ** Numbers *)

Definition Qc_of_nat (n : nat) : Qc := Qc_of_Z (Z.of_nat n).
Arguments Qc_of_nat : simpl never.

(** [a / b] of Python: raises [ZeroDivisionError] when [b] is zero. *)
Definition pydiv (a b : Qc) : result Qc :=
  if decide (b = 0) then Raise ZeroDivisionError else Ok (a / b).

Definition Qcabs (x : Qc) : Qc := if decide (x < 0) then - x else x.

Definition Qcmax (x y : Qc) : Qc := if decide (x < y) then y else x.

(** [sum(xs)] *)
Definition pysum (xs : list Qc) : Qc := foldr Qcplus 0 xs.

(** [max(xs)]: raises [ValueError] on an empty sequence. *)
Definition pymax (xs : list Qc) : result Qc :=
  match xs with
  | [] => Raise ValueError
  | x :: xs' => Ok (foldl Qcmax x xs')
  end.

(** ** Dictionaries *)

Definition Page : Type := string.

Abbreviation dict V := (list (Page * V)) (only parsing).

Definition keys {V} (d : dict V) : list Page := d.*1.
Definition values {V} (d : dict V) : list V := d.*2.

(** [k in d] *)
Definition dict_mem {V} (k : Page) (d : dict V) : bool :=
  bool_decide (k ∈ keys d).

(** [d[k]]: raises [KeyError] when [k] is absent. *)
Fixpoint dict_get {V} (k : Page) (d : dict V) : result V :=
  match d with
  | [] => Raise KeyError
  | (k', v) :: d' => if decide (k = k') then Ok v else dict_get k d'
  end.

(** [d[k] = v]: overwrites in place, or appends a new key at the end. *)
Fixpoint dict_set {V} (k : Page) (v : V) (d : dict V) : dict V :=
  match d with
  | [] => [(k, v)]
  | (k', v') :: d' =>
      if decide (k = k') then (k, v) :: d' else (k', v') :: dict_set k v d'
  end.

(** A dictionary display or comprehension: the items are inserted in turn. *)
Definition dict_of_items {V} (items : list (Page * V)) : dict V :=
  foldl (λ acc kv, dict_set kv.1 kv.2 acc) [] items.

(** A well-formed dictionary has no repeated key. *)
Definition wf_dict {V} (d : dict V) : Prop := NoDup (keys d).

(** ** Link graph *)

Abbreviation Corpus := (list (Page * gset Page)) (only parsing).

(** Invariant (a): every outlink target is a page of the corpus. *)
Definition closed (corpus : Corpus) : Prop :=
  Forall (λ pl, set_Forall (λ q, q ∈ keys corpus) pl.2) corpus.

(** Invariant (b): no page links to itself. *)
Definition no_self_link (corpus : Corpus) : Prop :=
  Forall (λ pl, pl.1 ∉ pl.2) corpus.

Definition valid_graph (corpus : Corpus) : Prop :=
  wf_dict corpus ∧ closed corpus ∧ no_self_link corpus.

(** ** transition_model *)

Definition transition_step (corpus : Corpus) (page : Page) (damping_factor : Qc)
    (linked_pages : list Page) (tramod : dict Qc) (next_page : Page)
  : result (dict Qc) :=
  if bool_decide (next_page ∈ linked_pages) then
    if dict_mem next_page tramod then
      old ← dict_get next_page tramod ;
      a ← pydiv 1 (Qc_of_nat (length linked_pages)) ;
      b ← pydiv 1 (Qc_of_nat (length (keys corpus))) ;
      Ok (dict_set next_page (old + damping_factor * a + (1 - damping_factor) * b) tramod)
    else
      L ← dict_get page corpus ;
      a ← pydiv 1 (Qc_of_nat (size L)) ;
      b ← pydiv 1 (Qc_of_nat (length (keys corpus))) ;
      Ok (dict_set next_page (damping_factor * a + (1 - damping_factor) * b) tramod)
  else
    if dict_mem next_page tramod then
      b ← pydiv 1 (Qc_of_nat (length (keys corpus))) ;
      Ok (dict_set next_page ((1 - damping_factor) * b) tramod)
    else
      b ← pydiv 1 (Qc_of_nat (length (keys corpus))) ;
      Ok (dict_set next_page ((1 - damping_factor) * b) tramod).

Definition transition_model (corpus : Corpus) (page : Page) (damping_factor : Qc)
  : result (dict Qc) :=
  L ← dict_get page corpus ;
  let linked_pages := elements L in
  for_each (transition_step corpus page damping_factor linked_pages)
           (keys corpus) [].

(** ** iterate_pagerank *)

(** [{page : 1 / len(corpus) for page in corpus}] *)
Definition initial_ranks (corpus : Corpus) : result (dict Qc) :=
  for_each (λ acc page,
              v ← pydiv 1 (Qc_of_nat (length corpus)) ;
              Ok (dict_set page v acc))
           (keys corpus) [].

(** [[ipage for ipage in corpus if page in corpus[ipage]]] *)
Definition inlinks (corpus : Corpus) (page : Page) : result (list Page) :=
  for_each (λ acc ipage,
              L ← dict_get ipage corpus ;
              Ok (if bool_decide (page ∈ L) then acc ++ [ipage] else acc))
           (keys corpus) [].

Definition iterative_sum (distribution : dict Qc) (corpus : Corpus) : result Qc :=
  for_each (λ s page,
              v ← dict_get page distribution ;
              L ← dict_get page corpus ;
              x ← pydiv v (Qc_of_nat (size L)) ;
              Ok (s + x))
           (keys distribution) 0.

(** The right-hand side of the assignment to [iterprob[page]]; [ranks] is
    the rank map it reads. *)
Definition page_rank_value (corpus : Corpus) (damping_factor : Qc)
    (ranks : dict Qc) (page : Page) : result Qc :=
  linked_pages ← inlinks corpus page ;
  let distribution :=
    dict_of_items (filter (λ kv, kv.1 ∈ linked_pages) ranks) in
  a ← pydiv (1 - damping_factor) (Qc_of_nat (length corpus)) ;
  s ← iterative_sum distribution corpus ;
  Ok (a + damping_factor * s).

(** The body of the per-page loop: it reads the rank map being updated. *)
Definition update_page (corpus : Corpus) (damping_factor : Qc)
    (iterprob : dict Qc) (page : Page) : result (dict Qc) :=
  v ← page_rank_value corpus damping_factor iterprob page ;
  Ok (dict_set page v iterprob).

(** [for page in iterprob.keys(): iterprob[page] = ...] *)
Definition sweep (corpus : Corpus) (damping_factor : Qc) (iterprob : dict Qc)
  : result (dict Qc) :=
  for_each (update_page corpus damping_factor) (keys iterprob) iterprob.

(** [{page: rank / sum(iterprob.values()) for page, rank in iterprob.items()}] *)
Definition normalise (iterprob : dict Qc) : result (dict Qc) :=
  for_each (λ acc kv,
              r ← pydiv kv.2 (pysum (values iterprob)) ;
              Ok (dict_set kv.1 r acc))
           iterprob [].

(** [[abs(iterprob[page] - old_iterprob[page]) for page in iterprob.keys()]] *)
Definition iterchanges (iterprob old_iterprob : dict Qc) : result (list Qc) :=
  for_each (λ acc page,
              a ← dict_get page iterprob ;
              b ← dict_get page old_iterprob ;
              Ok (acc ++ [Qcabs (a - b)]))
           (keys iterprob) [].

(** One pass through the body of the [while] loop. *)
Definition iteration (corpus : Corpus) (damping_factor : Qc) (iterprob : dict Qc)
  : result (dict Qc * Qc) :=
  let old_iterprob := iterprob in
  swept ← sweep corpus damping_factor iterprob ;
  iterprob' ← normalise swept ;
  changes ← iterchanges iterprob' old_iterprob ;
  max_iterchange ← pymax changes ;
  Ok (iterprob', max_iterchange).

Definition threshold : Qc := Qc_of_Z 1 / Qc_of_Z 1000.

(** [while max_iterchange >= 0.001: ...]; [None] when [fuel] passes through
    the loop body do not reach the exit.  The dictionary [iterchanges] of
    line 127 is replaced by a list before it is read, and is left out. *)
Fixpoint iterate_loop (fuel : nat) (corpus : Corpus) (damping_factor : Qc)
    (iterprob : dict Qc) (max_iterchange : Qc) : option (result (dict Qc)) :=
  if decide (threshold ≤ max_iterchange) then
    match fuel with
    | O => None
    | S fuel' =>
        match iteration corpus damping_factor iterprob with
        | Raise e => Some (Raise e)
        | Ok (iterprob', max_iterchange') =>
            iterate_loop fuel' corpus damping_factor iterprob' max_iterchange'
        end
    end
  else Some (Ok iterprob).

Definition iterate_pagerank (fuel : nat) (corpus : Corpus) (damping_factor : Qc)
  : option (result (dict Qc)) :=
  match initial_ranks corpus with
  | Raise e => Some (Raise e)
  | Ok iterprob => iterate_loop fuel corpus damping_factor iterprob (Qc_of_Z 999)
  end.

(** ** The [random] module

    [random.sample] and [random.choices] as in CPython 3.9 and 3.10, the
    last releases in which [random.sample] accepts the key view of a
    dictionary.  The generator is a stream of raw draws with a cursor:
    [randbelow n] reduces a draw modulo [n], and [random()] has 53 bits of
    resolution. *)

Record rng : Type := { draws : nat → Z; cursor : nat }.

Definition advance (g : rng) : rng :=
  {| draws := draws g; cursor := S (cursor g) |}.

Definition randbelow (n : nat) (g : rng) : nat * rng :=
  (Z.to_nat (draws g (cursor g) `mod` Z.of_nat n), advance g).

Definition random (g : rng) : Qc * rng :=
  (Qc_of_Z (draws g (cursor g) `mod` 2 ^ 53) / Qc_of_Z (2 ^ 53), advance g).

(** Computations that may raise and that use the generator. *)
Definition M (A : Type) : Type := rng → result A * rng.

#[global] Instance M_ret : MRet M := λ A a g, (Ok a, g).
#[global] Instance M_bind : MBind M := λ A B k m g,
  match m g with
  | (Ok a, g') => k a g'
  | (Raise e, g') => (Raise e, g')
  end.

Definition lift {A} (r : result A) : M A := λ g, (r, g).

(** [seq[i]] *)
Definition list_get {A} (xs : list A) (i : nat) : result A :=
  match xs !! i with
  | Some x => Ok x
  | None => Raise IndexError
  end.

(** [random.sample(population, 1)[0]]: [ValueError] when the population
    is empty, otherwise the element at index [randbelow(n)]. *)
Definition random_sample1 (population : list Page) : M Page := λ g,
  let n := length population in
  if decide (n = 0)%nat then (Raise ValueError, g)
  else let '(j, g') := randbelow n g in (list_get population j, g').

(** [itertools.accumulate(weights)] *)
Fixpoint accumulate_from (acc : Qc) (weights : list Qc) : list Qc :=
  match weights with
  | [] => []
  | w :: ws => (acc + w) :: accumulate_from (acc + w) ws
  end.
Definition accumulate (weights : list Qc) : list Qc := accumulate_from 0 weights.

(** [bisect.bisect(a, x, lo, hi)]; every pass halves [hi - lo], so [fuel]
    of [hi - lo] passes reaches the exit. *)
Fixpoint bisect (fuel : nat) (a : list Qc) (x : Qc) (lo hi : nat) : nat :=
  match fuel with
  | O => lo
  | S fuel' =>
      if decide (lo < hi)%nat then
        let mid := ((lo + hi) / 2)%nat in
        if decide (x < default 0 (a !! mid)) then bisect fuel' a x lo mid
        else bisect fuel' a x (S mid) hi
      else lo
  end.

(** [random.choices(population, weights)[0]]: the weights are accumulated,
    a total that is not positive raises [ValueError], and the cumulative
    weights are bisected at [random() * total] between [0] and [n - 1]. *)
Definition random_choices (population : list Page) (weights : list Qc) : M Page := λ g,
  let n := length population in
  let cum_weights := accumulate weights in
  if decide (length cum_weights ≠ n) then (Raise ValueError, g)
  else match last cum_weights with
       | None => (Raise IndexError, g)
       | Some total =>
           if decide (total ≤ 0) then (Raise ValueError, g)
           else
             let hi := (n - 1)%nat in
             let '(u, g') := random g in
             (list_get population (bisect hi cum_weights (u * total) 0 hi), g')
       end.

(** ** sample_pagerank *)

(** [if current_page in tally: tally[current_page] += 1
     else: tally[current_page] = 1] *)
Definition record_visit (tally : dict nat) (current_page : Page) : result (dict nat) :=
  if dict_mem current_page tally then
    v ← dict_get current_page tally ;
    Ok (dict_set current_page (v + 1)%nat tally)
  else Ok (dict_set current_page 1%nat tally).

(** [for i in range(n): ...] *)
Fixpoint walk (n : nat) (corpus : Corpus) (damping_factor : Qc)
    (tally : dict nat) (current_page : Page) : M (dict nat) :=
  match n with
  | O => mret tally
  | S n' =>
      tally' ← lift (record_visit tally current_page) ;
      transmod ← lift (transition_model corpus current_page damping_factor) ;
      next_page ← random_choices (keys transmod) (values transmod) ;
      walk n' corpus damping_factor tally' next_page
  end.

(** [{key: value / n for key, value in tally.items()}] *)
Definition normalise_tally (tally : dict nat) (n : nat) : result (dict Qc) :=
  for_each (λ acc kv,
              r ← pydiv (Qc_of_nat kv.2) (Qc_of_nat n) ;
              Ok (dict_set kv.1 r acc))
           tally [].

Definition sample_pagerank (corpus : Corpus) (damping_factor : Qc) (n : nat)
  : M (dict Qc) :=
  start_page ← random_sample1 (keys corpus) ;
  tally ← walk n corpus damping_factor [] start_page ;
  lift (normalise_tally tally n).

(** ** Calls in sequence

    The two estimators share the module-level generator of [random]; the
    corpus is passed to each call and never assigned to. *)




(** ** Closed forms used in the statements *)

(** The probability that [transition_model] gives to [next_page] when the
    current page has outlinks [L] in a corpus of [N] pages. *)
Definition transition_value (damping_factor : Qc) (L : gset Page) (N : nat)
    (next_page : Page) : Qc :=
  if bool_decide (next_page ∈ L)
  then damping_factor * (1 / Qc_of_nat (size L))
       + (1 - damping_factor) * (1 / Qc_of_nat N)
  else (1 - damping_factor) * (1 / Qc_of_nat N).

(** [corpus[q]] as a total function: no outlinks for a page outside the
    corpus. *)
Definition outlinks (corpus : Corpus) (q : Page) : gset Page :=
  match dict_get q corpus with
  | Ok L => L
  | Raise _ => ∅
  end.

(** What the pages linking to [page] pass to it from the rank map [ranks]. *)
Definition incoming (corpus : Corpus) (ranks : dict Qc) (page : Page) : Qc :=
  pysum ((λ kv, kv.2 / Qc_of_nat (size (outlinks corpus kv.1)))
           <$> filter (λ kv, page ∈ outlinks corpus kv.1) ranks).

(** [d[k]], or zero when [k] is absent. *)
Definition rank_of (d : dict Qc) (k : Page) : Qc :=
  match dict_get k d with
  | Ok v => v
  | Raise _ => 0
  end.

(** The new rank of [page] computed from the rank map [ranks]. *)
Definition new_rank (corpus : Corpus) (damping_factor : Qc) (ranks : dict Qc)
    (page : Page) : Qc :=
  (1 - damping_factor) / Qc_of_nat (length corpus)
  + damping_factor * incoming corpus ranks page.

(** The sweep as a fold: each page is given the rank computed from the
    map as the pages before it have left it. *)
Definition sweep_fold (corpus : Corpus) (damping_factor : Qc)
    (ks : list Page) (cur : dict Qc) : dict Qc :=
  foldl (λ cur p, dict_set p (new_rank corpus damping_factor cur p) cur) cur ks.

(** The rank map that the update of a page reads in the middle of a sweep:
    the pages of [done], already updated, carry their value of this sweep
    ([swept]); the others still carry their previous value ([ranks]). *)
Definition mixed (done : list Page) (swept ranks : dict Qc) : dict Qc :=
  (λ kv, (kv.1, if bool_decide (kv.1 ∈ done) then rank_of swept kv.1 else kv.2))
    <$> ranks.

(** The number of visits recorded in a tally. *)
Definition total_visits (tally : dict nat) : nat := sum_list_with snd tally.

(** Every page of the corpus has transition weights of positive total, so
    that [random.choices] accepts them. *)
Definition positive_weights (corpus : Corpus) (damping_factor : Qc) : Prop :=
  ∀ page tramod,
    page ∈ keys corpus →
    transition_model corpus page damping_factor = Ok tramod →
    0 < pysum (values tramod).

(** No page of the corpus is dangling. *)
Definition no_dangling (corpus : Corpus) : Prop :=
  Forall (λ pl, pl.2 ≠ ∅) corpus.

(** ** Sample inputs *)

Definition frac (a : Z) (b : positive) : Qc := Q2Qc (a # b).

(** [{"A": set(), "B": {"A"}}]: page [A] is dangling. *)
Definition corpus_dangling : Corpus := [("A", ∅); ("B", {["A"]})].

(** [{"A": {"B"}, "B": {"A", "C"}, "C": {"A"}}], and the same graph with
    its pages inserted in the opposite order. *)
Definition corpus_triangle : Corpus :=
  [("A", {["B"]}); ("B", {["A"; "C"]}); ("C", {["A"]})].
Definition corpus_triangle_reversed : Corpus :=
  [("C", {["A"]}); ("B", {["A"; "C"]}); ("A", {["B"]})].
Definition ranks_third : dict Qc :=
  [("A", frac 1 3); ("B", frac 1 3); ("C", frac 1 3)].

(** [{"A": {"B"}, "B": {"A"}}] *)
Definition corpus_two_cycle : Corpus := [("A", {["B"]}); ("B", {["A"]})].

(** [{"A": set(), "B": set()}]: no links at all. *)
Definition corpus_no_links : list (Page * gset Page) := [("A", ∅); ("B", ∅)].

(** A generator whose draws are all zero. *)
Definition rng_zero : rng := {| draws := λ _, 0%Z; cursor := 0 |}.

(** A generator whose [i]-th draw is [i * 5000000000000000]. *)
Definition rng_steps : rng :=
  {| draws := λ i, (Z.of_nat i * 5000000000000000)%Z; cursor := 0 |}.

(** The ranks that [iterate_pagerank] returns on [corpus_triangle] with
    damping [1/2]. *)
Definition ranks_triangle : dict Qc :=
  [("A", frac 8330 21661); ("B", frac 7776 21661); ("C", frac 5555 21661)].

(** Uniform ranks over the two pages of [corpus_dangling]. *)
Definition ranks_half : dict Qc := [("A", frac 1 2); ("B", frac 1 2)].

(** ** Reference definitions, following the specification *)


(** The simultaneous update: every page is updated from the complete rank
    map of the previous iteration, [old_iterprob]. *)
Definition simultaneous_sweep (corpus : Corpus) (damping_factor : Qc)
    (old_iterprob : dict Qc) : result (dict Qc) :=
  for_each (λ iterprob page,
              v ← page_rank_value corpus damping_factor old_iterprob page ;
              Ok (dict_set page v iterprob))
           (keys old_iterprob) old_iterprob.

Definition simultaneous_iteration (corpus : Corpus) (damping_factor : Qc)
    (iterprob : dict Qc) : result (dict Qc * Qc) :=
  let old_iterprob := iterprob in
  swept ← simultaneous_sweep corpus damping_factor old_iterprob ;
  iterprob' ← normalise swept ;
  changes ← iterchanges iterprob' old_iterprob ;
  max_iterchange ← pymax changes ;
  Ok (iterprob', max_iterchange).

Fixpoint simultaneous_loop (fuel : nat) (corpus : Corpus) (damping_factor : Qc)
    (iterprob : dict Qc) (max_iterchange : Qc) : option (result (dict Qc)) :=
  if decide (threshold ≤ max_iterchange) then
    match fuel with
    | O => None
    | S fuel' =>
        match simultaneous_iteration corpus damping_factor iterprob with
        | Raise e => Some (Raise e)
        | Ok (iterprob', max_iterchange') =>
            simultaneous_loop fuel' corpus damping_factor iterprob' max_iterchange'
        end
    end
  else Some (Ok iterprob).

Definition simultaneous_pagerank (fuel : nat) (corpus : Corpus)
    (damping_factor : Qc) : option (result (dict Qc)) :=
  match initial_ranks corpus with
  | Raise e => Some (Raise e)
  | Ok iterprob => simultaneous_loop fuel corpus damping_factor iterprob (Qc_of_Z 999)
  end.

(** ** crawl

    The directory that [crawl] reads is given by the names that
    [os.listdir] returns, in its order, and by what reading each file
    returns ([None] when [open] or [read] raises).  The list that
    [re.findall] extracts from the contents of a file is a parameter,
    [findall]. *)

Record directory : Type :=
  { listdir : list string; read_file : string → option string }.

Inductive crawl_outcome : Type :=
  | Crawled (pages : list (Page * gset Page))
  | ReadError (filename : string)
  | CrawlRaised (e : exn).

#[global] Instance crawl_outcome_eq_dec : EqDecision crawl_outcome.
Proof. solve_decision. Defined.

(** [s.endswith(suffix)] *)
Definition endswith (s suffix : string) : bool :=
  bool_decide (String.list_ascii_of_string suffix `suffix_of` String.list_ascii_of_string s).

Section crawl.
Variable findall : string → list string.

(** The first loop: [pages[filename] = set(links) - {filename}] for every
    name ending in [.html]. *)
Fixpoint extract_links (dir : directory) (names : list string) (pages : Corpus)
  : crawl_outcome :=
  match names with
  | [] => Crawled pages
  | filename :: names' =>
      if negb (endswith filename ".html") then extract_links dir names' pages
      else
        match read_file dir filename with
        | None => ReadError filename
        | Some contents =>
            let links := findall contents in
            extract_links dir names'
              (dict_set filename (list_to_set links ∖ {[filename]}) pages)
        end
  end.

(** The second loop: [pages[filename] = set(link for link in
    pages[filename] if link in pages)]. *)
Definition restrict_links (pages : Corpus) : result (list (Page * gset Page)) :=
  for_each (λ pages filename,
              L ← dict_get filename pages ;
              Ok (dict_set filename (filter (λ link, dict_mem link pages = true) L) pages))
           (keys pages) pages.

Definition crawl (dir : directory) : crawl_outcome :=
  match extract_links dir (listdir dir) [] with
  | Crawled pages =>
      match restrict_links pages with
      | Ok pages' => Crawled pages'
      | Raise e => CrawlRaised e
      end
  | ReadError filename => ReadError filename
  | CrawlRaised e => CrawlRaised e
  end.
End crawl.

(** ** main

    The file system maps a path to the directory found there ([None] when
    [os.listdir] raises).  What [main] prints is kept as a list of lines: a
    line for a page carries the page and its rank, of which [print] shows
    four decimals.  Pages are sorted as strings, character by character. *)

Definition DAMPING : Qc := Q2Qc (85 # 100).
(** [10000] *)
Definition SAMPLES : nat := (100 * 100)%nat.

Inductive line : Type :=
  | SamplingHeader (n : nat)
  | IterationHeader
  | RankLine (page : Page) (rank : Qc).

Inductive main_status : Type :=
  | Finished
  | SystemExit (message : string)
  | OSError (path : string)
  | Uncaught (e : exn)
  | Iterating.

(** [for page in sorted(ranks): print(f"  {page}: {ranks[page]:.4f}")] *)
Definition print_ranks (ranks : dict Qc) : result (list line) :=
  for_each (λ out page,
              rank ← dict_get page ranks ;
              Ok (out ++ [RankLine page rank]))
           (merge_sort String.le (keys ranks)) [].

Section main.
Variable findall : string → list string.

Definition main (fs : string → option directory) (argv : list string) (fuel : nat)
  : rng → (list line * main_status) * rng := λ g,
  if decide (length argv ≠ 2%nat) then
    (([], SystemExit "Usage: python pagerank.py corpus"), g)
  else
    match list_get argv 1 with
    | Raise e => (([], Uncaught e), g)
    | Ok path =>
        match fs path with
        | None => (([], OSError path), g)
        | Some dir =>
            match crawl findall dir with
            | ReadError filename => (([], OSError filename), g)
            | CrawlRaised e => (([], Uncaught e), g)
            | Crawled corpus =>
                match sample_pagerank corpus DAMPING SAMPLES g with
                | (Raise e, g') => (([], Uncaught e), g')
                | (Ok ranks, g') =>
                    let out := [SamplingHeader SAMPLES] in
                    match print_ranks ranks with
                    | Raise e => ((out, Uncaught e), g')
                    | Ok lines =>
                        let out := out ++ lines in
                        match iterate_pagerank fuel corpus DAMPING with
                        | None => ((out, Iterating), g')
                        | Some (Raise e) => ((out, Uncaught e), g')
                        | Some (Ok ranks) =>
                            let out := out ++ [IterationHeader] in
                            match print_ranks ranks with
                            | Raise e => ((out, Uncaught e), g')
                            | Ok lines => ((out ++ lines, Finished), g')
                            end
                        end
                    end
                end
            end
        end
    end.
End main.

(** The lines printed for a rank map. *)
Definition rank_lines (ranks : dict Qc) : list line :=
  (λ page, RankLine page (rank_of ranks page)) <$> merge_sort String.le (keys ranks).

(** The links kept for a file by the first loop; no links for a file that
    cannot be read. *)
Definition page_links (findall : string → list string) (dir : directory)
    (filename : string) : gset Page :=
  match read_file dir filename with
  | Some contents => list_to_set (findall contents) ∖ {[filename]}
  | None => ∅
  end.

(** The [.html] names of a listing. *)
Definition html_names (names : list string) : list string :=
  filter (λ name, endswith name ".html" = true) names.

(** The rank [1/N] for every page of the corpus. *)
Definition uniform_ranks (corpus : Corpus) : list (Page * Qc) :=
  (λ k, (k, 1 / Qc_of_nat (length corpus))) <$> keys corpus.

(** What a page receives when every page that links to it shares one unit
    equally among its outlinks. *)
Definition in_weight (corpus : Corpus) (page : Page) : Qc :=
  pysum ((λ pl, 1 / Qc_of_nat (size pl.2)) <$> filter (λ pl, page ∈ pl.2) corpus).

(** What [crawl] returns when every [.html] file can be read. *)
Definition crawled_pages (findall : string → list string) (dir : directory)
  : list (Page * gset Page) :=
  (λ f, (f, filter (λ link, link ∈ html_names (listdir dir))
                   (page_links findall dir f)))
    <$> html_names (listdir dir).

(** A sample extraction: the contents are the link targets, one per line. *)
Fixpoint lines_of (current : string) (s : string) : list string :=
  match s with
  | EmptyString => [String.rev current]
  | String c s' =>
      if decide (c = Ascii.ascii_of_nat 10) then String.rev current :: lines_of "" s'
      else lines_of (String c current) s'
  end.
Definition findall_lines (contents : string) : list string := lines_of "" contents.

(** A sample directory of three pages and one other file. *)
Definition sample_directory : directory :=
  {| listdir := ["1.html"; "notes.txt"; "2.html"; "3.html"];
     read_file := λ name,
       if decide (name = "1.html") then Some "2.html
1.html
elsewhere.html"
       else if decide (name = "2.html") then Some "1.html
3.html"
       else if decide (name = "3.html") then Some "missing"
       else None |}.

Definition sample_pages : list (Page * gset Page) :=
  [("1.html", {["2.html"]}); ("2.html", {["1.html"; "3.html"]}); ("3.html", ∅)].

(** ** Definitions for the termination of [iterate_pagerank] *)

(** The rank that a sweep gives to a page nothing links to:
    [(1 - damping_factor) / len(corpus)]. *)
Definition base_rank (corpus : Corpus) (damping_factor : Qc) : Qc :=
  (1 - damping_factor) / Qc_of_nat (length corpus).

(** The sweep with [base] in the place of [(1 - damping_factor) / len(corpus)];
    [sweep_fold] is the case [base = base_rank corpus damping_factor]. *)
Definition sweep_from (corpus : Corpus) (damping_factor base : Qc)
    (ks : list Page) (cur : dict Qc) : dict Qc :=
  foldl (λ cur p, dict_set p (base + damping_factor * incoming corpus cur p) cur) cur ks.

(** The rank map [a * x + b * y], page by page, of two rank maps with the
    same keys. *)
Definition lin (a : Qc) (x : dict Qc) (b : Qc) (y : dict Qc) : dict Qc :=
  zip_with (λ kv kv', (kv.1, a * kv.2 + b * kv'.2)) x y.

(** The rank map after one pass through the loop: the swept ranks, each
    divided by their sum. *)
Definition next_ranks (corpus : Corpus) (damping_factor : Qc) (iterprob : dict Qc)
  : dict Qc :=
  let swept := sweep_fold corpus damping_factor (keys iterprob) iterprob in
  (λ kv, (kv.1, kv.2 / pysum (values swept))) <$> swept.

(** The rank of every page in [y] lies between [m] times and [M] times its
    rank in [x]. *)
Definition ratio_bounds (x y : dict Qc) (m M : Qc) : Prop :=
  ∀ p, p ∈ keys x → m * rank_of x p ≤ rank_of y p ∧ rank_of y p ≤ M * rank_of x p.


(** * Properties *)

(** ** Numbers *)

Lemma Qc_of_nat_0 : Qc_of_nat 0 = 0.
Proof. by apply Qc_is_canon. Qed.

Lemma Qc_of_nat_S n : Qc_of_nat (S n) = 1 + Qc_of_nat n.
Proof.
  unfold Qc_of_nat. rewrite Nat2Z.inj_succ, <- Z.add_1_l, Z2Qc_inj_add.
  by rewrite Z2Qc_inj_1.
Qed.

Lemma Qc_of_nat_eq_0 n : Qc_of_nat n = 0 ↔ n = 0%nat.
Proof.
  unfold Qc_of_nat. rewrite <- Z2Qc_inj_0, Z2Qc_inj_iff. lia.
Qed.

Lemma Qc_of_nat_pos n : (0 < n)%nat → 0 < Qc_of_nat n.
Proof.
  intros Hn. unfold Qc_of_nat. rewrite <- Z2Qc_inj_0, <- Z2Qc_inj_lt. lia.
Qed.

Lemma Qc_one_over_nat_nonneg n : 0 ≤ 1 / Qc_of_nat n.
Proof.
  unfold Qcdiv. rewrite Qcmult_1_l. destruct n as [|n].
  - by rewrite Qc_of_nat_0.
  - apply Qclt_le_weak, Qcinv_pos, Qc_of_nat_pos. lia.
Qed.

Lemma Qc_one_over_nat_pos n : n ≠ 0%nat → 0 < 1 / Qc_of_nat n.
Proof.
  intros Hn. unfold Qcdiv. rewrite Qcmult_1_l.
  apply Qcinv_pos, Qc_of_nat_pos. lia.
Qed.

Lemma pydiv_Ok a b : b ≠ 0 → pydiv a b = Ok (a / b).
Proof. intros Hb. unfold pydiv. by destruct (decide (b = 0)). Qed.

Lemma pydiv_nat_Ok a n : n ≠ 0%nat → pydiv a (Qc_of_nat n) = Ok (a / Qc_of_nat n).
Proof. intros Hn. apply pydiv_Ok. by rewrite Qc_of_nat_eq_0. Qed.

Lemma pysum_cons x xs : pysum (x :: xs) = x + pysum xs.
Proof. done. Qed.

Lemma pysum_app xs ys : pysum (xs ++ ys) = pysum xs + pysum ys.
Proof.
  induction xs as [|x xs IH]; simpl.
  - by rewrite Qcplus_0_l.
  - rewrite IH. ring.
Qed.

(** ** Dictionaries *)

Section dict_facts.
Context {V : Type}.
Implicit Types (d : dict V) (k : Page) (v : V).

Lemma dict_get_set_eq k v d : dict_get k (dict_set k v d) = Ok v.
Proof.
  induction d as [|[k' v'] d IH]; simpl.
  - by rewrite decide_True.
  - destruct (decide (k = k')) as [->|Hne]; simpl.
    + by rewrite decide_True.
    + by rewrite decide_False.
Qed.

Lemma dict_get_set_ne k k' v d :
  k ≠ k' → dict_get k' (dict_set k v d) = dict_get k' d.
Proof.
  intros Hne. induction d as [|[k0 v0] d IH]; simpl.
  - by rewrite decide_False.
  - destruct (decide (k = k0)) as [->|Hne0]; simpl.
    + by rewrite !decide_False.
    + by rewrite IH.
Qed.

Lemma keys_dict_set_in k v d : k ∈ keys d → keys (dict_set k v d) = keys d.
Proof.
  unfold keys. induction d as [|[k' v'] d IH]; simpl.
  - by intros ?%elem_of_nil.
  - intros Hin. destruct (decide (k = k')) as [->|Hne]; simpl; [done|].
    f_equal. apply IH. by apply elem_of_cons in Hin as [?|?].
Qed.

Lemma dict_set_fresh k v d : k ∉ keys d → dict_set k v d = d ++ [(k, v)].
Proof.
  unfold keys. induction d as [|[k' v'] d IH]; simpl; [done|].
  intros Hnin. apply not_elem_of_cons in Hnin as [Hne Hnin].
  rewrite decide_False by done. by rewrite IH.
Qed.

Lemma dict_get_elem k v d : wf_dict d → (k, v) ∈ d → dict_get k d = Ok v.
Proof.
  unfold wf_dict, keys. induction d as [|[k' v'] d IH]; simpl.
  - by intros _ ?%elem_of_nil.
  - intros [Hnin Hnd]%NoDup_cons Hin.
    apply elem_of_cons in Hin as [[= -> ->]|Hin].
    + by rewrite decide_True.
    + rewrite decide_False; [by apply IH|].
      intros <-. apply Hnin. apply list_elem_of_fmap. by exists (k, v).
Qed.

Lemma dict_get_Ok k v d : dict_get k d = Ok v → (k, v) ∈ d.
Proof.
  induction d as [|[k' v'] d IH]; simpl; [done|].
  destruct (decide (k = k')) as [->|Hne].
  - intros [= ->]. by left.
  - intros ?. right. by apply IH.
Qed.

Lemma dict_get_KeyError k d : k ∉ keys d → dict_get k d = Raise KeyError.
Proof.
  unfold keys. induction d as [|[k' v'] d IH]; simpl; [done|].
  intros [Hne Hnin]%not_elem_of_cons. rewrite decide_False by done. auto.
Qed.

Lemma dict_get_is_Ok k d : k ∈ keys d → ∃ v, dict_get k d = Ok v.
Proof.
  unfold keys. induction d as [|[k' v'] d IH]; simpl.
  - by intros ?%elem_of_nil.
  - intros Hin. destruct (decide (k = k')) as [->|Hne]; [by eexists|].
    apply IH. by apply elem_of_cons in Hin as [?|?].
Qed.

Lemma dict_mem_false k d : k ∉ keys d → dict_mem k d = false.
Proof. intros. unfold dict_mem. by apply bool_decide_eq_false. Qed.

Lemma dict_mem_true k d : k ∈ keys d → dict_mem k d = true.
Proof. intros. unfold dict_mem. by apply bool_decide_eq_true. Qed.

Lemma dict_of_items_from (acc items : list (Page * V)) :
  NoDup (keys (acc ++ items)) →
  foldl (λ acc kv, dict_set kv.1 kv.2 acc) acc items = acc ++ items.
Proof.
  revert acc. induction items as [|[k v] items IH]; intros acc Hnd; simpl.
  - by rewrite app_nil_r.
  - rewrite dict_set_fresh.
    + rewrite IH; rewrite <- app_assoc; done.
    + unfold keys in *. rewrite fmap_app in Hnd.
      apply NoDup_app in Hnd as (_ & Hdisj & _).
      intros Hin. apply (Hdisj _ Hin). simpl. by left.
Qed.

Lemma dict_of_items_wf (items : list (Page * V)) :
  wf_dict items → dict_of_items items = items.
Proof. intros Hnd. unfold dict_of_items. by rewrite dict_of_items_from. Qed.

(** A loop that inserts one fresh key per element builds the dictionary
    of those keys, in order. *)
Lemma for_each_build {A} (step : dict V → A → result (dict V))
    (key : A → Page) (val : A → V) (xs : list A) (acc : dict V) :
  NoDup (keys acc ++ (key <$> xs)) →
  (∀ acc' x, x ∈ xs → key x ∉ keys acc' →
     step acc' x = Ok (acc' ++ [(key x, val x)])) →
  for_each step xs acc = Ok (acc ++ ((λ x, (key x, val x)) <$> xs)).
Proof.
  revert acc. induction xs as [|x xs IH]; intros acc Hnd Hstep; simpl.
  - by rewrite app_nil_r.
  - assert (key x ∉ keys acc) as Hfresh.
    { apply NoDup_app in Hnd as (_ & Hdisj & _).
      intros Hin. apply (Hdisj _ Hin). by left. }
    rewrite Hstep; [|by left|done]. simpl.
    rewrite IH.
    + by rewrite <- app_assoc.
    + unfold keys in *. rewrite fmap_app, <- app_assoc. done.
    + intros acc' y Hy. apply Hstep. by right.
Qed.
End dict_facts.

(** ** transition_model *)

Lemma transition_model_closed_form corpus page damping_factor L :
  wf_dict corpus →
  dict_get page corpus = Ok L →
  transition_model corpus page damping_factor =
    Ok ((λ k, (k, transition_value damping_factor L (length corpus) k)) <$> keys corpus).
Proof.
  intros Hwf Hget. unfold transition_model. rewrite Hget. simpl.
  rewrite (for_each_build _ id (transition_value damping_factor L (length corpus))).
  - done.
  - simpl. rewrite list_fmap_id. exact Hwf.
  - intros acc k Hk Hfresh. unfold transition_step, transition_value, id.
    assert (length (keys corpus) ≠ 0%nat) as HN.
    { intros HN. apply nil_length_inv in HN. rewrite HN in Hk.
      by apply elem_of_nil in Hk. }
    assert (length (keys corpus) = length corpus) as HN' by apply length_fmap.
    rewrite dict_mem_false by done.
    rewrite pydiv_nat_Ok by done. rewrite HN'.
    destruct (decide (k ∈ L)) as [Hin|Hnin].
    + rewrite (bool_decide_eq_true_2 (k ∈ L)) by done.
      rewrite (bool_decide_eq_true_2 (k ∈ elements L)) by (by apply elem_of_elements).
      rewrite Hget. simpl. rewrite pydiv_nat_Ok.
      * simpl. by rewrite dict_set_fresh.
      * intros Hsz. apply size_empty_inv in Hsz. set_solver.
    + rewrite (bool_decide_eq_false_2 (k ∈ L)) by done.
      rewrite (bool_decide_eq_false_2 (k ∈ elements L)) by (by rewrite elem_of_elements).
      simpl. by rewrite dict_set_fresh.
Qed.

Lemma transition_model_keys corpus page damping_factor tramod :
  wf_dict corpus →
  transition_model corpus page damping_factor = Ok tramod →
  keys tramod = keys corpus.
Proof.
  intros Hwf Hrun.
  destruct (dict_get page corpus) as [L|e] eqn:Hget.
  2:{ unfold transition_model in Hrun. by rewrite Hget in Hrun. }
  rewrite (transition_model_closed_form _ _ _ L) in Hrun by done.
  injection Hrun as <-. unfold keys. rewrite <- list_fmap_compose.
  apply list_fmap_id.
Qed.

Lemma pysum_transition_values damping_factor L N ks :
  pysum (transition_value damping_factor L N <$> ks) =
    Qc_of_nat (length (filter (.∈ L) ks)) * (damping_factor * (1 / Qc_of_nat (size L)))
    + Qc_of_nat (length ks) * ((1 - damping_factor) * (1 / Qc_of_nat N)).
Proof.
  induction ks as [|k ks IH].
  - simpl. rewrite Qc_of_nat_0. ring.
  - rewrite fmap_cons, pysum_cons, IH. unfold transition_value at 1.
    rewrite filter_cons. destruct (decide (k ∈ L)) as [Hin|Hnin].
    + rewrite bool_decide_eq_true_2 by done. simpl. rewrite !Qc_of_nat_S. ring.
    + rewrite bool_decide_eq_false_2 by done. simpl. rewrite !Qc_of_nat_S. ring.
Qed.

(** In a closed graph, the outlinks of a page are counted in full among the
    keys of the corpus. *)
Lemma count_outlinks_in_keys (corpus : Corpus) page L :
  wf_dict corpus → closed corpus → dict_get page corpus = Ok L →
  length (filter (.∈ L) (keys corpus)) = size L.
Proof.
  intros Hwf Hclosed Hget. apply dict_get_Ok in Hget.
  unfold closed in Hclosed. rewrite Forall_forall in Hclosed.
  specialize (Hclosed _ Hget). simpl in Hclosed.
  change (size L) with (length (elements L)).
  apply Permutation_length, NoDup_Permutation.
  - by apply NoDup_filter.
  - apply NoDup_elements.
  - intros k. rewrite list_elem_of_filter, elem_of_elements.
    split; [tauto|]. intros Hk. split; [done|]. by apply Hclosed.
Qed.

(** The distribution of a page with outlinks sums to one. *)
Lemma transition_model_sum_linked corpus page damping_factor L :
  wf_dict corpus → closed corpus → dict_get page corpus = Ok L → L ≠ ∅ →
  ∃ tramod, transition_model corpus page damping_factor = Ok tramod
            ∧ pysum (values tramod) = 1.
Proof.
  intros Hwf Hclosed Hget Hne. eexists. split.
  { by apply transition_model_closed_form. }
  unfold values. rewrite <- list_fmap_compose.
  change (snd ∘ _) with (transition_value damping_factor L (length corpus)).
  rewrite pysum_transition_values.
  rewrite (count_outlinks_in_keys corpus page L) by done.
  unfold keys. rewrite length_fmap.
  assert (Qc_of_nat (size L) ≠ 0) as HL.
  { rewrite Qc_of_nat_eq_0. intros Hsz%size_empty_inv. by apply leibniz_equiv in Hsz. }
  assert (Qc_of_nat (length corpus) ≠ 0) as HN.
  { rewrite Qc_of_nat_eq_0. intros ->%nil_length_inv. done. }
  field. done.
Qed.

(** The distribution of a dangling page gives [(1 - d) / N] to every page,
    and sums to [1 - d]. *)
Lemma transition_model_dangling corpus page damping_factor :
  wf_dict corpus → dict_get page corpus = Ok ∅ →
  transition_model corpus page damping_factor =
    Ok ((λ k, (k, (1 - damping_factor) * (1 / Qc_of_nat (length corpus)))) <$> keys corpus).
Proof.
  intros Hwf Hget. by rewrite (transition_model_closed_form _ _ _ ∅).
Qed.

Lemma transition_model_sum_dangling corpus page damping_factor :
  wf_dict corpus → dict_get page corpus = Ok ∅ →
  ∃ tramod, transition_model corpus page damping_factor = Ok tramod
            ∧ pysum (values tramod) = 1 - damping_factor.
Proof.
  intros Hwf Hget. eexists. split.
  { by apply transition_model_closed_form. }
  unfold values. rewrite <- list_fmap_compose.
  change (snd ∘ _) with (transition_value damping_factor ∅ (length corpus)).
  rewrite pysum_transition_values.
  match goal with
  | |- context [@filter _ _ _ ?P ?D ?l] => assert (@filter _ _ _ P D l = []) as ->
  end.
  { induction (keys corpus) as [|k ks IH]; [done|].
    by rewrite filter_cons_False by set_solver. }
  unfold keys. rewrite length_fmap.
  assert (Qc_of_nat (length corpus) ≠ 0) as HN.
  { rewrite Qc_of_nat_eq_0. intros ->%nil_length_inv. done. }
  change (length []) with 0%nat. rewrite Qc_of_nat_0, Qcmult_0_l, Qcplus_0_l.
  field. done.
Qed.

(** C1 (code defect): for a dangling page the specification asks for
    probability [1/N] on every page.  On [{"A": set(), "B": {"A"}}] with damping
    [0.85], [transition_model] at the dangling page [A] returns [3/40]
    (which is [(1 - 0.85)/2]) for both pages, not [1/2]. *)
Theorem C1_dangling_page_gets_base_share_only :
  transition_model corpus_dangling "A" (frac 17 20)
    = Ok [("A", frac 3 40); ("B", frac 3 40)]
  ∧ dict_get "A" corpus_dangling = Ok ∅
  ∧ frac 3 40 ≠ 1 / Qc_of_nat (length corpus_dangling).
Proof. repeat split; compute_done. Qed.

(** C2 (code defect): the distribution returned for a page of a valid graph
    should sum to one.  On the valid graph [{"A": set(), "B": {"A"}}] with
    damping [0.85], the values returned at the dangling page [A] sum to
    [3/20], that is [1 - 0.85]. *)
Theorem C2_dangling_distribution_sums_to_one_minus_damping :
  valid_graph corpus_dangling
  ∧ ∃ tramod, transition_model corpus_dangling "A" (frac 17 20) = Ok tramod
              ∧ pysum (values tramod) = frac 3 20
              ∧ pysum (values tramod) ≠ 1.
Proof.
  split; [repeat split; compute_done|].
  exists [("A", frac 3 40); ("B", frac 3 40)]. repeat split; compute_done.
Qed.

(** C6: in a corpus of [N] pages with distinct keys, for a page whose
    outlink set [L] is not empty and any damping factor [d],
    [transition_model] returns a dictionary with exactly the keys of the
    corpus; every page of the corpus has [(1 - d)/N], plus [d/|L|] exactly
    when it is in [L]; no page outside the corpus has an entry; and when
    the outlinks stay inside the corpus, every page of [L] has
    [(1 - d)/N + d/|L|]. *)
Theorem C6_transition_model_linked_page
    (corpus : Corpus) (page : Page) (damping_factor : Qc) (L : gset Page) :
  wf_dict corpus →
  dict_get page corpus = Ok L → L ≠ ∅ →
  let N := Qc_of_nat (length corpus) in
  let base := (1 - damping_factor) / N in
  let extra := damping_factor / Qc_of_nat (size L) in
  ∃ tramod,
    transition_model corpus page damping_factor = Ok tramod
    ∧ keys tramod = keys corpus
    ∧ (∀ k, k ∈ keys corpus →
         dict_get k tramod = Ok (base + if bool_decide (k ∈ L) then extra else 0))
    ∧ (∀ k, k ∉ keys corpus → dict_get k tramod = Raise KeyError)
    ∧ (closed corpus → ∀ k, k ∈ L → dict_get k tramod = Ok (base + extra)).
Proof.
  intros Hwf Hget Hne N base extra.
  pose proof (transition_model_closed_form corpus page damping_factor L Hwf Hget) as Hrun.
  eexists. split; [exact Hrun|].
  pose proof (transition_model_keys _ _ _ _ Hwf Hrun) as Hkeys.
  assert (∀ k, k ∈ keys corpus →
    dict_get k ((λ k, (k, transition_value damping_factor L (length corpus) k)) <$> keys corpus)
    = Ok (base + if bool_decide (k ∈ L) then extra else 0)) as Hval.
  { intros k Hk.
    rewrite (dict_get_elem k (transition_value damping_factor L (length corpus) k)).
    - f_equal. unfold transition_value, base, extra, N.
      destruct (bool_decide (k ∈ L)); unfold Qcdiv; ring.
    - unfold wf_dict. rewrite Hkeys. exact Hwf.
    - apply list_elem_of_fmap. by exists k. }
  split; [done|]. split; [done|]. split.
  - intros k Hk. apply dict_get_KeyError. by rewrite Hkeys.
  - intros Hclosed k Hk. rewrite Hval.
    + by rewrite bool_decide_eq_true_2.
    + apply dict_get_Ok in Hget. unfold closed in Hclosed.
      rewrite Forall_forall in Hclosed. by apply (Hclosed _ Hget).
Qed.

(** Page [B] of [corpus_dangling], whose only outlink is [A]. *)
Lemma C6_witness :
  (wf_dict corpus_dangling ∧ dict_get "B" corpus_dangling = Ok {["A"]}
   ∧ ({["A"]} : gset Page) ≠ ∅ ∧ closed corpus_dangling)
  ∧ ∃ tramod,
      transition_model corpus_dangling "B" (frac 17 20) = Ok tramod
      ∧ keys tramod = keys corpus_dangling
      ∧ (∀ k, k ∈ keys corpus_dangling →
           dict_get k tramod =
             Ok ((1 - frac 17 20) / Qc_of_nat (length corpus_dangling)
                 + if bool_decide (k ∈ ({["A"]} : gset Page))
                   then frac 17 20 / Qc_of_nat (size ({["A"]} : gset Page)) else 0))
      ∧ (∀ k, k ∉ keys corpus_dangling → dict_get k tramod = Raise KeyError)
      ∧ (∀ k, k ∈ ({["A"]} : gset Page) →
           dict_get k tramod =
             Ok ((1 - frac 17 20) / Qc_of_nat (length corpus_dangling)
                 + frac 17 20 / Qc_of_nat (size ({["A"]} : gset Page)))).
Proof.
  assert (wf_dict corpus_dangling) as Hwf by compute_done.
  assert (dict_get "B" corpus_dangling = Ok {["A"]}) as Hget by compute_done.
  assert (({["A"]} : gset Page) ≠ ∅) as Hne by compute_done.
  assert (closed corpus_dangling) as Hclosed by compute_done.
  split; [exact (conj Hwf (conj Hget (conj Hne Hclosed)))|].
  destruct (C6_transition_model_linked_page corpus_dangling "B" (frac 17 20) {["A"]}
              Hwf Hget Hne) as (tramod & Hrun & Hkeys & Hval & Hout & Hin).
  exists tramod. split; [exact Hrun|]. split; [exact Hkeys|].
  split; [exact Hval|]. split; [exact Hout|]. exact (Hin Hclosed).
Defined.

(** ** The per-page update of iterate_pagerank *)

Lemma outlinks_not_key corpus q : q ∉ keys corpus → outlinks corpus q = ∅.
Proof. intros Hq. unfold outlinks. by rewrite dict_get_KeyError. Qed.

Lemma outlinks_elem_key corpus q page : page ∈ outlinks corpus q → q ∈ keys corpus.
Proof.
  intros Hin. destruct (decide (q ∈ keys corpus)) as [|Hq]; [done|].
  rewrite outlinks_not_key in Hin by done. set_solver.
Qed.

Lemma inlinks_from corpus page ks acc :
  ks ⊆ keys corpus →
  for_each (λ acc ipage,
              L ← dict_get ipage corpus ;
              Ok (if bool_decide (page ∈ L) then acc ++ [ipage] else acc)) ks acc
  = Ok (acc ++ filter (λ q, page ∈ outlinks corpus q) ks).
Proof.
  revert acc. induction ks as [|k ks IH]; intros acc Hsub; simpl.
  - by rewrite app_nil_r.
  - destruct (dict_get_is_Ok k corpus) as [L HL]; [set_solver|].
    assert (outlinks corpus k = L) as HoL by (unfold outlinks; by rewrite HL).
    rewrite HL. simpl. rewrite IH by set_solver.
    rewrite filter_cons, HoL.
    destruct (decide (page ∈ L)).
    + rewrite bool_decide_eq_true_2 by done. by rewrite <- app_assoc.
    + by rewrite bool_decide_eq_false_2 by done.
Qed.

Lemma inlinks_spec corpus page :
  inlinks corpus page = Ok (filter (λ q, page ∈ outlinks corpus q) (keys corpus)).
Proof. unfold inlinks. by rewrite inlinks_from. Qed.

(** [iterative_sum] over entries that all link to some page. *)
Lemma iterative_sum_from (distribution : dict Qc) corpus page
    (items : list (Page * Qc)) s :
  (∀ kv, kv ∈ items → dict_get kv.1 distribution = Ok kv.2) →
  (∀ kv, kv ∈ items → page ∈ outlinks corpus kv.1) →
  for_each (λ s page,
              v ← dict_get page distribution ;
              L ← dict_get page corpus ;
              x ← pydiv v (Qc_of_nat (size L)) ;
              Ok (s + x)) (keys items) s
  = Ok (s + pysum ((λ kv, kv.2 / Qc_of_nat (size (outlinks corpus kv.1))) <$> items)).
Proof.
  revert s. induction items as [|[k v] items IH]; intros s Hget Hlink; simpl.
  - by rewrite Qcplus_0_r.
  - pose proof (Hget (k, v) ltac:(by left)) as Hkv. simpl in Hkv.
    rewrite Hkv. simpl.
    pose proof (Hlink (k, v) ltac:(by left)) as Hk. simpl in Hk.
    destruct (dict_get_is_Ok k corpus) as [L HL]; [by eapply outlinks_elem_key|].
    assert (outlinks corpus k = L) as HoL by (unfold outlinks; by rewrite HL).
    rewrite HL. simpl. rewrite pydiv_nat_Ok.
    2:{ intros Hsz%size_empty_inv. rewrite HoL in Hk. set_solver. }
    simpl. rewrite IH.
    + rewrite HoL. f_equal. symmetry. apply Qcplus_assoc.
    + intros kv Hin. apply Hget. by right.
    + intros kv Hin. apply Hlink. by right.
Qed.

Lemma iterative_sum_spec (distribution : dict Qc) corpus page :
  wf_dict distribution →
  (∀ kv, kv ∈ distribution → page ∈ outlinks corpus kv.1) →
  iterative_sum distribution corpus
  = Ok (pysum ((λ kv, kv.2 / Qc_of_nat (size (outlinks corpus kv.1))) <$> distribution)).
Proof.
  intros Hwf Hlink. unfold iterative_sum.
  rewrite (iterative_sum_from distribution corpus page distribution 0).
  - by rewrite Qcplus_0_l.
  - intros [k v] Hkv. by apply dict_get_elem.
  - done.
Qed.

Lemma wf_dict_filter {V} (P : Page * V → Prop) `{∀ x, Decision (P x)} (d : dict V) :
  wf_dict d → wf_dict (filter P d).
Proof.
  unfold wf_dict, keys. induction d as [|[k v] d IH]; [done|].
  rewrite fmap_cons. intros [Hnin Hnd]%NoDup_cons. rewrite filter_cons.
  destruct (decide (P (k, v))); [|by apply IH].
  rewrite fmap_cons. apply NoDup_cons. split; [|by apply IH].
  intros Hin. apply Hnin. apply list_elem_of_fmap in Hin as (kv & -> & Hkv).
  apply list_elem_of_filter in Hkv as [_ Hkv]. apply list_elem_of_fmap. by exists kv.
Qed.

(** The distribution handed to [iterative_sum]: the entries of the rank
    map whose key links to [page]. *)
Lemma distribution_spec corpus (ranks : dict Qc) page :
  wf_dict ranks →
  dict_of_items
    (filter (λ kv, kv.1 ∈ filter (λ q, page ∈ outlinks corpus q) (keys corpus)) ranks)
  = filter (λ kv, page ∈ outlinks corpus kv.1) ranks.
Proof.
  intros Hwf. rewrite dict_of_items_wf by by apply wf_dict_filter.
  apply list_filter_iff. intros [k v]. simpl. rewrite list_elem_of_filter.
  split; [tauto|]. intros Hk. split; [done|]. by eapply outlinks_elem_key.
Qed.

(** The new rank of a page: the base share plus the damped sum over the
    pages that link to it. *)
Lemma page_rank_value_spec corpus damping_factor (ranks : dict Qc) page :
  wf_dict ranks → corpus ≠ [] →
  page_rank_value corpus damping_factor ranks page
  = Ok ((1 - damping_factor) / Qc_of_nat (length corpus)
        + damping_factor * incoming corpus ranks page).
Proof.
  intros Hwf Hne. unfold page_rank_value. rewrite inlinks_spec. simpl.
  rewrite distribution_spec by done.
  rewrite pydiv_nat_Ok by (by intros ->%nil_length_inv). simpl.
  rewrite (iterative_sum_spec _ corpus page).
  - done.
  - by apply wf_dict_filter.
  - intros kv [Hkv _]%list_elem_of_filter. done.
Qed.


Lemma elem_of_keys_dict_set {V} k k' (v : V) (d : dict V) :
  k ∈ keys (dict_set k' v d) ↔ k = k' ∨ k ∈ keys d.
Proof.
  unfold keys. induction d as [|[k0 v0] d IH]; simpl.
  - by rewrite !elem_of_cons.
  - destruct (decide (k' = k0)) as [->|Hne]; simpl.
    + rewrite !elem_of_cons. tauto.
    + rewrite !elem_of_cons, IH. tauto.
Qed.

Lemma keys_dict_of_items_from {V} (acc items : list (Page * V)) k :
  k ∈ keys (foldl (λ acc kv, dict_set kv.1 kv.2 acc) acc items) →
  k ∈ keys acc ∨ k ∈ keys items.
Proof.
  revert acc. induction items as [|[k0 v0] items IH]; intros acc; simpl.
  - tauto.
  - intros [Hin|Hin]%IH.
    + apply elem_of_keys_dict_set in Hin as [->|Hin]; [|tauto].
      right. unfold keys. simpl. by left.
    + right. unfold keys in *. simpl. by right.
Qed.

Lemma for_each_total {A S} (body : S → A → result S) (xs : list A) (acc : S) :
  (∀ acc' x, x ∈ xs → ∃ acc'', body acc' x = Ok acc'') →
  ∃ r, for_each body xs acc = Ok r.
Proof.
  revert acc. induction xs as [|x xs IH]; intros acc Hstep; simpl.
  - by eexists.
  - destruct (Hstep acc x) as [acc'' ->]; [by left|]. simpl.
    apply IH. intros acc' y Hy. apply Hstep. by right.
Qed.

(** C10: for every corpus, every rank map and every page, the list
    [linked_pages] built by the update step holds only pages of the corpus
    whose outlink set contains the page, hence is not empty, and
    [iterative_sum] on the distribution restricted to [linked_pages]
    returns a sum: its division never raises [ZeroDivisionError]. *)
Theorem C10_iterative_sum_never_divides_by_zero
    (corpus : Corpus) (iterprob : dict Qc) (page : Page) :
  ∃ linked_pages,
    inlinks corpus page = Ok linked_pages
    ∧ (∀ q, q ∈ linked_pages →
         ∃ L, dict_get q corpus = Ok L ∧ page ∈ L ∧ size L ≠ 0%nat)
    ∧ ∃ s, iterative_sum
             (dict_of_items (filter (λ kv, kv.1 ∈ linked_pages) iterprob)) corpus
           = Ok s.
Proof.
  eexists. split; [apply inlinks_spec|].
  assert (∀ q, q ∈ filter (λ q, page ∈ outlinks corpus q) (keys corpus) →
            ∃ L, dict_get q corpus = Ok L ∧ page ∈ L ∧ size L ≠ 0%nat) as Hlinked.
  { intros q [Hq Hkey]%list_elem_of_filter.
    destruct (dict_get_is_Ok q corpus Hkey) as [L HL].
    unfold outlinks in Hq. rewrite HL in Hq.
    exists L. repeat split; [done..|].
    intros Hsz%size_empty_inv. set_solver. }
  split; [done|].
  apply for_each_total. intros s q Hq.
  destruct (dict_get_is_Ok q _ Hq) as [v ->]. simpl.
  apply keys_dict_of_items_from in Hq as [Hq|Hq]; [by apply elem_of_nil in Hq|].
  apply list_elem_of_fmap in Hq as (kv & -> & [Hkv _]%list_elem_of_filter).
  destruct (Hlinked _ Hkv) as (L & -> & _ & Hsz). simpl.
  rewrite pydiv_nat_Ok by done. simpl. by eexists.
Qed.




(** ** The sweep of iterate_pagerank *)

Lemma dict_ext {V} (d1 d2 : dict V) :
  keys d1 = keys d2 → wf_dict d1 →
  (∀ k, k ∈ keys d1 → dict_get k d1 = dict_get k d2) →
  d1 = d2.
Proof.
  unfold wf_dict, keys. revert d2.
  induction d1 as [|[k1 v1] d1 IH]; intros [|[k2 v2] d2]; try done.
  rewrite !fmap_cons. simpl. intros [= <- Hkeys] [Hnin Hnd]%NoDup_cons Hget.
  pose proof (Hget k1 ltac:(by left)) as Hhead. simpl in Hhead.
  rewrite !decide_True in Hhead by done. injection Hhead as <-.
  f_equal. apply IH; [done..|].
  intros k Hk. specialize (Hget k ltac:(by right)). simpl in Hget.
  rewrite !decide_False in Hget by (by intros ->). done.
Qed.

Lemma keys_mixed done (swept ranks : dict Qc) :
  keys (mixed done swept ranks) = keys ranks.
Proof. unfold mixed, keys. by rewrite <- list_fmap_compose. Qed.

Lemma dict_get_mixed done (swept ranks : dict Qc) k :
  dict_get k (mixed done swept ranks)
  = match dict_get k ranks with
    | Ok v => Ok (if bool_decide (k ∈ done) then rank_of swept k else v)
    | Raise e => Raise e
    end.
Proof.
  unfold mixed. induction ranks as [|[k' v'] ranks IH]; simpl; [done|].
  destruct (decide (k = k')) as [->|]; done.
Qed.

Lemma update_page_spec corpus damping_factor (cur : dict Qc) page :
  wf_dict cur → corpus ≠ [] →
  update_page corpus damping_factor cur page
  = Ok (dict_set page (new_rank corpus damping_factor cur page) cur).
Proof.
  intros Hwf Hne. unfold update_page. by rewrite page_rank_value_spec.
Qed.

Lemma sweep_fold_keys corpus damping_factor ks (cur : dict Qc) :
  ks ⊆ keys cur → keys (sweep_fold corpus damping_factor ks cur) = keys cur.
Proof.
  revert cur. induction ks as [|k ks IH]; intros cur Hsub; simpl; [done|].
  assert (k ∈ keys cur) as Hk by (apply Hsub; by left).
  unfold sweep_fold in *. simpl. rewrite IH.
  - by apply keys_dict_set_in.
  - rewrite keys_dict_set_in by done. intros k' Hk'. apply Hsub. by right.
Qed.

Lemma sweep_fold_untouched corpus damping_factor ks (cur : dict Qc) k :
  k ∉ ks → dict_get k (sweep_fold corpus damping_factor ks cur) = dict_get k cur.
Proof.
  revert cur. induction ks as [|k' ks IH]; intros cur Hk; [done|].
  apply not_elem_of_cons in Hk as [Hne Hk].
  unfold sweep_fold in *. simpl. rewrite IH by done.
  by apply dict_get_set_ne.
Qed.

Lemma for_each_update_page corpus damping_factor ks (cur : dict Qc) :
  wf_dict cur → corpus ≠ [] → ks ⊆ keys cur →
  for_each (update_page corpus damping_factor) ks cur
  = Ok (sweep_fold corpus damping_factor ks cur).
Proof.
  revert cur. induction ks as [|k ks IH]; intros cur Hwf Hne Hsub; [done|].
  assert (k ∈ keys cur) as Hk by (apply Hsub; by left).
  simpl. rewrite update_page_spec by done. simpl. rewrite IH; [done| |done|].
  - unfold wf_dict. by rewrite keys_dict_set_in.
  - rewrite keys_dict_set_in by done. intros k' Hk'. apply Hsub. by right.
Qed.

Lemma sweep_spec corpus damping_factor (ranks : dict Qc) :
  wf_dict ranks → corpus ≠ [] →
  sweep corpus damping_factor ranks
  = Ok (sweep_fold corpus damping_factor (keys ranks) ranks).
Proof. intros. unfold sweep. by apply for_each_update_page. Qed.

(** In the middle of a sweep the map holds the new ranks of the pages
    already visited and the old ranks of the others. *)
Lemma sweep_fold_mixed corpus damping_factor done page rest (ranks : dict Qc) :
  wf_dict ranks → keys ranks = done ++ page :: rest →
  sweep_fold corpus damping_factor done ranks
  = mixed done (sweep_fold corpus damping_factor (keys ranks) ranks) ranks.
Proof.
  intros Hwf Hsplit.
  assert (NoDup (done ++ page :: rest)) as Hnd by (by rewrite <- Hsplit).
  apply NoDup_app in Hnd as (_ & Hdisj & _).
  assert (done ⊆ keys ranks) as Hsub.
  { rewrite Hsplit. intros k Hk. apply elem_of_app. by left. }
  apply dict_ext.
  - rewrite keys_mixed. by apply sweep_fold_keys.
  - unfold wf_dict. by rewrite sweep_fold_keys.
  - intros k Hk. rewrite sweep_fold_keys in Hk by done.
    rewrite dict_get_mixed.
    destruct (decide (k ∈ done)) as [Hin|Hnin].
    + rewrite bool_decide_eq_true_2 by done.
      destruct (dict_get_is_Ok k ranks Hk) as [v ->].
      unfold rank_of. rewrite Hsplit. unfold sweep_fold at 2.
      rewrite foldl_app. fold (sweep_fold corpus damping_factor done ranks).
      fold (sweep_fold corpus damping_factor (page :: rest)
              (sweep_fold corpus damping_factor done ranks)).
      rewrite (sweep_fold_untouched _ _ (page :: rest)) by by apply Hdisj.
      destruct (dict_get_is_Ok k (sweep_fold corpus damping_factor done ranks)) as [w ->].
      * by rewrite sweep_fold_keys.
      * done.
    + rewrite bool_decide_eq_false_2 by done.
      rewrite sweep_fold_untouched by done.
      by destruct (dict_get k ranks).
Qed.

Lemma sweep_fold_at corpus damping_factor done page rest (ranks : dict Qc) :
  wf_dict ranks → keys ranks = done ++ page :: rest →
  dict_get page (sweep_fold corpus damping_factor (keys ranks) ranks)
  = Ok (new_rank corpus damping_factor
          (mixed done (sweep_fold corpus damping_factor (keys ranks) ranks) ranks)
          page).
Proof.
  intros Hwf Hsplit.
  rewrite <- (sweep_fold_mixed corpus damping_factor done page rest) by done.
  assert (NoDup (done ++ page :: rest)) as Hnd by (by rewrite <- Hsplit).
  apply NoDup_app in Hnd as (_ & _ & [Hnin _]%NoDup_cons).
  rewrite Hsplit at 1. unfold sweep_fold at 1. rewrite foldl_app. simpl.
  fold (sweep_fold corpus damping_factor done ranks).
  match goal with
  | |- dict_get _ (foldl _ ?c rest) = _ =>
      change (foldl _ c rest) with (sweep_fold corpus damping_factor rest c)
  end.
  rewrite sweep_fold_untouched by done.
  apply dict_get_set_eq.
Qed.

(** C4 (counterexample): on [{"A": {"B"}, "B": {"A", "C"}, "C": {"A"}}]
    with damping [1/2], the first sweep gives [B] the rank [3/8], computed
    from the rank [5/12] that [A] has just received, where the simultaneous
    update gives [1/3], computed from the previous rank [1/3] of [A]; the
    returned rank maps differ, and with the pages in the opposite order the
    code returns yet another rank for [A]. *)
Lemma C4_sweep_is_not_simultaneous :
  sweep corpus_triangle (frac 1 2) ranks_third
    = Ok [("A", frac 5 12); ("B", frac 3 8); ("C", frac 25 96)]
  ∧ simultaneous_sweep corpus_triangle (frac 1 2) ranks_third
    = Ok [("A", frac 5 12); ("B", frac 1 3); ("C", frac 1 4)]
  ∧ iterate_pagerank 10 corpus_triangle (frac 1 2)
    = Some (Ok [("A", frac 8330 21661); ("B", frac 7776 21661); ("C", frac 5555 21661)])
  ∧ simultaneous_pagerank 10 corpus_triangle (frac 1 2)
    = Some (Ok [("A", frac 197 512); ("B", frac 551 1536); ("C", frac 197 768)])
  ∧ iterate_pagerank 10 corpus_triangle (frac 1 2)
    ≠ simultaneous_pagerank 10 corpus_triangle (frac 1 2)
  ∧ iterate_pagerank 10 corpus_triangle_reversed (frac 1 2)
    = Some (Ok [("C", frac 3398 13257); ("B", frac 4760 13257); ("A", frac 5099 13257)])
  ∧ frac 8330 21661 ≠ frac 5099 13257.
Proof. repeat split; compute_done. Qed.

(** C4 (amended): in a sweep over a non-empty corpus, the update of a page
    reads the rank map being updated: when the keys of the rank map are
    [done ++ page :: rest], the new rank of [page] is computed from the map
    in which the pages of [done] already carry their new rank of this
    sweep, and [page] and the pages of [rest] still carry their rank of the
    previous iteration. *)
Theorem C4_sweep_reads_ranks_updated_so_far
    (corpus : Corpus) (damping_factor : Qc) (ranks : dict Qc) :
  wf_dict ranks → corpus ≠ [] →
  ∃ swept,
    sweep corpus damping_factor ranks = Ok swept
    ∧ keys swept = keys ranks
    ∧ ∀ done page rest,
        keys ranks = done ++ page :: rest →
        dict_get page swept
        = Ok ((1 - damping_factor) / Qc_of_nat (length corpus)
              + damping_factor * incoming corpus (mixed done swept ranks) page).
Proof.
  intros Hwf Hne. eexists. split; [by apply sweep_spec|]. split.
  - by apply sweep_fold_keys.
  - intros done page rest Hsplit.
    by rewrite (sweep_fold_at corpus damping_factor done page rest).
Qed.

(** A sweep over [corpus_triangle] from uniform ranks. *)
Lemma C4_witness :
  (wf_dict ranks_third ∧ corpus_triangle ≠ [])
  ∧ ∃ swept,
      sweep corpus_triangle (frac 1 2) ranks_third = Ok swept
      ∧ keys swept = keys ranks_third
      ∧ ∀ done page rest,
          keys ranks_third = done ++ page :: rest →
          dict_get page swept
          = Ok ((1 - frac 1 2) / Qc_of_nat (length corpus_triangle)
                + frac 1 2 * incoming corpus_triangle (mixed done swept ranks_third) page).
Proof.
  split; [split; compute_done|].
  apply (C4_sweep_reads_ranks_updated_so_far corpus_triangle (frac 1 2) ranks_third);
    compute_done.
Defined.

(** ** The loop of iterate_pagerank *)

Lemma initial_ranks_spec (corpus : Corpus) :
  wf_dict corpus →
  initial_ranks corpus
  = Ok ((λ k, (k, 1 / Qc_of_nat (length corpus))) <$> keys corpus).
Proof.
  intros Hwf. unfold initial_ranks.
  rewrite (for_each_build _ id (λ _, 1 / Qc_of_nat (length corpus))).
  - done.
  - simpl. rewrite list_fmap_id. exact Hwf.
  - intros acc k Hk Hfresh. unfold id in *.
    rewrite pydiv_nat_Ok.
    + simpl. by rewrite dict_set_fresh.
    + intros Hlen%nil_length_inv. subst corpus. by apply elem_of_nil in Hk.
Qed.

Lemma normalise_spec (iterprob : dict Qc) :
  wf_dict iterprob → pysum (values iterprob) ≠ 0 →
  normalise iterprob
  = Ok ((λ kv, (kv.1, kv.2 / pysum (values iterprob))) <$> iterprob).
Proof.
  intros Hwf Hsum. unfold normalise.
  rewrite (for_each_build _ fst (λ kv, kv.2 / pysum (values iterprob))).
  - done.
  - exact Hwf.
  - intros acc kv Hkv Hfresh. rewrite pydiv_Ok by done. simpl.
    by rewrite dict_set_fresh.
Qed.

Lemma normalise_keys (iterprob iterprob' : dict Qc) :
  wf_dict iterprob → normalise iterprob = Ok iterprob' →
  keys iterprob' = keys iterprob.
Proof.
  intros Hwf Hrun. destruct (decide (pysum (values iterprob) = 0)) as [Hz|Hnz].
  - destruct iterprob as [|[k v] iterprob]; [by injection Hrun as <-|].
    unfold normalise in Hrun. cbn [for_each] in Hrun.
    rewrite Hz in Hrun. unfold pydiv in Hrun.
    by rewrite decide_True in Hrun.
  - rewrite normalise_spec in Hrun by done. injection Hrun as <-.
    unfold keys. by rewrite <- list_fmap_compose.
Qed.

Lemma iteration_keys corpus damping_factor (iterprob iterprob' : dict Qc) m :
  wf_dict iterprob → corpus ≠ [] →
  iteration corpus damping_factor iterprob = Ok (iterprob', m) →
  keys iterprob' = keys iterprob.
Proof.
  intros Hwf Hne Hrun. unfold iteration in Hrun.
  rewrite sweep_spec in Hrun by done. simpl in Hrun.
  destruct (normalise _) as [normed|e] eqn:Hnorm; [|done]. simpl in Hrun.
  destruct (iterchanges _ _) as [changes|e]; [|done]. simpl in Hrun.
  destruct (pymax _) as [m'|e]; [|done]. simpl in Hrun.
  injection Hrun as <- <-.
  apply normalise_keys in Hnorm.
  - rewrite Hnorm. by apply sweep_fold_keys.
  - unfold wf_dict. by rewrite sweep_fold_keys.
Qed.

Lemma iterate_loop_keys fuel corpus damping_factor (iterprob : dict Qc) m ranks :
  wf_dict iterprob → corpus ≠ [] →
  iterate_loop fuel corpus damping_factor iterprob m = Some (Ok ranks) →
  keys ranks = keys iterprob.
Proof.
  revert iterprob m. induction fuel as [|fuel IH]; intros iterprob m Hwf Hne; simpl.
  - destruct (decide _); [done|]. by intros [= <-].
  - destruct (decide _); [|by intros [= <-]].
    destruct (iteration _ _ _) as [[iterprob' m']|e] eqn:Hiter; [|done].
    intros Hloop. apply iteration_keys in Hiter; [|done..].
    apply IH in Hloop; [congruence| |done].
    unfold wf_dict. by rewrite Hiter.
Qed.

Lemma iterate_pagerank_empty fuel damping_factor :
  iterate_pagerank fuel [] damping_factor
  = match fuel with O => None | S _ => Some (Raise ValueError) end.
Proof. destruct fuel; vm_compute; reflexivity. Qed.

Lemma iterate_pagerank_keys fuel (corpus : Corpus) damping_factor ranks :
  wf_dict corpus →
  iterate_pagerank fuel corpus damping_factor = Some (Ok ranks) →
  keys ranks = keys corpus.
Proof.
  intros Hwf. destruct corpus as [|pl corpus].
  - rewrite iterate_pagerank_empty. by destruct fuel.
  - unfold iterate_pagerank. rewrite initial_ranks_spec by done.
    intros Hloop. apply iterate_loop_keys in Hloop; [| |done].
    + rewrite Hloop. unfold keys. by rewrite <- list_fmap_compose, list_fmap_id.
    + unfold wf_dict, keys. by rewrite <- list_fmap_compose, list_fmap_id.
Qed.

(** More fuel does not change an answer. *)
Lemma iterate_loop_more_fuel fuel fuel' corpus damping_factor (iterprob : dict Qc) m r :
  iterate_loop fuel corpus damping_factor iterprob m = Some r →
  (fuel ≤ fuel')%nat →
  iterate_loop fuel' corpus damping_factor iterprob m = Some r.
Proof.
  revert fuel' iterprob m. induction fuel as [|fuel IH]; intros fuel' iterprob m; simpl.
  - destruct (decide _) as [Hge|Hlt]; [done|]. intros [= <-] _.
    destruct fuel'; simpl; by rewrite decide_False.
  - destruct (decide _) as [Hge|Hlt].
    + intros Hrun Hle. destruct fuel' as [|fuel']; [lia|]. simpl.
      rewrite decide_True by done.
      destruct (iteration _ _ _) as [[iterprob' m']|e]; [|done].
      apply IH; [done|lia].
    + intros [= <-] _. destruct fuel'; simpl; by rewrite decide_False.
Qed.


(** ** No exception below damping one

    With a damping factor in [0,1) every rank stays non-negative and every
    updated rank is positive, so that no pass through the loop raises. *)

Lemma Qc_div_nat_nonneg v n : 0 ≤ v → 0 ≤ v / Qc_of_nat n.
Proof.
  intros Hv. unfold Qcdiv. apply Qcmult_nonneg_nonneg; [done|].
  pose proof (Qc_one_over_nat_nonneg n) as Hn.
  unfold Qcdiv in Hn. by rewrite Qcmult_1_l in Hn.
Qed.

Lemma pysum_nonneg xs : Forall (λ x, 0 ≤ x) xs → 0 ≤ pysum xs.
Proof.
  induction 1 as [|x xs Hx _ IH]; [done|].
  rewrite pysum_cons. by apply Qcplus_nonneg_nonneg.
Qed.

Lemma pysum_pos_elem xs x :
  Forall (λ x, 0 ≤ x) xs → x ∈ xs → 0 < x → 0 < pysum xs.
Proof.
  intros Hall Hin Hx. induction Hall as [|y ys Hy Hall IH].
  - by apply elem_of_nil in Hin.
  - rewrite pysum_cons. apply elem_of_cons in Hin as [<-|Hin].
    + apply Qcplus_pos_nonneg; [done|by apply pysum_nonneg].
    + apply Qcplus_nonneg_pos; [done|by apply IH].
Qed.

Lemma incoming_nonneg corpus (ranks : dict Qc) page :
  Forall (λ kv, 0 ≤ kv.2) ranks → 0 ≤ incoming corpus ranks page.
Proof.
  intros Hall. unfold incoming. apply pysum_nonneg, Forall_fmap.
  apply Forall_forall. intros kv [_ Hkv]%list_elem_of_filter. simpl.
  apply Qc_div_nat_nonneg. rewrite Forall_forall in Hall. by apply Hall.
Qed.

Lemma new_rank_pos (corpus : Corpus) damping_factor (ranks : dict Qc) page :
  corpus ≠ [] → 0 ≤ damping_factor → damping_factor < 1 →
  Forall (λ kv, 0 ≤ kv.2) ranks →
  0 < new_rank corpus damping_factor ranks page.
Proof.
  intros Hne Hd0 Hd1 Hall. unfold new_rank. apply Qcplus_pos_nonneg.
  - unfold Qcdiv. apply Qcmult_pos_pos.
    + apply (Qcplus_lt_mono_r _ _ damping_factor).
      replace (1 - damping_factor + damping_factor) with 1 by ring.
      by rewrite Qcplus_0_l.
    + apply Qcinv_pos, Qc_of_nat_pos. destruct corpus; [done|simpl; lia].
  - apply Qcmult_nonneg_nonneg; [done|by apply incoming_nonneg].
Qed.

Lemma Forall_dict_set {V} (P : Page * V → Prop) k v (d : dict V) :
  Forall P d → P (k, v) → Forall P (dict_set k v d).
Proof.
  intros Hall Hkv. induction Hall as [|[k' v'] d Hhd Hall IH]; simpl.
  - by apply Forall_singleton.
  - destruct (decide (k = k')); apply Forall_cons; done.
Qed.

Lemma elem_of_dict_set {V} k v (d : dict V) : (k, v) ∈ dict_set k v d.
Proof.
  induction d as [|[k' v'] d IH]; simpl; [by left|].
  destruct (decide (k = k')); [by left|by right].
Qed.

Lemma sweep_fold_nonneg (corpus : Corpus) damping_factor ks (cur : dict Qc) :
  corpus ≠ [] → 0 ≤ damping_factor → damping_factor < 1 →
  Forall (λ kv, 0 ≤ kv.2) cur →
  Forall (λ kv, 0 ≤ kv.2) (sweep_fold corpus damping_factor ks cur).
Proof.
  intros Hne Hd0 Hd1. revert cur.
  induction ks as [|k ks IH]; intros cur Hall; [done|].
  unfold sweep_fold in *. simpl. apply IH.
  apply Forall_dict_set; [done|]. simpl.
  by apply Qclt_le_weak, new_rank_pos.
Qed.

Lemma sweep_fold_sum_pos (corpus : Corpus) damping_factor (ranks : dict Qc) :
  corpus ≠ [] → ranks ≠ [] → 0 ≤ damping_factor → damping_factor < 1 →
  Forall (λ kv, 0 ≤ kv.2) ranks →
  0 < pysum (values (sweep_fold corpus damping_factor (keys ranks) ranks)).
Proof.
  intros Hne Hranks Hd0 Hd1 Hall.
  assert (∃ l k0, keys ranks = l ++ [k0]) as (l & k0 & ->).
  { destruct (exists_last (l := keys ranks)) as (l & k0 & Hl); [by destruct ranks|].
    by exists l, k0. }
  unfold sweep_fold. rewrite foldl_app. simpl.
  fold (sweep_fold corpus damping_factor l ranks).
  set (cur := sweep_fold corpus damping_factor l ranks).
  assert (Forall (λ kv, 0 ≤ kv.2) cur) as Hcur by by apply sweep_fold_nonneg.
  apply (pysum_pos_elem _ (new_rank corpus damping_factor cur k0)).
  - unfold values. apply Forall_fmap. apply Forall_dict_set; [done|]. simpl.
    by apply Qclt_le_weak, new_rank_pos.
  - unfold values. apply list_elem_of_fmap.
    exists (k0, new_rank corpus damping_factor cur k0). split; [done|].
    apply elem_of_dict_set.
  - by apply new_rank_pos.
Qed.

Lemma pymax_Ok xs : xs ≠ [] → ∃ m, pymax xs = Ok m.
Proof. destruct xs; [done|]. by eexists. Qed.

Lemma iterchanges_from (iterprob old_iterprob : dict Qc) ks acc :
  ks ⊆ keys iterprob → ks ⊆ keys old_iterprob →
  for_each (λ acc page,
              a ← dict_get page iterprob ;
              b ← dict_get page old_iterprob ;
              Ok (acc ++ [Qcabs (a - b)])) ks acc
  = Ok (acc ++ ((λ k, Qcabs (rank_of iterprob k - rank_of old_iterprob k)) <$> ks)).
Proof.
  revert acc. induction ks as [|k ks IH]; intros acc Hsub Hsub'; simpl.
  - by rewrite app_nil_r.
  - destruct (dict_get_is_Ok k iterprob) as [a Ha]; [apply Hsub; by left|].
    destruct (dict_get_is_Ok k old_iterprob) as [b Hb]; [apply Hsub'; by left|].
    unfold rank_of at 1 2. rewrite Ha, Hb. simpl. rewrite IH.
    + by rewrite <- app_assoc.
    + intros k' Hk'. apply Hsub. by right.
    + intros k' Hk'. apply Hsub'. by right.
Qed.

Lemma iteration_total (corpus : Corpus) damping_factor (iterprob : dict Qc) :
  corpus ≠ [] → iterprob ≠ [] → wf_dict iterprob →
  0 ≤ damping_factor → damping_factor < 1 →
  Forall (λ kv, 0 ≤ kv.2) iterprob →
  ∃ iterprob' m,
    iteration corpus damping_factor iterprob = Ok (iterprob', m)
    ∧ keys iterprob' = keys iterprob
    ∧ Forall (λ kv, 0 ≤ kv.2) iterprob'.
Proof.
  intros Hne Hranks Hwf Hd0 Hd1 Hall. unfold iteration.
  rewrite sweep_spec by done. simpl.
  set (swept := sweep_fold corpus damping_factor (keys iterprob) iterprob).
  assert (keys swept = keys iterprob) as Hkeys by by apply sweep_fold_keys.
  assert (0 < pysum (values swept)) as Hsum by by apply sweep_fold_sum_pos.
  rewrite normalise_spec.
  2:{ unfold wf_dict. by rewrite Hkeys. }
  2:{ intros Hz. symmetry in Hz. by apply Qclt_not_eq in Hsum. }
  simpl.
  set (normed := (λ kv, (kv.1, kv.2 / pysum (values swept))) <$> swept).
  assert (keys normed = keys iterprob) as Hkeys'.
  { unfold normed, keys. rewrite <- list_fmap_compose. exact Hkeys. }
  unfold iterchanges. rewrite iterchanges_from; [|done|by rewrite Hkeys'].
  simpl. rewrite Hkeys'.
  destruct (pymax_Ok ((λ k, Qcabs (rank_of normed k - rank_of iterprob k))
                        <$> keys iterprob)) as [m ->].
  { intros Hnil%fmap_nil_inv. by destruct iterprob. }
  simpl. exists normed, m. split; [done|]. split; [done|].
  unfold normed. apply Forall_fmap, Forall_forall. intros kv Hkv. simpl.
  unfold Qcdiv. apply Qcmult_nonneg_nonneg.
  - pose proof (sweep_fold_nonneg corpus damping_factor (keys iterprob) iterprob
                  Hne Hd0 Hd1 Hall) as Hnn.
    rewrite Forall_forall in Hnn. by apply Hnn.
  - by apply Qclt_le_weak, Qcinv_pos.
Qed.

Lemma iterate_loop_no_exception fuel (corpus : Corpus) damping_factor
    (iterprob : dict Qc) m :
  corpus ≠ [] → iterprob ≠ [] → wf_dict iterprob →
  0 ≤ damping_factor → damping_factor < 1 →
  Forall (λ kv, 0 ≤ kv.2) iterprob →
  iterate_loop fuel corpus damping_factor iterprob m = None
  ∨ ∃ ranks, iterate_loop fuel corpus damping_factor iterprob m = Some (Ok ranks).
Proof.
  intros Hne. revert iterprob m.
  induction fuel as [|fuel IH]; intros iterprob m Hranks Hwf Hd0 Hd1 Hall; simpl.
  - destruct (decide _); [by left|right; by eexists].
  - destruct (decide _); [|right; by eexists].
    destruct (iteration_total corpus damping_factor iterprob)
      as (iterprob' & m' & -> & Hkeys & Hall'); [done..|].
    apply IH; [|unfold wf_dict; by rewrite Hkeys|done..].
    intros ->. destruct iterprob; done.
Qed.

(** Below damping one, [iterate_pagerank] on a non-empty corpus returns a
    rank map or is still iterating: it raises no exception. *)
Lemma iterate_pagerank_no_exception fuel (corpus : Corpus) damping_factor :
  wf_dict corpus → corpus ≠ [] →
  0 ≤ damping_factor → damping_factor < 1 →
  iterate_pagerank fuel corpus damping_factor = None
  ∨ ∃ ranks, iterate_pagerank fuel corpus damping_factor = Some (Ok ranks).
Proof.
  intros Hwf Hne Hd0 Hd1. unfold iterate_pagerank.
  rewrite initial_ranks_spec by done.
  apply iterate_loop_no_exception; [done| | |done..|].
  - destruct corpus; done.
  - unfold wf_dict, keys. by rewrite <- list_fmap_compose, list_fmap_id.
  - apply Forall_fmap, Forall_forall. intros k _. simpl.
    apply Qc_one_over_nat_nonneg.
Qed.

(** ** The random walk of sample_pagerank *)

Lemma M_bind_unfold {A B} (m : M A) (k : A → M B) g :
  (m ≫= k) g
  = match m g with
    | (Ok a, g') => k a g'
    | (Raise e, g') => (Raise e, g')
    end.
Proof. done. Qed.

Lemma M_bind_Ok {A B} (m : M A) (k : A → M B) g b g'' :
  (m ≫= k) g = (Ok b, g'') →
  ∃ a g', m g = (Ok a, g') ∧ k a g' = (Ok b, g'').
Proof.
  rewrite M_bind_unfold. destruct (m g) as [[a|e] g']; [|done].
  intros Hk. by exists a, g'.
Qed.

Lemma list_get_elem {A} (xs : list A) i x : list_get xs i = Ok x → x ∈ xs.
Proof.
  unfold list_get. destruct (xs !! i) as [y|] eqn:Hy; [|done].
  intros [= <-]. by eapply list_elem_of_lookup_2.
Qed.

Lemma random_sample1_elem population g p g' :
  random_sample1 population g = (Ok p, g') → p ∈ population.
Proof.
  unfold random_sample1. destruct (decide _); [done|].
  destruct (randbelow _ g) as [j g1]. intros [= Hget _]. by eapply list_get_elem.
Qed.

Lemma random_choices_elem population weights g p g' :
  random_choices population weights g = (Ok p, g') → p ∈ population.
Proof.
  unfold random_choices. destruct (decide _); [done|].
  destruct (last _); [|done]. destruct (decide _); [done|].
  destruct (random g) as [u g1]. intros [= Hget _]. by eapply list_get_elem.
Qed.

Lemma total_visits_dict_set (tally : dict nat) k v w :
  dict_get k tally = Ok v →
  (total_visits (dict_set k w tally) + v = total_visits tally + w)%nat.
Proof.
  unfold total_visits. induction tally as [|[k' v'] tally IH]; simpl; [done|].
  destruct (decide (k = k')) as [->|Hne]; simpl.
  - intros [= ->]. lia.
  - intros Hget%IH. lia.
Qed.

Lemma record_visit_spec (tally : dict nat) p :
  ∃ tally',
    record_visit tally p = Ok tally'
    ∧ total_visits tally' = S (total_visits tally)
    ∧ (∀ k, k ∈ keys tally' ↔ k = p ∨ k ∈ keys tally)
    ∧ (wf_dict tally → wf_dict tally').
Proof.
  unfold record_visit. destruct (decide (p ∈ keys tally)) as [Hin|Hnin].
  - rewrite dict_mem_true by done.
    destruct (dict_get_is_Ok p tally Hin) as [v Hv]. rewrite Hv. simpl.
    eexists. split; [done|]. split; [|split].
    + pose proof (total_visits_dict_set tally p v (v + 1) Hv). lia.
    + intros k. apply elem_of_keys_dict_set.
    + unfold wf_dict. by rewrite keys_dict_set_in.
  - rewrite dict_mem_false by done.
    eexists. split; [done|]. rewrite dict_set_fresh by done. split; [|split].
    + unfold total_visits. rewrite sum_list_with_app. simpl. lia.
    + intros k. unfold keys. rewrite fmap_app, elem_of_app. simpl.
      rewrite list_elem_of_singleton. tauto.
    + unfold wf_dict, keys. rewrite fmap_app. simpl. intros Hwf.
      apply NoDup_app. split; [done|]. split; [|apply NoDup_singleton].
      intros k Hk ->%list_elem_of_singleton. done.
Qed.

(** Every pass of the walk records one visit, to a page of the corpus. *)
Lemma walk_invariant n (corpus : Corpus) damping_factor (tally : dict nat)
    current_page g tally' g' :
  wf_dict corpus → wf_dict tally →
  keys tally ⊆ keys corpus → current_page ∈ keys corpus →
  walk n corpus damping_factor tally current_page g = (Ok tally', g') →
  wf_dict tally' ∧ keys tally' ⊆ keys corpus
  ∧ total_visits tally' = (total_visits tally + n)%nat.
Proof.
  intros Hwfc. revert tally current_page g.
  induction n as [|n IH]; intros tally current_page g Hwf Hsub Hcur; simpl.
  - intros [= <- _]. by rewrite Nat.add_0_r.
  - intros Hrun.
    apply M_bind_Ok in Hrun as (tally1 & g1 & Hrec & Hrun).
    apply M_bind_Ok in Hrun as (transmod & g2 & Htm & Hrun).
    apply M_bind_Ok in Hrun as (next_page & g3 & Hnext & Hrun).
    unfold lift in Hrec, Htm. injection Hrec as Hrec <-. injection Htm as Htm <-.
    destruct (record_visit_spec tally current_page) as (t & Ht & Htot & Hkeys & Hwf').
    rewrite Ht in Hrec. injection Hrec as <-.
    apply random_choices_elem in Hnext.
    rewrite (transition_model_keys _ _ _ _ Hwfc Htm) in Hnext.
    apply IH in Hrun as (Hwf1 & Hsub1 & Htot1); [|by auto| |done].
    + split; [done|]. split; [done|]. lia.
    + intros k [->|Hk]%Hkeys; [done|]. by apply Hsub.
Qed.

Lemma Qc_of_nat_add a b : Qc_of_nat (a + b) = Qc_of_nat a + Qc_of_nat b.
Proof. unfold Qc_of_nat. by rewrite Nat2Z.inj_add, Z2Qc_inj_add. Qed.

Lemma normalise_tally_spec (tally : dict nat) n :
  wf_dict tally → n ≠ 0%nat →
  normalise_tally tally n
  = Ok ((λ kv, (kv.1, Qc_of_nat kv.2 / Qc_of_nat n)) <$> tally).
Proof.
  intros Hwf Hn. unfold normalise_tally.
  rewrite (for_each_build _ fst (λ kv, Qc_of_nat kv.2 / Qc_of_nat n)).
  - done.
  - exact Hwf.
  - intros acc kv Hkv Hfresh. rewrite pydiv_nat_Ok by done. simpl.
    by rewrite dict_set_fresh.
Qed.

Lemma pysum_normalised_tally (tally : dict nat) n :
  pysum (values ((λ kv, (kv.1, Qc_of_nat kv.2 / Qc_of_nat n)) <$> tally))
  = Qc_of_nat (total_visits tally) / Qc_of_nat n.
Proof.
  unfold values, total_visits. induction tally as [|[k v] tally IH].
  - simpl. rewrite Qc_of_nat_0. unfold Qcdiv. ring.
  - rewrite !fmap_cons, pysum_cons, IH. simpl.
    rewrite Qc_of_nat_add. unfold Qcdiv. ring.
Qed.

(** What a run of [sample_pagerank] that returns has done: [n] visits
    recorded, all to pages of the corpus, each tally divided by [n]. *)
Lemma sample_pagerank_returns (corpus : Corpus) damping_factor n g ranks g' :
  wf_dict corpus →
  sample_pagerank corpus damping_factor n g = (Ok ranks, g') →
  ∃ tally,
    wf_dict tally ∧ keys tally ⊆ keys corpus ∧ total_visits tally = n
    ∧ ranks = (λ kv, (kv.1, Qc_of_nat kv.2 / Qc_of_nat n)) <$> tally.
Proof.
  intros Hwfc Hrun. unfold sample_pagerank in Hrun.
  apply M_bind_Ok in Hrun as (start_page & g1 & Hstart & Hrun).
  apply M_bind_Ok in Hrun as (tally & g2 & Hwalk & Hrun).
  unfold lift in Hrun. injection Hrun as Hrun _.
  destruct n as [|n].
  - injection Hwalk as <- _. injection Hrun as <-.
    exists []. split; [apply NoDup_nil_2|]. split; [|done].
    intros k Hk. by apply elem_of_nil in Hk.
  - apply random_sample1_elem in Hstart.
    apply walk_invariant in Hwalk as (Hwf & Hsub & Htot); [|done|apply NoDup_nil_2| |done].
    2:{ intros k Hk. by apply elem_of_nil in Hk. }
    rewrite normalise_tally_spec in Hrun by done. injection Hrun as <-.
    by exists tally.
Qed.

Lemma sample_pagerank_sum (corpus : Corpus) damping_factor n g ranks g' :
  wf_dict corpus → (0 < n)%nat →
  sample_pagerank corpus damping_factor n g = (Ok ranks, g') →
  pysum (values ranks) = 1.
Proof.
  intros Hwfc Hn Hrun.
  apply sample_pagerank_returns in Hrun as (tally & _ & _ & Htot & ->); [|done].
  rewrite pysum_normalised_tally, Htot.
  assert (Qc_of_nat n ≠ 0) by (rewrite Qc_of_nat_eq_0; lia).
  by field.
Qed.

Lemma sample_pagerank_keys (corpus : Corpus) damping_factor n g ranks g' :
  wf_dict corpus →
  sample_pagerank corpus damping_factor n g = (Ok ranks, g') →
  wf_dict ranks ∧ keys ranks ⊆ keys corpus.
Proof.
  intros Hwfc Hrun.
  apply sample_pagerank_returns in Hrun as (tally & Hwf & Hsub & _ & ->); [|done].
  assert (keys ((λ kv, (kv.1, Qc_of_nat kv.2 / Qc_of_nat n)) <$> tally) = keys tally) as Hk.
  { unfold keys. by rewrite <- list_fmap_compose. }
  unfold wf_dict. by rewrite Hk.
Qed.

(** ** When the walk goes through *)

Lemma bisect_bound fuel a x lo hi :
  (lo ≤ hi)%nat → (lo ≤ bisect fuel a x lo hi ≤ hi)%nat.
Proof.
  revert lo hi. induction fuel as [|fuel IH]; intros lo hi Hle; cbn [bisect]; [lia|].
  destruct (decide (lo < hi)%nat) as [Hlt|]; [|lia].
  assert (lo ≤ (lo + hi) / 2 < hi)%nat as Hmid.
  { split; [apply Nat.div_le_lower_bound|apply Nat.Div0.div_lt_upper_bound]; lia. }
  set (mid := ((lo + hi) / 2)%nat) in *. clearbody mid.
  destruct (decide _).
  - specialize (IH lo mid). lia.
  - specialize (IH (S mid) hi). lia.
Qed.

(** Fuel of [hi - lo] is enough for [bisect]: more fuel gives the same
    index. *)
Lemma bisect_fuel_enough fuel fuel' a x lo hi :
  (hi - lo ≤ fuel)%nat → (hi - lo ≤ fuel')%nat →
  bisect fuel a x lo hi = bisect fuel' a x lo hi.
Proof.
  revert fuel' lo hi. induction fuel as [|fuel IH]; intros fuel' lo hi Hf Hf'.
  - destruct fuel' as [|fuel']; [done|]. cbn [bisect].
    destruct (decide (lo < hi)%nat); [lia|done].
  - cbn [bisect]. destruct (decide (lo < hi)%nat) as [Hlt|Hge].
    + destruct fuel' as [|fuel']; [lia|]. cbn [bisect].
      destruct (decide (lo < hi)%nat); [|lia].
      assert (lo ≤ (lo + hi) / 2 < hi)%nat as Hmid.
      { split; [apply Nat.div_le_lower_bound|apply Nat.Div0.div_lt_upper_bound]; lia. }
      set (mid := ((lo + hi) / 2)%nat) in *. clearbody mid.
      destruct (decide _); apply IH; lia.
    + destruct fuel' as [|fuel']; [done|]. cbn [bisect].
      by destruct (decide (lo < hi)%nat).
Qed.

Lemma length_accumulate_from acc weights :
  length (accumulate_from acc weights) = length weights.
Proof.
  revert acc. induction weights as [|w ws IH]; intros acc; simpl; [done|].
  by rewrite IH.
Qed.

Lemma last_accumulate_from acc weights :
  weights ≠ [] → last (accumulate_from acc weights) = Some (acc + pysum weights).
Proof.
  revert acc. induction weights as [|w ws IH]; intros acc Hne; [done|].
  destruct ws as [|w' ws].
  - simpl. f_equal. unfold pysum. simpl. ring.
  - change (accumulate_from acc (w :: w' :: ws))
      with ((acc + w) :: accumulate_from (acc + w) (w' :: ws)).
    change (accumulate_from (acc + w) (w' :: ws))
      with ((acc + w + w') :: accumulate_from (acc + w + w') ws).
    rewrite last_cons_cons.
    change ((acc + w + w') :: accumulate_from (acc + w + w') ws)
      with (accumulate_from (acc + w) (w' :: ws)).
    rewrite IH by done. f_equal. rewrite (pysum_cons w). ring.
Qed.

Lemma random_sample1_total population g :
  population ≠ [] →
  ∃ p, random_sample1 population g = (Ok p, advance g) ∧ p ∈ population.
Proof.
  intros Hne. unfold random_sample1, randbelow.
  destruct (decide _) as [Hz|Hnz]; [by apply nil_length_inv in Hz|].
  destruct (lookup_lt_is_Some_2 population
              (Z.to_nat (draws g (cursor g) `mod` Z.of_nat (length population))))
    as [p Hp].
  { pose proof (Z.mod_pos_bound (draws g (cursor g)) (Z.of_nat (length population))).
    lia. }
  exists p. unfold list_get. rewrite Hp. split; [done|].
  by eapply list_elem_of_lookup_2.
Qed.

Lemma random_choices_total population weights g :
  length weights = length population → population ≠ [] → 0 < pysum weights →
  ∃ p, random_choices population weights g = (Ok p, advance g) ∧ p ∈ population.
Proof.
  intros Hlen Hne Hpos. unfold random_choices, accumulate, random.
  rewrite length_accumulate_from. rewrite decide_False by (intros Hn; by apply Hn).
  rewrite last_accumulate_from.
  2:{ intros ->. simpl in Hlen. symmetry in Hlen. by apply nil_length_inv in Hlen. }
  rewrite Qcplus_0_l. rewrite decide_False by by apply Qclt_not_le.
  match goal with
  | |- context [list_get population ?i] =>
      destruct (lookup_lt_is_Some_2 population i) as [p Hp]
  end.
  { pose proof (bisect_bound (length population - 1) (accumulate_from 0 weights)
                  (Qc_of_Z (draws g (cursor g) `mod` 2 ^ 53) / Qc_of_Z (2 ^ 53)
                   * pysum weights) 0 (length population - 1)).
    destruct population; [done|]. simpl in *. lia. }
  exists p. unfold list_get. rewrite Hp. split; [done|].
  by eapply list_elem_of_lookup_2.
Qed.

Lemma walk_total n (corpus : Corpus) damping_factor (tally : dict nat)
    current_page g :
  wf_dict corpus → positive_weights corpus damping_factor →
  current_page ∈ keys corpus →
  ∃ tally' g', walk n corpus damping_factor tally current_page g = (Ok tally', g').
Proof.
  intros Hwfc Hpos. revert tally current_page g.
  induction n as [|n IH]; intros tally current_page g Hcur; simpl.
  - by eexists _, _.
  - destruct (record_visit_spec tally current_page) as (tally1 & Hrec & _).
    destruct (dict_get_is_Ok current_page corpus Hcur) as [L HL].
    pose proof (transition_model_closed_form corpus current_page damping_factor L Hwfc HL)
      as Htm.
    pose proof (transition_model_keys _ _ _ _ Hwfc Htm) as Hkeys.
    destruct (random_choices_total
                (keys ((λ k, (k, transition_value damping_factor L (length corpus) k))
                         <$> keys corpus))
                (values ((λ k, (k, transition_value damping_factor L (length corpus) k))
                           <$> keys corpus)) g)
      as (next_page & Hnext & Hin).
    { unfold keys, values. by rewrite !length_fmap. }
    { rewrite Hkeys. intros Hnil. rewrite Hnil in Hcur. by apply elem_of_nil in Hcur. }
    { by eapply Hpos. }
    rewrite Hkeys in Hin.
    destruct (IH tally1 next_page (advance g) Hin) as (tally' & g' & Hwalk).
    exists tally', g'.
    rewrite M_bind_unfold. unfold lift at 1. rewrite Hrec.
    rewrite M_bind_unfold. unfold lift at 1. rewrite Htm.
    rewrite M_bind_unfold, Hnext. done.
Qed.

Lemma sample_pagerank_total (corpus : Corpus) damping_factor n g :
  wf_dict corpus → corpus ≠ [] → (0 < n)%nat →
  positive_weights corpus damping_factor →
  ∃ ranks g', sample_pagerank corpus damping_factor n g = (Ok ranks, g').
Proof.
  intros Hwfc Hne Hn Hpos. unfold sample_pagerank.
  destruct (random_sample1_total (keys corpus) g) as (start_page & Hstart & Hin).
  { unfold keys. by destruct corpus. }
  destruct (walk_total n corpus damping_factor [] start_page (advance g) Hwfc Hpos Hin)
    as (tally & g' & Hwalk).
  pose proof Hwalk as Hinv.
  apply walk_invariant in Hinv as (Hwf & _ & _); [|done|apply NoDup_nil_2| |done].
  2:{ intros k Hk. by apply elem_of_nil in Hk. }
  eexists _, g'.
  rewrite M_bind_unfold, Hstart. rewrite M_bind_unfold, Hwalk.
  unfold lift. by rewrite normalise_tally_spec by (done || lia).
Qed.

Lemma transition_value_pos damping_factor L N k :
  0 ≤ damping_factor → damping_factor < 1 → N ≠ 0%nat →
  0 < transition_value damping_factor L N k.
Proof.
  intros Hd0 Hd1 HN.
  assert (0 < (1 - damping_factor) * (1 / Qc_of_nat N)) as Hbase.
  { apply Qcmult_pos_pos; [|by apply Qc_one_over_nat_pos].
    apply (Qcplus_lt_mono_r _ _ damping_factor).
    replace (1 - damping_factor + damping_factor) with 1 by ring.
    by rewrite Qcplus_0_l. }
  unfold transition_value. destruct (bool_decide _); [|done].
  apply Qcplus_nonneg_pos; [|done].
  apply Qcmult_nonneg_nonneg; [done|apply Qc_one_over_nat_nonneg].
Qed.

Lemma pysum_pos xs : xs ≠ [] → Forall (λ x, 0 < x) xs → 0 < pysum xs.
Proof.
  intros Hne Hall. destruct xs as [|x xs]; [done|].
  apply Forall_cons in Hall as [Hx Hall]. rewrite pysum_cons.
  apply Qcplus_pos_nonneg; [done|]. clear Hne Hx.
  induction Hall as [|y ys Hy _ IH]; [done|].
  rewrite pysum_cons. apply Qcplus_nonneg_nonneg; [by apply Qclt_le_weak|done].
Qed.

Lemma positive_weights_damping_lt_1 (corpus : Corpus) damping_factor :
  wf_dict corpus → 0 ≤ damping_factor → damping_factor < 1 →
  positive_weights corpus damping_factor.
Proof.
  intros Hwf Hd0 Hd1 page tramod Hpage Htm.
  destruct (dict_get_is_Ok page corpus Hpage) as [L HL].
  rewrite (transition_model_closed_form _ _ _ L) in Htm by done.
  injection Htm as <-. unfold values. rewrite <- list_fmap_compose.
  apply pysum_pos.
  - intros Hnil%fmap_nil_inv. rewrite Hnil in Hpage. by apply elem_of_nil in Hpage.
  - apply Forall_fmap, Forall_forall. intros k _. simpl.
    apply transition_value_pos; [done..|].
    intros Hlen%nil_length_inv. subst corpus. by apply elem_of_nil in Hpage.
Qed.

Lemma positive_weights_no_dangling (corpus : Corpus) damping_factor :
  wf_dict corpus → closed corpus → no_dangling corpus →
  positive_weights corpus damping_factor.
Proof.
  intros Hwf Hclosed Hnd page tramod Hpage Htm.
  destruct (dict_get_is_Ok page corpus Hpage) as [L HL].
  destruct (transition_model_sum_linked corpus page damping_factor L)
    as (tramod' & Htm' & Hsum); [done..| |].
  - unfold no_dangling in Hnd. rewrite Forall_forall in Hnd.
    apply dict_get_Ok in HL. by apply (Hnd _ HL).
  - rewrite Htm in Htm'. injection Htm' as <-. by rewrite Hsum.
Qed.

Lemma fst_Ok_inv {A} (x : result A * rng) a : x.1 = Ok a → ∃ g', x = (Ok a, g').
Proof. destruct x as [r g']. simpl. intros ->. by exists g'. Qed.

(** ** The two estimators *)

(** C5 (counterexample): with damping [1.5] on [{"A": {"B"}, "B": {"A"}}],
    [transition_model] returns the weights [-1/4] and [5/4], and
    [iterate_pagerank] returns the rank map [1/2, 1/2] after one pass: no
    error is raised. *)
Lemma C5_damping_out_of_range_is_accepted :
  transition_model corpus_two_cycle "A" (frac 3 2)
    = Ok [("A", frac (-1) 4); ("B", frac 5 4)]
  ∧ iterate_pagerank 1 corpus_two_cycle (frac 3 2)
    = Some (Ok [("A", frac 1 2); ("B", frac 1 2)])
  ∧ ¬ (0 ≤ frac 3 2 ≤ 1).
Proof.
  split; [compute_done|]. split; [compute_done|].
  intros [_ Hle]. revert Hle. compute_done.
Qed.

(** C5 (amended): the damping factor is not checked: for every damping
    factor, also outside [0,1], [transition_model] returns a distribution
    when the page is a key of the corpus.  Called with an empty graph,
    [iterate_pagerank] and [sample_pagerank] return no rank map: each
    raises [ValueError]. *)
Theorem C5_no_damping_check_and_empty_graph_raises
    (corpus : Corpus) (page : Page) (damping_factor : Qc)
    (fuel n : nat) (g : rng) :
  wf_dict corpus → page ∈ keys corpus →
  (∃ tramod, transition_model corpus page damping_factor = Ok tramod)
  ∧ iterate_pagerank (S fuel) [] damping_factor = Some (Raise ValueError)
  ∧ (sample_pagerank [] damping_factor n g).1 = Raise ValueError.
Proof.
  intros Hwf Hpage. split; [|split].
  - destruct (dict_get_is_Ok page corpus Hpage) as [L HL].
    eexists. by apply transition_model_closed_form.
  - apply (iterate_pagerank_empty (S fuel)).
  - done.
Qed.

(** Damping [3/2] on [corpus_two_cycle], and the empty corpus. *)
Lemma C5_witness :
  (wf_dict corpus_two_cycle ∧ "A" ∈ keys corpus_two_cycle)
  ∧ (∃ tramod, transition_model corpus_two_cycle "A" (frac 3 2) = Ok tramod)
  ∧ iterate_pagerank 1 [] (frac 3 2) = Some (Raise ValueError)
  ∧ (sample_pagerank [] (frac 3 2) 5 rng_zero).1 = Raise ValueError.
Proof.
  split; [split; compute_done|].
  apply (C5_no_damping_check_and_empty_graph_raises
           corpus_two_cycle "A" (frac 3 2) 0 5 rng_zero); compute_done.
Defined.

(** C8: for a non-empty corpus with distinct keys, a damping factor in
    [0,1], a positive sample count [n] and any generator, a rank map
    returned by [sample_pagerank] comes from a tally of exactly [n] visits,
    each entry divided by [n], and its values sum to exactly one; and
    [sample_pagerank] does return a rank map when the damping factor is
    below one, or when the graph is closed and has no dangling page. *)
Theorem C8_sample_pagerank_sums_to_one
    (corpus : Corpus) (damping_factor : Qc) (n : nat) (g : rng) :
  wf_dict corpus → corpus ≠ [] →
  0 ≤ damping_factor ≤ 1 → (0 < n)%nat →
  (∀ ranks,
     (sample_pagerank corpus damping_factor n g).1 = Ok ranks →
     pysum (values ranks) = 1
     ∧ ∃ tally, total_visits tally = n
                ∧ ranks = (λ kv, (kv.1, Qc_of_nat kv.2 / Qc_of_nat n)) <$> tally)
  ∧ (damping_factor < 1 ∨ (closed corpus ∧ no_dangling corpus) →
     ∃ ranks, (sample_pagerank corpus damping_factor n g).1 = Ok ranks
              ∧ pysum (values ranks) = 1).
Proof.
  intros Hwf Hne [Hd0 Hd1] Hn. split.
  - intros ranks [g' Hrun]%fst_Ok_inv. split.
    + by eapply sample_pagerank_sum.
    + apply sample_pagerank_returns in Hrun as (tally & _ & _ & Htot & ->); [|done].
      by exists tally.
  - intros Hcase.
    assert (positive_weights corpus damping_factor) as Hpos.
    { destruct Hcase as [Hlt|[Hclosed Hnd]].
      - by apply positive_weights_damping_lt_1.
      - by apply positive_weights_no_dangling. }
    destruct (sample_pagerank_total corpus damping_factor n g Hwf Hne Hn Hpos)
      as (ranks & g' & Hrun).
    exists ranks. split; [by rewrite Hrun|]. by eapply sample_pagerank_sum.
Qed.

(** Three samples on [corpus_triangle] with damping [1/2]. *)
Lemma C8_witness :
  (wf_dict corpus_triangle ∧ corpus_triangle ≠ []
   ∧ 0 ≤ frac 1 2 ≤ 1 ∧ (0 < 3)%nat)
  ∧ (sample_pagerank corpus_triangle (frac 1 2) 3 rng_steps).1
    = Ok [("A", frac 2 3); ("B", frac 1 3)]
  ∧ pysum (values [("A", frac 2 3); ("B", frac 1 3)]) = 1
  ∧ ∃ ranks, (sample_pagerank corpus_triangle (frac 1 2) 3 rng_steps).1 = Ok ranks
             ∧ pysum (values ranks) = 1.
Proof.
  assert (wf_dict corpus_triangle) as Hwf by compute_done.
  assert (corpus_triangle ≠ []) as Hne by compute_done.
  assert (0 ≤ frac 1 2 ≤ 1) as Hd by (split; compute_done).
  assert (0 < 3)%nat as Hn by lia.
  assert ((sample_pagerank corpus_triangle (frac 1 2) 3 rng_steps).1
          = Ok [("A", frac 2 3); ("B", frac 1 3)]) as Hrun by compute_done.
  destruct (C8_sample_pagerank_sums_to_one corpus_triangle (frac 1 2) 3 rng_steps
              Hwf Hne Hd Hn) as [Hsum Hreturns].
  split; [exact (conj Hwf (conj Hne (conj Hd Hn)))|].
  split; [exact Hrun|]. split.
  - exact (proj1 (Hsum _ Hrun)).
  - apply Hreturns. left. compute_done.
Defined.

(** * Further properties *)

(** ** crawl *)

Section crawl_facts.
Variable findall : string → list string.
Variable dir : directory.

Lemma html_names_cons name names :
  html_names (name :: names)
  = if endswith name ".html" then name :: html_names names else html_names names.
Proof.
  unfold html_names. rewrite filter_cons.
  destruct (endswith name ".html"); by destruct (decide _).
Qed.

Lemma extract_links_html names pages :
  extract_links findall dir names pages
  = extract_links findall dir (html_names names) pages.
Proof.
  revert pages. induction names as [|name names IH]; intros pages; [done|].
  rewrite html_names_cons. cbn [extract_links].
  destruct (endswith name ".html") eqn:Hhtml; cbn [negb]; [|by rewrite IH].
  cbn [extract_links]. rewrite Hhtml. cbn [negb].
  destruct (read_file dir name); [|done]. apply IH.
Qed.

(** The first loop stops at the first [.html] file that cannot be read,
    and otherwise appends one entry per [.html] name. *)
Lemma extract_links_cases names (pages : Corpus) :
  NoDup (keys pages ++ html_names names) →
  (Forall (λ f, is_Some (read_file dir f)) (html_names names)
   ∧ extract_links findall dir names pages
     = Crawled (pages ++ ((λ f, (f, page_links findall dir f)) <$> html_names names)))
  ∨ (∃ f, f ∈ html_names names ∧ read_file dir f = None
          ∧ extract_links findall dir names pages = ReadError f).
Proof.
  revert pages. induction names as [|name names IH]; intros pages Hnd.
  - left. split; [by apply Forall_nil|]. simpl. by rewrite app_nil_r.
  - rewrite html_names_cons in *. cbn [extract_links].
    destruct (endswith name ".html") eqn:Hhtml; cbn [negb]; [|by apply IH].
    assert (name ∉ keys pages) as Hfresh.
    { apply NoDup_app in Hnd as (_ & Hdisj & _).
      intros Hin. apply (Hdisj _ Hin). by left. }
    destruct (read_file dir name) as [contents|] eqn:Hread.
    + cbv zeta. rewrite dict_set_fresh by done.
      destruct (IH (pages ++ [(name, list_to_set (findall contents) ∖ {[name]})]))
        as [[Hall Hrun]|(f & Hf & Hnone & Hrun)].
      * unfold keys in *. rewrite fmap_app, <- app_assoc. done.
      * left. split.
        -- apply Forall_cons. split; [by rewrite Hread|done].
        -- etrans; [exact Hrun|]. rewrite <- app_assoc, fmap_cons.
           assert (page_links findall dir name
                   = list_to_set (findall contents) ∖ {[name]}) as ->; [|done].
           unfold page_links. by rewrite Hread.
      * right. exists f. split; [by right|done].
    + right. exists name. split; [by left|done].
Qed.

Lemma restrict_links_from (pages : Corpus) ks (cur : Corpus) :
  keys cur = keys pages → NoDup ks → ks ⊆ keys cur →
  ∃ r, for_each (λ pages filename,
                   L ← dict_get filename pages ;
                   Ok (dict_set filename
                         (filter (λ link, dict_mem link pages = true) L) pages))
                ks cur = Ok r
       ∧ keys r = keys pages
       ∧ ∀ k, dict_get k r
              = if decide (k ∈ ks)
                then match dict_get k cur with
                     | Ok L => Ok (filter (λ link, link ∈ keys pages) L)
                     | Raise e => Raise e
                     end
                else dict_get k cur.
Proof.
  revert cur. induction ks as [|k0 ks IH]; intros cur Hkeys Hnd Hsub.
  - exists cur. split; [done|]. split; [done|]. intros k.
    by rewrite decide_False by apply not_elem_of_nil.
  - apply NoDup_cons in Hnd as [Hk0 Hnd].
    assert (k0 ∈ keys cur) as Hin by (apply Hsub; by left).
    destruct (dict_get_is_Ok k0 cur Hin) as [L0 HL0].
    cbn [for_each]. rewrite HL0. simpl.
    assert (filter (λ link, dict_mem link cur = true) L0
            = filter (λ link, link ∈ keys pages) L0) as ->.
    { apply set_eq. intros link. rewrite !elem_of_filter.
      unfold dict_mem. rewrite bool_decide_eq_true, Hkeys. done. }
    destruct (IH (dict_set k0 (filter (λ link, link ∈ keys pages) L0) cur))
      as (r & Hrun & Hkr & Hget).
    + by rewrite keys_dict_set_in.
    + done.
    + rewrite keys_dict_set_in by done. intros k Hk. apply Hsub. by right.
    + exists r. split; [done|]. split; [done|]. intros k. rewrite Hget.
      destruct (decide (k = k0)) as [->|Hne].
      * rewrite decide_False by done. rewrite decide_True by by left.
        by rewrite dict_get_set_eq, HL0.
      * rewrite dict_get_set_ne by done.
        destruct (decide (k ∈ ks)) as [Hk|Hk].
        -- by rewrite decide_True by by right.
        -- rewrite decide_False; [done|]. by intros [?|?]%elem_of_cons.
Qed.

(** The second loop keeps, in every entry, the links that are pages. *)
Lemma restrict_links_spec (pages : Corpus) :
  wf_dict pages →
  restrict_links pages
  = Ok ((λ pl, (pl.1, filter (λ link, link ∈ keys pages) pl.2)) <$> pages).
Proof.
  intros Hwf. unfold restrict_links.
  destruct (restrict_links_from pages (keys pages) pages) as (r & -> & Hkeys & Hget);
    [done..|].
  f_equal. apply dict_ext.
  - rewrite Hkeys. unfold keys. by rewrite <- list_fmap_compose.
  - unfold wf_dict. by rewrite Hkeys.
  - intros k Hk. rewrite Hkeys in Hk. rewrite Hget, decide_True by done.
    destruct (dict_get_is_Ok k pages Hk) as [L HL]. rewrite HL.
    symmetry. apply dict_get_elem.
    + unfold wf_dict, keys. by rewrite <- list_fmap_compose.
    + apply list_elem_of_fmap. exists (k, L). split; [done|].
      by apply dict_get_Ok.
Qed.

Lemma keys_crawled_pages :
  keys (crawled_pages findall dir) = html_names (listdir dir).
Proof.
  unfold crawled_pages, keys. rewrite <- list_fmap_compose. apply list_fmap_id.
Qed.

Lemma crawl_cases :
  NoDup (listdir dir) →
  (Forall (λ f, is_Some (read_file dir f)) (html_names (listdir dir))
   ∧ crawl findall dir = Crawled (crawled_pages findall dir))
  ∨ (∃ f, f ∈ html_names (listdir dir) ∧ read_file dir f = None
          ∧ crawl findall dir = ReadError f).
Proof.
  intros Hnd. unfold crawl.
  assert (NoDup (html_names (listdir dir))) as Hnd' by by apply NoDup_filter.
  destruct (extract_links_cases (listdir dir) []) as [[Hall ->]|(f & Hf & Hnone & ->)].
  - done.
  - left. split; [done|]. rewrite app_nil_l.
    assert (keys ((λ f, (f, page_links findall dir f)) <$> html_names (listdir dir))
            = html_names (listdir dir)) as Hkeys.
    { unfold keys. rewrite <- list_fmap_compose. apply list_fmap_id. }
    rewrite restrict_links_spec by (unfold wf_dict; by rewrite Hkeys).
    rewrite Hkeys. f_equal. unfold crawled_pages.
    by rewrite <- list_fmap_compose.
  - right. by exists f.
Qed.

Lemma crawl_Crawled pages :
  NoDup (listdir dir) → crawl findall dir = Crawled pages →
  pages = crawled_pages findall dir
  ∧ Forall (λ f, is_Some (read_file dir f)) (html_names (listdir dir)).
Proof.
  intros Hnd Hrun.
  destruct (crawl_cases Hnd) as [[Hall Hc]|(f & _ & _ & Hc)]; rewrite Hc in Hrun.
  - by injection Hrun as <-.
  - done.
Qed.

Lemma dict_get_crawled_pages f :
  NoDup (listdir dir) → f ∈ html_names (listdir dir) →
  dict_get f (crawled_pages findall dir)
  = Ok (filter (λ link, link ∈ html_names (listdir dir)) (page_links findall dir f)).
Proof.
  intros Hnd Hf. apply dict_get_elem.
  - unfold wf_dict. rewrite keys_crawled_pages. by apply NoDup_filter.
  - unfold crawled_pages. apply list_elem_of_fmap. by exists f.
Qed.

Lemma crawled_pages_valid : NoDup (listdir dir) → valid_graph (crawled_pages findall dir).
Proof.
  intros Hnd. split; [|split].
  - unfold wf_dict. rewrite keys_crawled_pages. by apply NoDup_filter.
  - unfold closed. rewrite keys_crawled_pages. unfold crawled_pages.
    apply Forall_fmap, Forall_forall. intros f _. simpl.
    intros link Hlink. apply elem_of_filter in Hlink. tauto.
  - unfold no_self_link, crawled_pages. apply Forall_fmap, Forall_forall.
    intros f _. simpl. rewrite elem_of_filter. unfold page_links.
    intros [_ Hf]. destruct (read_file dir f).
    + apply elem_of_difference in Hf as [_ Hf]. apply Hf. by apply elem_of_singleton.
    + by apply elem_of_empty in Hf.
Qed.
End crawl_facts.

(** X1: for a listing without repeated names, the graph that [crawl]
    returns has distinct keys, links only to its own pages, and no page
    linking to itself. *)
Theorem X1_crawl_returns_valid_graph
    (findall : string → list string) (dir : directory) (pages : Corpus) :
  NoDup (listdir dir) → crawl findall dir = Crawled pages → valid_graph pages.
Proof.
  intros Hnd [-> _]%crawl_Crawled; [|done]. by apply crawled_pages_valid.
Qed.

(** The graph of [sample_directory]. *)
Lemma X1_witness :
  (NoDup (listdir sample_directory)
   ∧ crawl findall_lines sample_directory = Crawled sample_pages)
  ∧ valid_graph sample_pages.
Proof.
  assert (NoDup (listdir sample_directory)) as Hnd by compute_done.
  assert (crawl findall_lines sample_directory = Crawled sample_pages) as Hrun
    by compute_done.
  split; [exact (conj Hnd Hrun)|].
  exact (X1_crawl_returns_valid_graph findall_lines sample_directory sample_pages Hnd Hrun).
Defined.

(** X2: for a listing without repeated names, the pages of the graph that
    [crawl] returns are the names ending in [.html], in the order of the
    listing; each was read, and it links exactly to the targets found in
    its contents that are other pages of the graph. *)
Theorem X2_crawl_pages_and_links
    (findall : string → list string) (dir : directory) (pages : Corpus) :
  NoDup (listdir dir) → crawl findall dir = Crawled pages →
  keys pages = html_names (listdir dir)
  ∧ ∀ f, f ∈ keys pages →
      ∃ contents L,
        read_file dir f = Some contents
        ∧ dict_get f pages = Ok L
        ∧ ∀ link, link ∈ L ↔ link ∈ findall contents ∧ link ≠ f ∧ link ∈ keys pages.
Proof.
  intros Hnd [-> Hall]%crawl_Crawled; [|done].
  rewrite keys_crawled_pages. split; [done|]. intros f Hf.
  rewrite Forall_forall in Hall. destruct (Hall f Hf) as [contents Hread].
  exists contents. eexists. split; [done|].
  split; [by apply dict_get_crawled_pages|].
  intros link. rewrite elem_of_filter. unfold page_links. rewrite Hread.
  rewrite elem_of_difference, elem_of_list_to_set, elem_of_singleton. tauto.
Qed.

Lemma X2_witness :
  (NoDup (listdir sample_directory)
   ∧ crawl findall_lines sample_directory = Crawled sample_pages)
  ∧ keys sample_pages = html_names (listdir sample_directory)
  ∧ ∀ f, f ∈ keys sample_pages →
      ∃ contents L,
        read_file sample_directory f = Some contents
        ∧ dict_get f sample_pages = Ok L
        ∧ ∀ link, link ∈ L
                  ↔ link ∈ findall_lines contents ∧ link ≠ f ∧ link ∈ keys sample_pages.
Proof.
  assert (NoDup (listdir sample_directory)) as Hnd by compute_done.
  assert (crawl findall_lines sample_directory = Crawled sample_pages) as Hrun
    by compute_done.
  split; [exact (conj Hnd Hrun)|].
  exact (X2_crawl_pages_and_links findall_lines sample_directory sample_pages Hnd Hrun).
Defined.

(** X3: for a listing without repeated names, [crawl] returns a graph
    exactly when every file whose name ends in [.html] can be read;
    otherwise the exception comes from reading such a file, and no
    [KeyError] or other exception of the dictionary code is raised. *)
Theorem X3_crawl_fails_only_on_unreadable_page
    (findall : string → list string) (dir : directory) :
  NoDup (listdir dir) →
  ((∃ pages, crawl findall dir = Crawled pages)
   ↔ Forall (λ f, is_Some (read_file dir f)) (html_names (listdir dir)))
  ∧ (∀ f, crawl findall dir = ReadError f →
          f ∈ html_names (listdir dir) ∧ read_file dir f = None)
  ∧ (∀ e, crawl findall dir ≠ CrawlRaised e).
Proof.
  intros Hnd.
  destruct (crawl_cases findall dir Hnd) as [[Hall Hc]|(f & Hf & Hnone & Hc)];
    rewrite Hc.
  - split; [|split]; [|done..]. split; [done|]. by eexists.
  - split; [|split]; [| |done].
    + split; [by intros [? ?]|]. intros Hall. rewrite Forall_forall in Hall.
      destruct (Hall f Hf) as [c Hsome]. congruence.
    + by intros ? [= <-].
Qed.

Lemma X3_witness :
  NoDup (listdir sample_directory)
  ∧ ((∃ pages, crawl findall_lines sample_directory = Crawled pages)
     ↔ Forall (λ f, is_Some (read_file sample_directory f))
              (html_names (listdir sample_directory)))
  ∧ (∀ f, crawl findall_lines sample_directory = ReadError f →
          f ∈ html_names (listdir sample_directory)
          ∧ read_file sample_directory f = None)
  ∧ (∀ e, crawl findall_lines sample_directory ≠ CrawlRaised e).
Proof.
  assert (NoDup (listdir sample_directory)) as Hnd by compute_done.
  split; [exact Hnd|].
  exact (X3_crawl_fails_only_on_unreadable_page findall_lines sample_directory Hnd).
Defined.

(** X4: [crawl] ignores the names that do not end in [.html]: it returns
    what it returns on the listing without them. *)
Theorem X4_crawl_ignores_other_files
    (findall : string → list string) (dir : directory) :
  crawl findall dir
  = crawl findall {| listdir := html_names (listdir dir); read_file := read_file dir |}.
Proof.
  unfold crawl. cbn [listdir read_file].
  rewrite (extract_links_html findall dir (listdir dir)).
  rewrite (extract_links_html findall {| listdir := html_names (listdir dir);
                                         read_file := read_file dir |}
             (html_names (listdir dir))).
  assert (html_names (html_names (listdir dir)) = html_names (listdir dir)) as ->.
  { unfold html_names. apply list_filter_filter_l. tauto. }
  assert (∀ names pages,
            extract_links findall dir names pages
            = extract_links findall {| listdir := html_names (listdir dir);
                                       read_file := read_file dir |} names pages) as ->.
  { induction names as [|name names IH]; intros pages; [done|].
    cbn [extract_links read_file]. destruct (negb _); [done|].
    destruct (read_file dir name); [apply IH|done]. }
  done.
Qed.

(** ** transition_model *)

Lemma Qc_one_over_nat_le_1 n : 1 / Qc_of_nat n ≤ 1.
Proof.
  destruct n as [|n].
  - rewrite Qc_of_nat_0. unfold Qcdiv. by rewrite Qcmult_1_l.
  - assert (0 < Qc_of_nat (S n)) as Hpos by (apply Qc_of_nat_pos; lia).
    apply (Qcmult_le_mono_pos_r _ _ (Qc_of_nat (S n))); [done|].
    unfold Qcdiv. rewrite <- Qcmult_assoc, (Qcmult_comm (/ _)).
    rewrite Qcmult_inv_r by (by apply Qclt_not_eq in Hpos).
    rewrite !Qcmult_1_l. unfold Qc_of_nat.
    rewrite <- Z2Qc_inj_1. apply (proj1 (Z2Qc_inj_le _ _)). lia.
Qed.

(** X5: on a dictionary with distinct keys, [transition_model] raises
    [KeyError] exactly when the page is not a key, raises no other
    exception, and otherwise returns a dictionary with the keys of the
    corpus, in the same order. *)
Theorem X5_transition_model_raises_only_KeyError
    (corpus : Corpus) (page : Page) (damping_factor : Qc) :
  wf_dict corpus →
  (transition_model corpus page damping_factor = Raise KeyError
   ↔ page ∉ keys corpus)
  ∧ (∀ e, transition_model corpus page damping_factor = Raise e → e = KeyError)
  ∧ (page ∈ keys corpus →
     ∃ tramod, transition_model corpus page damping_factor = Ok tramod
               ∧ keys tramod = keys corpus).
Proof.
  intros Hwf.
  assert (page ∉ keys corpus →
          transition_model corpus page damping_factor = Raise KeyError) as Hout.
  { intros Hp. unfold transition_model. by rewrite dict_get_KeyError. }
  assert (page ∈ keys corpus →
          ∃ tramod, transition_model corpus page damping_factor = Ok tramod
                    ∧ keys tramod = keys corpus) as Hin.
  { intros Hp. destruct (dict_get_is_Ok page corpus Hp) as [L HL].
    pose proof (transition_model_closed_form _ _ damping_factor _ Hwf HL) as Hrun.
    eexists. split; [exact Hrun|]. by eapply transition_model_keys. }
  split; [|split]; [|  |done].
  - split; [|done]. intros Hrun Hp. destruct (Hin Hp) as (t & Ht & _). congruence.
  - intros e Hrun. destruct (decide (page ∈ keys corpus)) as [Hp|Hp].
    + destruct (Hin Hp) as (t & Ht & _). congruence.
    + rewrite Hout in Hrun by done. by injection Hrun.
Qed.

Lemma X5_witness :
  wf_dict corpus_dangling
  ∧ (transition_model corpus_dangling "C" (frac 17 20) = Raise KeyError
     ↔ "C" ∉ keys corpus_dangling)
  ∧ (∀ e, transition_model corpus_dangling "C" (frac 17 20) = Raise e → e = KeyError)
  ∧ ("C" ∈ keys corpus_dangling →
     ∃ tramod, transition_model corpus_dangling "C" (frac 17 20) = Ok tramod
               ∧ keys tramod = keys corpus_dangling).
Proof.
  assert (wf_dict corpus_dangling) as Hwf by compute_done.
  split; [exact Hwf|].
  exact (X5_transition_model_raises_only_KeyError corpus_dangling "C" (frac 17 20) Hwf).
Defined.

(** X6: in a graph with distinct keys whose links stay inside the corpus,
    the values that [transition_model] returns for a page sum to one when
    the page has outlinks and to one minus the damping factor when it has
    none. *)
Theorem X6_transition_model_total_weight
    (corpus : Corpus) (page : Page) (damping_factor : Qc) (L : gset Page) :
  wf_dict corpus → closed corpus → dict_get page corpus = Ok L →
  ∃ tramod,
    transition_model corpus page damping_factor = Ok tramod
    ∧ pysum (values tramod) = if decide (L = ∅) then 1 - damping_factor else 1.
Proof.
  intros Hwf Hclosed Hget. destruct (decide (L = ∅)) as [->|Hne].
  - by apply transition_model_sum_dangling.
  - by eapply transition_model_sum_linked.
Qed.

Lemma X6_witness :
  (wf_dict corpus_triangle ∧ closed corpus_triangle
   ∧ dict_get "B" corpus_triangle = Ok {["A"; "C"]})
  ∧ ∃ tramod,
      transition_model corpus_triangle "B" (frac 17 20) = Ok tramod
      ∧ pysum (values tramod)
        = if decide (({["A"; "C"]} : gset Page) = ∅) then 1 - frac 17 20 else 1.
Proof.
  assert (wf_dict corpus_triangle) as Hwf by compute_done.
  assert (closed corpus_triangle) as Hclosed by compute_done.
  assert (dict_get "B" corpus_triangle = Ok {["A"; "C"]}) as Hget by compute_done.
  split; [exact (conj Hwf (conj Hclosed Hget))|].
  exact (X6_transition_model_total_weight corpus_triangle "B" (frac 17 20) _
           Hwf Hclosed Hget).
Defined.

(** X7: with a damping factor of zero, [transition_model] gives every
    page of the corpus the probability [1/N], whatever the links of the
    current page. *)
Theorem X7_transition_model_damping_zero (corpus : Corpus) (page : Page) :
  wf_dict corpus → page ∈ keys corpus →
  transition_model corpus page 0
  = Ok ((λ k, (k, 1 / Qc_of_nat (length corpus))) <$> keys corpus).
Proof.
  intros Hwf Hp. destruct (dict_get_is_Ok page corpus Hp) as [L HL].
  rewrite (transition_model_closed_form _ _ _ L) by done. f_equal.
  apply list_fmap_ext. intros _ k _. f_equal.
  unfold transition_value. destruct (bool_decide _); ring.
Qed.

Lemma X7_witness :
  (wf_dict corpus_triangle ∧ "B" ∈ keys corpus_triangle)
  ∧ transition_model corpus_triangle "B" 0
    = Ok ((λ k, (k, 1 / Qc_of_nat (length corpus_triangle))) <$> keys corpus_triangle).
Proof.
  assert (wf_dict corpus_triangle) as Hwf by compute_done.
  assert ("B" ∈ keys corpus_triangle) as Hp by compute_done.
  split; [exact (conj Hwf Hp)|].
  exact (X7_transition_model_damping_zero corpus_triangle "B" Hwf Hp).
Defined.

(** X8: for a damping factor in [0,1], every value that
    [transition_model] returns lies in [0,1]. *)
Theorem X8_transition_model_values_in_unit_interval
    (corpus : Corpus) (page : Page) (damping_factor : Qc) (tramod : dict Qc) :
  wf_dict corpus → 0 ≤ damping_factor ≤ 1 →
  transition_model corpus page damping_factor = Ok tramod →
  Forall (λ kv, 0 ≤ kv.2 ≤ 1) tramod.
Proof.
  intros Hwf [Hd0 Hd1] Hrun.
  destruct (dict_get page corpus) as [L|e] eqn:HL.
  2:{ unfold transition_model in Hrun. by rewrite HL in Hrun. }
  rewrite (transition_model_closed_form _ _ _ L) in Hrun by done.
  injection Hrun as <-. apply Forall_fmap, Forall_forall. intros k _. simpl.
  assert (0 ≤ 1 - damping_factor) as Hc.
  { apply (Qcplus_le_mono_r _ _ damping_factor).
    replace (1 - damping_factor + damping_factor) with 1 by ring.
    by rewrite Qcplus_0_l. }
  pose proof (Qc_one_over_nat_nonneg (length corpus)) as HN0.
  pose proof (Qc_one_over_nat_le_1 (length corpus)) as HN1.
  pose proof (Qc_one_over_nat_nonneg (size L)) as HL0.
  pose proof (Qc_one_over_nat_le_1 (size L)) as HL1.
  assert ((1 - damping_factor) * (1 / Qc_of_nat (length corpus)) ≤ 1 - damping_factor)
    as Hbase.
  { rewrite <- (Qcmult_1_r (1 - damping_factor)) at 2.
    by apply Qcmult_le_mono_nonneg_l. }
  assert (damping_factor * (1 / Qc_of_nat (size L)) ≤ damping_factor) as Hextra.
  { rewrite <- (Qcmult_1_r damping_factor) at 2. by apply Qcmult_le_mono_nonneg_l. }
  unfold transition_value. destruct (bool_decide _); split.
  - apply Qcplus_nonneg_nonneg; by apply Qcmult_nonneg_nonneg.
  - trans (damping_factor + (1 - damping_factor)); [by apply Qcplus_le_compat|].
    by assert (damping_factor + (1 - damping_factor) = 1) as -> by ring.
  - by apply Qcmult_nonneg_nonneg.
  - trans (1 - damping_factor); [done|].
    apply (Qcplus_le_mono_r _ _ damping_factor).
    replace (1 - damping_factor + damping_factor) with 1 by ring.
    rewrite <- (Qcplus_0_r 1) at 1. by apply Qcplus_le_mono_l.
Qed.

Lemma X8_witness :
  (wf_dict corpus_dangling ∧ 0 ≤ frac 17 20 ≤ 1
   ∧ transition_model corpus_dangling "A" (frac 17 20)
     = Ok [("A", frac 3 40); ("B", frac 3 40)])
  ∧ Forall (λ kv, 0 ≤ kv.2 ≤ 1) [("A", frac 3 40); ("B", frac 3 40)].
Proof.
  assert (wf_dict corpus_dangling) as Hwf by compute_done.
  assert (0 ≤ frac 17 20 ≤ 1) as Hd by (split; compute_done).
  assert (transition_model corpus_dangling "A" (frac 17 20)
          = Ok [("A", frac 3 40); ("B", frac 3 40)]) as Hrun by compute_done.
  split; [exact (conj Hwf (conj Hd Hrun))|].
  exact (X8_transition_model_values_in_unit_interval corpus_dangling "A" (frac 17 20) _
           Hwf Hd Hrun).
Defined.

(** ** iterative_sum *)

Lemma for_each_app {A S} (body : S → A → result S) (xs ys : list A) (acc : S) :
  for_each body (xs ++ ys) acc
  = (acc' ← for_each body xs acc ; for_each body ys acc').
Proof.
  revert acc. induction xs as [|x xs IH]; intros acc; simpl; [done|].
  destruct (body acc x); simpl; [apply IH|done].
Qed.

Lemma iterative_sum_over (distribution : dict Qc) (corpus : Corpus)
    (items : list (Page * Qc)) s :
  (∀ kv, kv ∈ items → dict_get kv.1 distribution = Ok kv.2) →
  Forall (λ k, outlinks corpus k ≠ ∅) (keys items) →
  for_each (λ s page,
              v ← dict_get page distribution ;
              L ← dict_get page corpus ;
              x ← pydiv v (Qc_of_nat (size L)) ;
              Ok (s + x)) (keys items) s
  = Ok (s + pysum ((λ kv, kv.2 / Qc_of_nat (size (outlinks corpus kv.1))) <$> items)).
Proof.
  revert s. induction items as [|[k v] items IH]; intros s Hget Hall.
  - simpl. by rewrite Qcplus_0_r.
  - unfold keys in Hall. rewrite fmap_cons in Hall.
    apply Forall_cons in Hall as [Hk Hall]. simpl in Hk.
    pose proof (Hget (k, v) ltac:(by left)) as Hkv. simpl in Hkv.
    destruct (dict_get k corpus) as [L|e] eqn:HL.
    2:{ unfold outlinks in Hk. by rewrite HL in Hk. }
    assert (outlinks corpus k = L) as HoL by (unfold outlinks; by rewrite HL).
    cbn [keys fmap list_fmap for_each fst]. rewrite Hkv. simpl. rewrite HL. simpl.
    rewrite pydiv_nat_Ok.
    2:{ intros Hsz%size_empty_inv. apply Hk. rewrite HoL. by apply leibniz_equiv. }
    simpl. etrans.
    { apply IH; [|done]. intros kv Hin. apply Hget. by right. }
    rewrite HoL. f_equal. symmetry. apply Qcplus_assoc.
Qed.

(** X9: for a distribution with distinct keys, [iterative_sum] returns
    the sum of [value / number of outlinks] when every page of the
    distribution is a page of the corpus with at least one outlink; at the
    first page for which this fails it raises [KeyError] when the page is
    not in the corpus and [ZeroDivisionError] when the page has no
    outlinks. *)
Theorem X9_iterative_sum_outcomes (distribution : dict Qc) (corpus : Corpus) :
  wf_dict distribution →
  (Forall (λ k, outlinks corpus k ≠ ∅) (keys distribution) →
   iterative_sum distribution corpus
   = Ok (pysum ((λ kv, kv.2 / Qc_of_nat (size (outlinks corpus kv.1)))
                  <$> distribution)))
  ∧ (∀ done k rest,
       keys distribution = done ++ k :: rest →
       Forall (λ k, outlinks corpus k ≠ ∅) done →
       (k ∉ keys corpus → iterative_sum distribution corpus = Raise KeyError)
       ∧ (dict_get k corpus = Ok ∅ →
          iterative_sum distribution corpus = Raise ZeroDivisionError)).
Proof.
  intros Hwf. split.
  - intros Hall. unfold iterative_sum.
    rewrite (iterative_sum_over distribution corpus distribution 0).
    + by rewrite Qcplus_0_l.
    + intros [k v] Hkv. by apply dict_get_elem.
    + done.
  - intros done k rest Hsplit Hdone.
    unfold keys in Hsplit.
    apply fmap_app_inv in Hsplit as (d1 & d2' & Hd1 & Hd2 & Hdist).
    symmetry in Hd2. apply fmap_cons_inv in Hd2 as ([k' v] & d2 & Hk & _ & ->).
    simpl in Hk. subst k' done.
    assert (dict_get k distribution = Ok v) as Hkv.
    { apply dict_get_elem; [done|]. rewrite Hdist. apply elem_of_app. right. by left. }
    assert (∀ r, (dict_get k corpus ≫= λ L, pydiv v (Qc_of_nat (size L))
                    ≫= λ x, Ok (0 + pysum ((λ kv, kv.2 / Qc_of_nat
                                   (size (outlinks corpus kv.1))) <$> d1) + x)) = Raise r →
                 iterative_sum distribution corpus = Raise r) as Hfail.
    { intros r Hr. unfold iterative_sum.
      assert (keys distribution = keys d1 ++ k :: keys d2) as ->.
      { rewrite Hdist. unfold keys. by rewrite fmap_app. }
      rewrite for_each_app.
      rewrite (iterative_sum_over distribution corpus d1 0).
      - simpl. rewrite Hkv. simpl. by rewrite Hr.
      - intros kv Hin. destruct kv as [k1 v1]. apply dict_get_elem; [done|].
        rewrite Hdist. apply elem_of_app. by left.
      - done. }
    split.
    + intros Hk. apply Hfail. by rewrite dict_get_KeyError.
    + intros Hk. apply Hfail. rewrite Hk. cbn [mbind result_bind].
      rewrite size_empty, Qc_of_nat_0. unfold pydiv. by rewrite decide_True.
Qed.

(** [A] has no outlinks in [corpus_dangling]. *)
Lemma X9_witness :
  wf_dict ranks_half
  ∧ iterative_sum ranks_half corpus_dangling = Raise ZeroDivisionError.
Proof.
  assert (wf_dict ranks_half) as Hwf by compute_done.
  split; [exact Hwf|].
  destruct (X9_iterative_sum_outcomes ranks_half corpus_dangling Hwf) as [_ Hfail].
  destruct (Hfail [] "A" ["B"]) as [_ Hzero]; [compute_done|apply Forall_nil_2|].
  apply Hzero. compute_done.
Defined.

(** ** iterate_pagerank: the returned ranks *)

Lemma pysum_div (xs : list Qc) c :
  pysum ((λ x, x / c) <$> xs) = pysum xs / c.
Proof.
  induction xs as [|x xs IH].
  - simpl. unfold Qcdiv. ring.
  - rewrite fmap_cons, !pysum_cons, IH. unfold Qcdiv. ring.
Qed.

Lemma normalise_sum (iterprob iterprob' : dict Qc) :
  wf_dict iterprob → iterprob ≠ [] →
  normalise iterprob = Ok iterprob' → pysum (values iterprob') = 1.
Proof.
  intros Hwf Hne Hrun.
  destruct (decide (pysum (values iterprob) = 0)) as [Hz|Hnz].
  - destruct iterprob as [|[k v] iterprob]; [done|].
    unfold normalise in Hrun. cbn [for_each] in Hrun.
    rewrite Hz in Hrun. unfold pydiv in Hrun.
    by rewrite decide_True in Hrun.
  - rewrite normalise_spec in Hrun by done. injection Hrun as <-.
    unfold values. rewrite <- list_fmap_compose.
    change (snd ∘ _) with ((λ x, x / pysum (iterprob.*2)) ∘ (@snd Page Qc)).
    rewrite list_fmap_compose, pysum_div. by field.
Qed.

Lemma iteration_sum corpus damping_factor (iterprob iterprob' : dict Qc) m :
  wf_dict iterprob → iterprob ≠ [] → corpus ≠ [] →
  iteration corpus damping_factor iterprob = Ok (iterprob', m) →
  pysum (values iterprob') = 1.
Proof.
  intros Hwf Hne Hc Hrun. unfold iteration in Hrun.
  rewrite sweep_spec in Hrun by done. simpl in Hrun.
  destruct (normalise _) as [normed|e] eqn:Hnorm; [|done]. simpl in Hrun.
  destruct (iterchanges _ _) as [changes|e]; [|done]. simpl in Hrun.
  destruct (pymax _) as [m'|e]; [|done]. simpl in Hrun.
  injection Hrun as <- <-.
  apply normalise_sum in Hnorm; [done| |].
  - unfold wf_dict. by rewrite sweep_fold_keys.
  - intros Hnil. apply (f_equal keys) in Hnil.
    rewrite sweep_fold_keys in Hnil by done. by destruct iterprob.
Qed.

Lemma iterate_loop_sum fuel corpus damping_factor (iterprob : dict Qc) m ranks :
  wf_dict iterprob → iterprob ≠ [] → corpus ≠ [] →
  threshold ≤ m ∨ pysum (values iterprob) = 1 →
  iterate_loop fuel corpus damping_factor iterprob m = Some (Ok ranks) →
  pysum (values ranks) = 1.
Proof.
  intros Hwf Hne Hc. revert iterprob m Hwf Hne.
  induction fuel as [|fuel IH]; intros iterprob m Hwf Hne Hinv; simpl.
  - destruct (decide _) as [|Hlt]; [done|]. intros [= <-]. by destruct Hinv.
  - destruct (decide _) as [|Hlt]; [|intros [= <-]; by destruct Hinv].
    destruct (iteration _ _ _) as [[iterprob' m']|e] eqn:Hiter; [|done].
    pose proof (iteration_keys _ _ _ _ _ Hwf Hc Hiter) as Hkeys.
    apply IH.
    + unfold wf_dict. by rewrite Hkeys.
    + intros ->. by destruct iterprob.
    + right. by eapply iteration_sum.
Qed.

Lemma iterate_pagerank_sum fuel (corpus : Corpus) damping_factor ranks :
  wf_dict corpus →
  iterate_pagerank fuel corpus damping_factor = Some (Ok ranks) →
  pysum (values ranks) = 1.
Proof.
  intros Hwf. destruct corpus as [|pl corpus].
  - rewrite iterate_pagerank_empty. by destruct fuel.
  - unfold iterate_pagerank. rewrite initial_ranks_spec by done.
    apply iterate_loop_sum; [|done|done|].
    + unfold wf_dict, keys. by rewrite <- list_fmap_compose, list_fmap_id.
    + left. compute_done.
Qed.

Lemma rank_of_nonneg (ranks : dict Qc) k :
  Forall (λ kv, 0 ≤ kv.2) ranks → 0 ≤ rank_of ranks k.
Proof.
  intros Hall. unfold rank_of. destruct (dict_get k ranks) as [v|e] eqn:Hv; [|done].
  apply dict_get_Ok in Hv. rewrite Forall_forall in Hall. by apply (Hall (k, v)).
Qed.

Lemma sweep_fold_positive (corpus : Corpus) damping_factor (ranks : dict Qc) :
  wf_dict ranks → corpus ≠ [] → 0 ≤ damping_factor → damping_factor < 1 →
  Forall (λ kv, 0 ≤ kv.2) ranks →
  Forall (λ kv, 0 < kv.2) (sweep_fold corpus damping_factor (keys ranks) ranks).
Proof.
  intros Hwf Hne Hd0 Hd1 Hall.
  set (swept := sweep_fold corpus damping_factor (keys ranks) ranks).
  assert (keys swept = keys ranks) as Hkeys by by apply sweep_fold_keys.
  assert (Forall (λ kv, 0 ≤ kv.2) swept) as Hswept by by apply sweep_fold_nonneg.
  apply Forall_forall. intros [k v] Hkv. simpl.
  assert (k ∈ keys ranks) as Hk.
  { rewrite <- Hkeys. apply list_elem_of_fmap. by exists (k, v). }
  apply list_elem_of_split in Hk as (done & rest & Hsplit).
  pose proof (sweep_fold_at corpus damping_factor done k rest ranks Hwf Hsplit) as Hat.
  fold swept in Hat.
  rewrite (dict_get_elem k v swept) in Hat; [|unfold wf_dict; by rewrite Hkeys|done].
  injection Hat as ->. apply new_rank_pos; [done..|].
  unfold mixed. apply Forall_fmap, Forall_forall. intros [k' v'] Hin. simpl.
  destruct (bool_decide _); [by apply rank_of_nonneg|].
  rewrite Forall_forall in Hall. by apply (Hall (k', v')).
Qed.

Lemma iteration_positive (corpus : Corpus) damping_factor (iterprob iterprob' : dict Qc) m :
  wf_dict iterprob → corpus ≠ [] → 0 ≤ damping_factor → damping_factor < 1 →
  Forall (λ kv, 0 ≤ kv.2) iterprob →
  iteration corpus damping_factor iterprob = Ok (iterprob', m) →
  Forall (λ kv, 0 < kv.2) iterprob'.
Proof.
  intros Hwf Hne Hd0 Hd1 Hall Hrun. unfold iteration in Hrun.
  rewrite sweep_spec in Hrun by done. simpl in Hrun.
  pose proof (sweep_fold_positive corpus damping_factor iterprob Hwf Hne Hd0 Hd1 Hall)
    as Hpos.
  set (swept := sweep_fold corpus damping_factor (keys iterprob) iterprob) in *.
  destruct (normalise swept) as [normed|e] eqn:Hnorm; [|done]. simpl in Hrun.
  destruct (iterchanges _ _) as [changes|e]; [|done]. simpl in Hrun.
  destruct (pymax _) as [m'|e]; [|done]. simpl in Hrun.
  injection Hrun as <- <-.
  destruct swept as [|kv0 swept'] eqn:Hswept; [by injection Hnorm as <-|].
  rewrite <- Hswept in *.
  assert (0 < pysum (values swept)) as Hsum.
  { apply pysum_pos; [by rewrite Hswept|]. unfold values. by apply Forall_fmap. }
  rewrite normalise_spec in Hnorm.
  - injection Hnorm as <-. apply Forall_fmap, Forall_forall. intros kv Hkv. simpl.
    unfold Qcdiv. apply Qcmult_pos_pos; [|by apply Qcinv_pos].
    rewrite Forall_forall in Hpos. by apply Hpos.
  - unfold wf_dict, swept. by rewrite sweep_fold_keys.
  - intros Hz. symmetry in Hz. by apply Qclt_not_eq in Hsum.
Qed.

Lemma iterate_loop_positive fuel (corpus : Corpus) damping_factor
    (iterprob : dict Qc) m ranks :
  wf_dict iterprob → corpus ≠ [] → 0 ≤ damping_factor → damping_factor < 1 →
  Forall (λ kv, 0 < kv.2) iterprob →
  iterate_loop fuel corpus damping_factor iterprob m = Some (Ok ranks) →
  Forall (λ kv, 0 < kv.2) ranks.
Proof.
  intros Hwf Hne Hd0 Hd1. revert iterprob m Hwf.
  induction fuel as [|fuel IH]; intros iterprob m Hwf Hall; simpl.
  - destruct (decide _); [done|]. by intros [= <-].
  - destruct (decide _); [|by intros [= <-]].
    destruct (iteration _ _ _) as [[iterprob' m']|e] eqn:Hiter; [|done].
    apply IH.
    + unfold wf_dict. by rewrite (iteration_keys _ _ _ _ _ Hwf Hne Hiter).
    + eapply iteration_positive; [done..| |done].
      eapply Forall_impl; [done|]. intros kv Hkv. by apply Qclt_le_weak.
Qed.

Lemma pysum_ge_elem xs x : Forall (λ x, 0 ≤ x) xs → x ∈ xs → x ≤ pysum xs.
Proof.
  intros Hall Hin. induction Hall as [|y ys Hy Hall IH].
  - by apply elem_of_nil in Hin.
  - rewrite pysum_cons. apply elem_of_cons in Hin as [->|Hin].
    + rewrite <- (Qcplus_0_r y) at 1. apply Qcplus_le_mono_l. by apply pysum_nonneg.
    + trans (pysum ys); [by apply IH|].
      rewrite <- (Qcplus_0_l (pysum ys)) at 1. by apply Qcplus_le_mono_r.
Qed.

Lemma iterate_pagerank_positive fuel (corpus : Corpus) damping_factor ranks :
  wf_dict corpus → 0 ≤ damping_factor → damping_factor < 1 →
  iterate_pagerank fuel corpus damping_factor = Some (Ok ranks) →
  Forall (λ kv, 0 < kv.2 ≤ 1) ranks.
Proof.
  intros Hwf Hd0 Hd1 Hrun.
  pose proof (iterate_pagerank_sum _ _ _ _ Hwf Hrun) as Hsum.
  assert (Forall (λ kv, 0 < kv.2) ranks) as Hpos.
  { destruct corpus as [|pl corpus].
    - rewrite iterate_pagerank_empty in Hrun. by destruct fuel.
    - unfold iterate_pagerank in Hrun. rewrite initial_ranks_spec in Hrun by done.
      eapply iterate_loop_positive in Hrun; [done| |done..|].
      + unfold wf_dict, keys. by rewrite <- list_fmap_compose, list_fmap_id.
      + apply Forall_fmap, Forall_forall. intros k _. simpl.
        by apply Qc_one_over_nat_pos. }
  apply Forall_forall. intros kv Hkv. split.
  - rewrite Forall_forall in Hpos. by apply Hpos.
  - rewrite <- Hsum. apply pysum_ge_elem.
    + unfold values. apply Forall_fmap. eapply Forall_impl; [done|].
      intros kv' Hkv'. by apply Qclt_le_weak.
    + unfold values. apply list_elem_of_fmap. by exists kv.
Qed.

(** X11: for a corpus with distinct keys and a damping factor in [0,1),
    every rank that [iterate_pagerank] returns is positive and at most
    one. *)
Theorem X11_iterate_pagerank_ranks_positive
    (fuel : nat) (corpus : Corpus) (damping_factor : Qc) (ranks : dict Qc) :
  wf_dict corpus → 0 ≤ damping_factor → damping_factor < 1 →
  iterate_pagerank fuel corpus damping_factor = Some (Ok ranks) →
  Forall (λ kv, 0 < kv.2 ≤ 1) ranks.
Proof. apply iterate_pagerank_positive. Qed.

Lemma X11_witness :
  (wf_dict corpus_triangle ∧ 0 ≤ frac 1 2 ∧ frac 1 2 < 1
   ∧ iterate_pagerank 10 corpus_triangle (frac 1 2) = Some (Ok ranks_triangle))
  ∧ Forall (λ kv, 0 < kv.2 ≤ 1) ranks_triangle.
Proof.
  assert (wf_dict corpus_triangle) as Hwf by compute_done.
  assert (0 ≤ frac 1 2) as Hd0 by compute_done.
  assert (frac 1 2 < 1) as Hd1 by compute_done.
  assert (iterate_pagerank 10 corpus_triangle (frac 1 2) = Some (Ok ranks_triangle))
    as Hrun by compute_done.
  split; [exact (conj Hwf (conj Hd0 (conj Hd1 Hrun)))|].
  exact (X11_iterate_pagerank_ranks_positive 10 corpus_triangle (frac 1 2) _
           Hwf Hd0 Hd1 Hrun).
Defined.

(** X12: for a non-empty corpus with distinct keys and a damping factor in
    [0,1), [iterate_pagerank] raises no exception, however long it
    iterates. *)
Theorem X12_iterate_pagerank_raises_nothing
    (fuel : nat) (corpus : Corpus) (damping_factor : Qc) (e : exn) :
  wf_dict corpus → corpus ≠ [] → 0 ≤ damping_factor → damping_factor < 1 →
  iterate_pagerank fuel corpus damping_factor ≠ Some (Raise e).
Proof.
  intros Hwf Hne Hd0 Hd1 Hrun.
  destruct (iterate_pagerank_no_exception fuel corpus damping_factor Hwf Hne Hd0 Hd1)
    as [Hnone|[ranks Hok]]; congruence.
Qed.

Lemma X12_witness :
  (wf_dict corpus_dangling ∧ corpus_dangling ≠ [] ∧ 0 ≤ frac 17 20 ∧ frac 17 20 < 1)
  ∧ iterate_pagerank 3 corpus_dangling (frac 17 20) ≠ Some (Raise ZeroDivisionError).
Proof.
  assert (wf_dict corpus_dangling) as Hwf by compute_done.
  assert (corpus_dangling ≠ []) as Hne by compute_done.
  assert (0 ≤ frac 17 20) as Hd0 by compute_done.
  assert (frac 17 20 < 1) as Hd1 by compute_done.
  split; [exact (conj Hwf (conj Hne (conj Hd0 Hd1)))|].
  exact (X12_iterate_pagerank_raises_nothing 3 corpus_dangling (frac 17 20)
           ZeroDivisionError Hwf Hne Hd0 Hd1).
Defined.

(** ** iterate_pagerank: graphs on which uniform ranks stay *)

Lemma dict_set_same {V} k (v : V) (d : dict V) :
  dict_get k d = Ok v → dict_set k v d = d.
Proof.
  induction d as [|[k' v'] d IH]; simpl; [done|].
  destruct (decide (k = k')) as [->|Hne].
  - by intros [= ->].
  - intros Hget. by rewrite IH.
Qed.

Lemma pysum_const {A} (l : list A) c :
  pysum ((λ _, c) <$> l) = Qc_of_nat (length l) * c.
Proof.
  induction l as [|x l IH].
  - simpl. rewrite Qc_of_nat_0. ring.
  - rewrite fmap_cons, pysum_cons, IH. cbn [length]. rewrite Qc_of_nat_S. ring.
Qed.

Lemma normalise_constant (ks : list Page) c :
  NoDup ks → ks ≠ [] → c ≠ 0 →
  normalise ((λ k, (k, c)) <$> ks)
  = Ok ((λ k, (k, 1 / Qc_of_nat (length ks))) <$> ks).
Proof.
  intros Hnd Hne Hc.
  assert (Qc_of_nat (length ks) ≠ 0) as HN.
  { rewrite Qc_of_nat_eq_0. by intros ->%nil_length_inv. }
  assert (pysum (values ((λ k, (k, c)) <$> ks)) = Qc_of_nat (length ks) * c) as Hsum.
  { unfold values. rewrite <- list_fmap_compose. apply pysum_const. }
  rewrite normalise_spec.
  - rewrite Hsum, <- list_fmap_compose. f_equal. apply list_fmap_ext.
    intros _ k _. simpl. f_equal. by field.
  - unfold wf_dict, keys. by rewrite <- list_fmap_compose, list_fmap_id.
  - rewrite Hsum. intros [?|?]%Qcmult_integral; done.
Qed.

Lemma normalise_zero_sum (iterprob : dict Qc) :
  iterprob ≠ [] → pysum (values iterprob) = 0 →
  normalise iterprob = Raise ZeroDivisionError.
Proof.
  intros Hne Hz. destruct iterprob as [|[k v] iterprob]; [done|].
  unfold normalise. cbn [for_each]. rewrite Hz. unfold pydiv.
  by rewrite decide_True.
Qed.

Lemma iterchanges_same (ranks : dict Qc) :
  iterchanges ranks ranks = Ok ((λ _, 0) <$> keys ranks).
Proof.
  unfold iterchanges. rewrite iterchanges_from by done. simpl. f_equal.
  apply list_fmap_ext. intros _ k _.
  assert (rank_of ranks k - rank_of ranks k = 0) as -> by ring. done.
Qed.

Lemma pymax_zeros {A} (l : list A) : l ≠ [] → pymax ((λ _, 0) <$> l) = Ok 0.
Proof.
  destruct l as [|x l]; [done|]. intros _. simpl. f_equal.
  induction l as [|y l IH]; [done|]. simpl.
  assert (Qcmax 0 0 = 0) as -> by done. exact IH.
Qed.

(** When the sweep of the uniform ranks normalises to the uniform ranks,
    the loop stops after its first pass. *)
Lemma iterate_pagerank_uniform fuel (corpus : Corpus) damping_factor swept :
  wf_dict corpus → corpus ≠ [] →
  sweep corpus damping_factor (uniform_ranks corpus) = Ok swept →
  normalise swept = Ok (uniform_ranks corpus) →
  iterate_pagerank (S fuel) corpus damping_factor = Some (Ok (uniform_ranks corpus)).
Proof.
  intros Hwf Hne Hsweep Hnorm. unfold iterate_pagerank.
  rewrite initial_ranks_spec by done. fold (uniform_ranks corpus).
  cbn [iterate_loop]. rewrite decide_True by compute_done.
  unfold iteration. rewrite Hsweep. simpl. rewrite Hnorm. simpl.
  rewrite iterchanges_same. simpl. rewrite pymax_zeros.
  2:{ unfold uniform_ranks, keys. by destruct corpus. }
  cbn [mbind result_bind].
  destruct fuel; cbn [iterate_loop]; by rewrite decide_False by compute_done.
Qed.

Lemma sweep_fold_fixed (corpus : Corpus) damping_factor ks (cur : dict Qc) :
  (∀ p, p ∈ ks → dict_get p cur = Ok (new_rank corpus damping_factor cur p)) →
  sweep_fold corpus damping_factor ks cur = cur.
Proof.
  induction ks as [|k ks IH]; intros Hfix; [done|].
  unfold sweep_fold in *. simpl.
  rewrite dict_set_same by (apply Hfix; by left).
  apply IH. intros p Hp. apply Hfix. by right.
Qed.

Lemma outlinks_elem (corpus : Corpus) p L :
  wf_dict corpus → (p, L) ∈ corpus → outlinks corpus p = L.
Proof. intros Hwf Hin. unfold outlinks. by rewrite (dict_get_elem p L). Qed.

Lemma incoming_constant (corpus : Corpus) c page (items : list (Page * gset Page)) :
  (∀ pl, pl ∈ items → outlinks corpus pl.1 = pl.2) →
  pysum ((λ kv, kv.2 / Qc_of_nat (size (outlinks corpus kv.1)))
           <$> filter (λ kv, page ∈ outlinks corpus kv.1)
                      ((λ pl, (pl.1, c)) <$> items))
  = c * pysum ((λ pl, 1 / Qc_of_nat (size pl.2)) <$> filter (λ pl, page ∈ pl.2) items).
Proof.
  induction items as [|[q L] items IH]; intros Hout.
  - simpl. ring.
  - pose proof (Hout (q, L) ltac:(by left)) as HqL. simpl in HqL.
    rewrite fmap_cons, !filter_cons. simpl. rewrite HqL.
    destruct (decide (page ∈ L)).
    + rewrite !fmap_cons, !pysum_cons. simpl. rewrite HqL, IH.
      * unfold Qcdiv. ring.
      * intros pl Hpl. apply Hout. by right.
    + apply IH. intros pl Hpl. apply Hout. by right.
Qed.

Lemma incoming_uniform (corpus : Corpus) page :
  wf_dict corpus →
  incoming corpus (uniform_ranks corpus) page
  = 1 / Qc_of_nat (length corpus) * in_weight corpus page.
Proof.
  intros Hwf. unfold incoming, uniform_ranks, keys, in_weight.
  rewrite <- list_fmap_compose.
  apply (incoming_constant corpus (1 / Qc_of_nat (length corpus)) page corpus).
  intros [p L] Hin. by apply outlinks_elem.
Qed.

Lemma dict_get_uniform (corpus : Corpus) p :
  wf_dict corpus → p ∈ keys corpus →
  dict_get p (uniform_ranks corpus) = Ok (1 / Qc_of_nat (length corpus)).
Proof.
  intros Hwf Hp. apply dict_get_elem.
  - unfold wf_dict, uniform_ranks, keys. by rewrite <- list_fmap_compose, list_fmap_id.
  - unfold uniform_ranks. apply list_elem_of_fmap. by exists p.
Qed.

Lemma keys_uniform_ranks (corpus : Corpus) : keys (uniform_ranks corpus) = keys corpus.
Proof. unfold uniform_ranks, keys. by rewrite <- list_fmap_compose, list_fmap_id. Qed.

(** X13: in a non-empty corpus with distinct keys where every page
    receives a total of one from the pages linking to it, each sharing one
    unit equally among its outlinks (as in a cycle), [iterate_pagerank]
    returns the rank [1/N] for every page after one pass, for any damping
    factor. *)
Theorem X13_iterate_pagerank_balanced_graph
    (fuel : nat) (corpus : Corpus) (damping_factor : Qc) :
  wf_dict corpus → corpus ≠ [] →
  (∀ p, p ∈ keys corpus → in_weight corpus p = 1) →
  iterate_pagerank (S fuel) corpus damping_factor
  = Some (Ok ((λ k, (k, 1 / Qc_of_nat (length corpus))) <$> keys corpus)).
Proof.
  intros Hwf Hne Hbal. fold (uniform_ranks corpus).
  assert (Qc_of_nat (length corpus) ≠ 0) as HN.
  { rewrite Qc_of_nat_eq_0. by intros ->%nil_length_inv. }
  assert (wf_dict (uniform_ranks corpus)) as Hwfu.
  { unfold wf_dict. by rewrite keys_uniform_ranks. }
  apply (iterate_pagerank_uniform fuel corpus damping_factor (uniform_ranks corpus));
    [done..| |].
  - rewrite sweep_spec by done. f_equal. apply sweep_fold_fixed.
    intros p Hp. rewrite keys_uniform_ranks in Hp.
    rewrite dict_get_uniform by done. f_equal.
    unfold new_rank. rewrite incoming_uniform, Hbal by done. by field.
  - unfold uniform_ranks at 1.
    rewrite normalise_constant; [| exact Hwf | by destruct corpus |].
    + unfold uniform_ranks, keys. by rewrite length_fmap.
    + assert (0 < 1 / Qc_of_nat (length (keys corpus))) as Hpos.
      { apply Qc_one_over_nat_pos. unfold keys. rewrite length_fmap.
        by destruct corpus. }
      unfold keys in Hpos. rewrite length_fmap in Hpos.
      intros Hz. rewrite Hz in Hpos. by apply Qclt_not_eq in Hpos.
Qed.

Lemma X13_witness :
  (wf_dict corpus_two_cycle ∧ corpus_two_cycle ≠ []
   ∧ ∀ p, p ∈ keys corpus_two_cycle → in_weight corpus_two_cycle p = 1)
  ∧ iterate_pagerank 1 corpus_two_cycle (frac 17 20)
    = Some (Ok ((λ k, (k, 1 / Qc_of_nat (length corpus_two_cycle)))
                  <$> keys corpus_two_cycle)).
Proof.
  assert (wf_dict corpus_two_cycle) as Hwf by compute_done.
  assert (corpus_two_cycle ≠ []) as Hne by compute_done.
  assert (∀ p, p ∈ keys corpus_two_cycle → in_weight corpus_two_cycle p = 1) as Hbal.
  { intros p Hp. apply elem_of_cons in Hp as [->|Hp]; [compute_done|].
    apply elem_of_cons in Hp as [->|Hp]; [compute_done|].
    by apply elem_of_nil in Hp. }
  split; [exact (conj Hwf (conj Hne Hbal))|].
  exact (X13_iterate_pagerank_balanced_graph 0 corpus_two_cycle (frac 17 20)
           Hwf Hne Hbal).
Defined.

Lemma outlinks_no_links (corpus : Corpus) q :
  Forall (λ pl, pl.2 = ∅) corpus → outlinks corpus q = ∅.
Proof.
  intros Hall. unfold outlinks. destruct (dict_get q corpus) as [L|e] eqn:HL; [|done].
  apply dict_get_Ok in HL. rewrite Forall_forall in Hall. by apply (Hall (q, L)).
Qed.

Lemma incoming_no_links (corpus : Corpus) (ranks : dict Qc) page :
  Forall (λ pl, pl.2 = ∅) corpus → incoming corpus ranks page = 0.
Proof.
  intros Hall. unfold incoming.
  match goal with
  | |- context [@filter _ _ _ ?P ?D ranks] => assert (@filter _ _ _ P D ranks = []) as ->
  end; [|done].
  induction ranks as [|kv ranks IH]; [done|].
  rewrite filter_cons_False; [done|].
  rewrite outlinks_no_links by done. apply not_elem_of_empty.
Qed.

Lemma sweep_no_links (corpus : Corpus) damping_factor (ranks : dict Qc) :
  wf_dict ranks → corpus ≠ [] → Forall (λ pl, pl.2 = ∅) corpus →
  sweep corpus damping_factor ranks
  = Ok ((λ k, (k, (1 - damping_factor) / Qc_of_nat (length corpus))) <$> keys ranks).
Proof.
  intros Hwf Hne Hall. rewrite sweep_spec by done. f_equal.
  assert (keys ((λ k, (k, (1 - damping_factor) / Qc_of_nat (length corpus)))
                  <$> keys ranks) = keys ranks) as Hkeys.
  { unfold keys. by rewrite <- list_fmap_compose, list_fmap_id. }
  apply dict_ext.
  - rewrite Hkeys. by apply sweep_fold_keys.
  - unfold wf_dict. by rewrite sweep_fold_keys.
  - intros k Hk. rewrite sweep_fold_keys in Hk by done.
    pose proof Hk as Hk'.
    apply list_elem_of_split in Hk' as (done & rest & Hsplit).
    rewrite (sweep_fold_at corpus damping_factor done k rest) by done.
    unfold new_rank. rewrite incoming_no_links by done.
    symmetry. rewrite (dict_get_elem k ((1 - damping_factor) / Qc_of_nat (length corpus))).
    + f_equal. ring.
    + unfold wf_dict. by rewrite Hkeys.
    + apply list_elem_of_fmap. by exists k.
Qed.

(** X14: in a non-empty corpus with distinct keys and no link at all,
    [iterate_pagerank] returns the rank [1/N] for every page after one
    pass when the damping factor is not one, and raises
    [ZeroDivisionError] in its first pass when the damping factor is one. *)
Theorem X14_iterate_pagerank_without_links
    (fuel : nat) (corpus : Corpus) (damping_factor : Qc) :
  wf_dict corpus → corpus ≠ [] → Forall (λ pl, pl.2 = ∅) corpus →
  iterate_pagerank (S fuel) corpus damping_factor
  = if decide (damping_factor = 1) then Some (Raise ZeroDivisionError)
    else Some (Ok ((λ k, (k, 1 / Qc_of_nat (length corpus))) <$> keys corpus)).
Proof.
  intros Hwf Hne Hall. fold (uniform_ranks corpus).
  assert (Qc_of_nat (length corpus) ≠ 0) as HN.
  { rewrite Qc_of_nat_eq_0. by intros ->%nil_length_inv. }
  assert (wf_dict (uniform_ranks corpus)) as Hwfu.
  { unfold wf_dict. by rewrite keys_uniform_ranks. }
  pose proof (sweep_no_links corpus damping_factor (uniform_ranks corpus)
                Hwfu Hne Hall) as Hsweep.
  rewrite keys_uniform_ranks in Hsweep.
  destruct (decide (damping_factor = 1)) as [->|Hd].
  - unfold iterate_pagerank. rewrite initial_ranks_spec by done.
    fold (uniform_ranks corpus). cbn [iterate_loop].
    rewrite decide_True by compute_done. unfold iteration. rewrite Hsweep.
    cbn [mbind result_bind]. rewrite normalise_zero_sum; [done| |].
    + unfold keys. by destruct corpus.
    + unfold values. rewrite <- list_fmap_compose.
      etrans; [apply (pysum_const (keys corpus))|]. unfold Qcdiv. ring.
  - apply (iterate_pagerank_uniform fuel corpus damping_factor _ Hwf Hne Hsweep).
    rewrite normalise_constant; [| exact Hwf | by destruct corpus |].
    + unfold uniform_ranks, keys. by rewrite length_fmap.
    + unfold Qcdiv. intros [Hz|Hz]%Qcmult_integral.
      * apply Hd. apply (Qcplus_inj_l (- damping_factor)). simpl.
        rewrite Qcplus_opp_r. symmetry. exact Hz.
      * assert (0 < / Qc_of_nat (length corpus)) as Hpos.
        { apply Qcinv_pos, Qc_of_nat_pos. destruct corpus; [done|simpl; lia]. }
        rewrite Hz in Hpos. by apply Qclt_not_eq in Hpos.
Qed.

Lemma X14_witness :
  (wf_dict corpus_no_links ∧ corpus_no_links ≠ []
   ∧ Forall (λ pl, pl.2 = ∅) corpus_no_links)
  ∧ iterate_pagerank 1 corpus_no_links 1
    = if decide ((1 : Qc) = 1) then Some (Raise ZeroDivisionError)
      else Some (Ok ((λ k, (k, 1 / Qc_of_nat (length corpus_no_links)))
                       <$> keys corpus_no_links)).
Proof.
  assert (wf_dict corpus_no_links) as Hwf by compute_done.
  assert (corpus_no_links ≠ []) as Hne by compute_done.
  assert (Forall (λ pl : Page * gset Page, pl.2 = ∅) corpus_no_links) as Hall
    by compute_done.
  split; [exact (conj Hwf (conj Hne Hall))|].
  exact (X14_iterate_pagerank_without_links 0 corpus_no_links 1 Hwf Hne Hall).
Defined.

(** ** sample_pagerank: the returned ranks *)

Lemma record_visit_positive (tally tally' : dict nat) p :
  record_visit tally p = Ok tally' →
  Forall (λ kv, (1 ≤ kv.2)%nat) tally → Forall (λ kv, (1 ≤ kv.2)%nat) tally'.
Proof.
  unfold record_visit. intros Hrun Hall. destruct (dict_mem p tally).
  - destruct (dict_get p tally) as [v|e]; [|done]. injection Hrun as <-.
    apply Forall_dict_set; [done|]. simpl. lia.
  - injection Hrun as <-. apply Forall_dict_set; [done|]. simpl. lia.
Qed.

Lemma walk_positive n (corpus : Corpus) damping_factor (tally : dict nat)
    current_page g tally' g' :
  walk n corpus damping_factor tally current_page g = (Ok tally', g') →
  Forall (λ kv, (1 ≤ kv.2)%nat) tally → Forall (λ kv, (1 ≤ kv.2)%nat) tally'.
Proof.
  revert tally current_page g.
  induction n as [|n IH]; intros tally current_page g; simpl.
  - by intros [= <- _].
  - intros Hrun Hall.
    apply M_bind_Ok in Hrun as (tally1 & g1 & Hrec & Hrun).
    apply M_bind_Ok in Hrun as (transmod & g2 & Htm & Hrun).
    apply M_bind_Ok in Hrun as (next_page & g3 & Hnext & Hrun).
    unfold lift in Hrec. injection Hrec as Hrec _.
    eapply IH; [done|]. by eapply record_visit_positive.
Qed.

(** The tally behind a returned rank map: [n] visits in all, at least one
    for every page in it. *)
Lemma sample_pagerank_tally (corpus : Corpus) damping_factor n g ranks :
  wf_dict corpus → (0 < n)%nat →
  (sample_pagerank corpus damping_factor n g).1 = Ok ranks →
  ∃ tally,
    wf_dict tally ∧ keys tally ⊆ keys corpus ∧ total_visits tally = n
    ∧ Forall (λ kv, (1 ≤ kv.2)%nat) tally
    ∧ ranks = (λ kv, (kv.1, Qc_of_nat kv.2 / Qc_of_nat n)) <$> tally.
Proof.
  intros Hwfc Hn [g' Hrun]%fst_Ok_inv. unfold sample_pagerank in Hrun.
  apply M_bind_Ok in Hrun as (start_page & g1 & Hstart & Hrun).
  apply M_bind_Ok in Hrun as (tally & g2 & Hwalk & Hrun).
  unfold lift in Hrun. injection Hrun as Hrun _.
  apply random_sample1_elem in Hstart.
  pose proof (walk_positive _ _ _ _ _ _ _ _ Hwalk (Forall_nil_2 _)) as Hpos.
  apply walk_invariant in Hwalk as (Hwf & Hsub & Htot); [|done|apply NoDup_nil_2| |done].
  2:{ intros k Hk. by apply elem_of_nil in Hk. }
  rewrite normalise_tally_spec in Hrun by (done || lia). injection Hrun as <-.
  by exists tally.
Qed.

(** X15: for a corpus with distinct keys and a positive sample count [n],
    every rank that [sample_pagerank] returns is [k/n] for a number of
    visits [k] between [1] and [n], and the numbers of visits add up to
    [n]. *)
Theorem X15_sample_pagerank_ranks_are_visit_fractions
    (corpus : Corpus) (damping_factor : Qc) (n : nat) (g : rng) (ranks : dict Qc) :
  wf_dict corpus → (0 < n)%nat →
  (sample_pagerank corpus damping_factor n g).1 = Ok ranks →
  ∃ tally : dict nat,
    ranks = (λ kv, (kv.1, Qc_of_nat kv.2 / Qc_of_nat n)) <$> tally
    ∧ Forall (λ kv, (1 ≤ kv.2 ≤ n)%nat) tally
    ∧ total_visits tally = n.
Proof.
  intros Hwf Hn Hrun.
  destruct (sample_pagerank_tally _ _ _ _ _ Hwf Hn Hrun)
    as (tally & _ & _ & Htot & Hpos & ->).
  exists tally. split; [done|]. split; [|done].
  apply Forall_forall. intros kv Hkv. split.
  - rewrite Forall_forall in Hpos. by apply Hpos.
  - rewrite <- Htot. unfold total_visits. by apply sum_list_with_in.
Qed.

Lemma X15_witness :
  (wf_dict corpus_triangle ∧ (0 < 3)%nat
   ∧ (sample_pagerank corpus_triangle (frac 1 2) 3 rng_steps).1
     = Ok [("A", frac 2 3); ("B", frac 1 3)])
  ∧ ∃ tally : dict nat,
      [("A", frac 2 3); ("B", frac 1 3)]
      = (λ kv, (kv.1, Qc_of_nat kv.2 / Qc_of_nat 3)) <$> tally
      ∧ Forall (λ kv, (1 ≤ kv.2 ≤ 3)%nat) tally
      ∧ total_visits tally = 3%nat.
Proof.
  assert (wf_dict corpus_triangle) as Hwf by compute_done.
  assert (0 < 3)%nat as Hn by lia.
  assert ((sample_pagerank corpus_triangle (frac 1 2) 3 rng_steps).1
          = Ok [("A", frac 2 3); ("B", frac 1 3)]) as Hrun by compute_done.
  split; [exact (conj Hwf (conj Hn Hrun))|].
  exact (X15_sample_pagerank_ranks_are_visit_fractions corpus_triangle (frac 1 2) 3
           rng_steps _ Hwf Hn Hrun).
Defined.

(** X16: on a corpus of a single page, with a damping factor in [0,1) and
    a positive sample count, [sample_pagerank] returns the rank [1] for
    that page, whatever the generator draws. *)
Theorem X16_sample_pagerank_single_page
    (page : Page) (L : gset Page) (damping_factor : Qc) (n : nat) (g : rng) :
  0 ≤ damping_factor → damping_factor < 1 → (0 < n)%nat →
  (sample_pagerank [(page, L)] damping_factor n g).1 = Ok [(page, 1)].
Proof.
  intros Hd0 Hd1 Hn.
  assert (wf_dict [(page, L)]) as Hwf by apply NoDup_singleton.
  destruct (sample_pagerank_total [(page, L)] damping_factor n g Hwf) as (ranks & g' & Hrun);
    [done|done|by apply positive_weights_damping_lt_1|].
  rewrite Hrun. simpl. f_equal.
  apply sample_pagerank_returns in Hrun as (tally & Hwft & Hsub & Htot & ->); [|done].
  assert (Qc_of_nat n ≠ 0) as HN by (rewrite Qc_of_nat_eq_0; lia).
  destruct tally as [|[k v] tally].
  { unfold total_visits in Htot. simpl in Htot. lia. }
  assert (k = page) as ->.
  { assert (k ∈ keys [(page, L)]) as Hk by (apply Hsub; by left).
    by apply list_elem_of_singleton in Hk. }
  destruct tally as [|[k' v'] tally].
  - unfold total_visits in Htot. simpl in Htot.
    assert (v = n) as -> by lia. simpl. f_equal. f_equal. by field.
  - exfalso. unfold wf_dict, keys in Hwft. rewrite !fmap_cons in Hwft. simpl in Hwft.
    apply NoDup_cons in Hwft as [Hnin _]. apply Hnin.
    assert (k' ∈ keys [(page, L)]) as Hk' by (apply Hsub; right; by left).
    apply list_elem_of_singleton in Hk' as ->. by left.
Qed.

Lemma X16_witness :
  (0 ≤ frac 17 20 ∧ frac 17 20 < 1 ∧ (0 < 5)%nat)
  ∧ (sample_pagerank [("A", ∅)] (frac 17 20) 5 rng_steps).1 = Ok [("A", 1)].
Proof.
  assert (0 ≤ frac 17 20) as Hd0 by compute_done.
  assert (frac 17 20 < 1) as Hd1 by compute_done.
  assert (0 < 5)%nat as Hn by lia.
  split; [exact (conj Hd0 (conj Hd1 Hn))|].
  exact (X16_sample_pagerank_single_page "A" ∅ (frac 17 20) 5 rng_steps Hd0 Hd1 Hn).
Defined.

Lemma random_choices_zero_total population weights g :
  length weights = length population → weights ≠ [] → pysum weights ≤ 0 →
  random_choices population weights g = (Raise ValueError, g).
Proof.
  intros Hlen Hne Hsum. unfold random_choices, accumulate.
  rewrite length_accumulate_from. rewrite decide_False by (intros Hn; by apply Hn).
  rewrite last_accumulate_from by done. rewrite Qcplus_0_l.
  by rewrite decide_True.
Qed.

(** X17: on a non-empty corpus with distinct keys and no link at all,
    with a damping factor of one and a positive sample count, every
    transition weight is zero and [sample_pagerank] raises [ValueError] at
    its first draw of a next page. *)
Theorem X17_sample_pagerank_zero_weights
    (corpus : Corpus) (n : nat) (g : rng) :
  wf_dict corpus → corpus ≠ [] → Forall (λ pl, pl.2 = ∅) corpus → (0 < n)%nat →
  (sample_pagerank corpus 1 n g).1 = Raise ValueError.
Proof.
  intros Hwf Hne Hall Hn. unfold sample_pagerank.
  destruct (random_sample1_total (keys corpus) g) as (start_page & Hstart & Hin).
  { unfold keys. by destruct corpus. }
  rewrite M_bind_unfold, Hstart. rewrite M_bind_unfold.
  destruct n as [|n]; [lia|]. cbn [walk].
  destruct (record_visit_spec [] start_page) as (tally1 & Hrec & _).
  rewrite M_bind_unfold. unfold lift at 1. rewrite Hrec.
  assert (dict_get start_page corpus = Ok ∅) as Hget.
  { destruct (dict_get_is_Ok start_page corpus Hin) as [L HL]. rewrite HL. f_equal.
    apply dict_get_Ok in HL. rewrite Forall_forall in Hall. by apply (Hall _ HL). }
  rewrite M_bind_unfold. unfold lift at 1.
  rewrite (transition_model_dangling corpus start_page 1 Hwf Hget).
  rewrite M_bind_unfold, random_choices_zero_total; [done| | |].
  - unfold keys, values. by rewrite !length_fmap.
  - unfold values, keys. by destruct corpus.
  - unfold values. rewrite <- list_fmap_compose.
    etrans; [|apply Qcle_refl].
    assert (pysum ((snd ∘ (λ k : Page, (k, (1 - 1) * (1 / Qc_of_nat (length corpus)))))
                     <$> keys corpus) = 0) as ->; [|done].
    etrans; [apply (pysum_const (keys corpus))|]. ring.
Qed.

Lemma X17_witness :
  (wf_dict corpus_no_links ∧ corpus_no_links ≠ []
   ∧ Forall (λ pl, pl.2 = ∅) corpus_no_links ∧ (0 < 2)%nat)
  ∧ (sample_pagerank corpus_no_links 1 2 rng_steps).1 = Raise ValueError.
Proof.
  assert (wf_dict corpus_no_links) as Hwf by compute_done.
  assert (corpus_no_links ≠ []) as Hne by compute_done.
  assert (Forall (λ pl : Page * gset Page, pl.2 = ∅) corpus_no_links) as Hall
    by compute_done.
  assert (0 < 2)%nat as Hn by lia.
  split; [exact (conj Hwf (conj Hne (conj Hall Hn)))|].
  exact (X17_sample_pagerank_zero_weights corpus_no_links 2 rng_steps Hwf Hne Hall Hn).
Defined.

(** ** main *)

Lemma print_ranks_from (ranks : dict Qc) pages out :
  pages ⊆ keys ranks →
  for_each (λ out page,
              rank ← dict_get page ranks ;
              Ok (out ++ [RankLine page rank])) pages out
  = Ok (out ++ ((λ page, RankLine page (rank_of ranks page)) <$> pages)).
Proof.
  revert out. induction pages as [|page pages IH]; intros out Hsub; simpl.
  - by rewrite app_nil_r.
  - destruct (dict_get_is_Ok page ranks) as [v Hv]; [apply Hsub; by left|].
    unfold rank_of at 1. rewrite Hv. simpl. rewrite IH.
    + by rewrite <- app_assoc.
    + intros p Hp. apply Hsub. by right.
Qed.

Lemma print_ranks_spec (ranks : dict Qc) : print_ranks ranks = Ok (rank_lines ranks).
Proof.
  unfold print_ranks, rank_lines. rewrite print_ranks_from; [done|].
  intros p Hp. by rewrite merge_sort_Permutation in Hp.
Qed.

(** X18: for every rank map, the printing loop of [main] raises no
    exception and prints exactly one line per page of the map, in
    increasing order of the page names, each line with the rank that the
    map holds for its page. *)
Theorem X18_print_ranks_one_sorted_line_per_page (ranks : dict Qc) :
  ∃ pages,
    print_ranks ranks = Ok ((λ page, RankLine page (rank_of ranks page)) <$> pages)
    ∧ Sorted String.le pages
    ∧ pages ≡ₚ keys ranks
    ∧ ∀ page, page ∈ pages → dict_get page ranks = Ok (rank_of ranks page).
Proof.
  exists (merge_sort String.le (keys ranks)).
  split; [apply print_ranks_spec|]. split; [apply Sorted_merge_sort, _|].
  split; [apply merge_sort_Permutation|].
  intros page Hp. rewrite merge_sort_Permutation in Hp.
  destruct (dict_get_is_Ok page ranks Hp) as [v Hv].
  unfold rank_of. by rewrite Hv.
Qed.

Lemma DAMPING_range : 0 ≤ DAMPING ∧ DAMPING < 1.
Proof. split; compute_done. Qed.

Lemma SAMPLES_pos : (0 < SAMPLES)%nat.
Proof. unfold SAMPLES. lia. Qed.

(** X19: when the directory named on the command line has distinct names,
    at least one name ending in [.html], and every such file can be read,
    [main] raises no exception: the sampling estimator returns a rank map,
    whose lines are printed under the sampling header, and then either the
    iteration is still running or its rank map is printed under the
    iteration header and [main] finishes. *)
Theorem X19_main_on_readable_directory
    (findall : string → list string) (fs : string → option directory)
    (prog path : string) (dir : directory) (fuel : nat) (g : rng) :
  fs path = Some dir → NoDup (listdir dir) →
  html_names (listdir dir) ≠ [] →
  Forall (λ f, is_Some (read_file dir f)) (html_names (listdir dir)) →
  ∃ corpus sampled g',
    crawl findall dir = Crawled corpus
    ∧ sample_pagerank corpus DAMPING SAMPLES g = (Ok sampled, g')
    ∧ (main findall fs [prog; path] fuel g).2 = g'
    ∧ ((iterate_pagerank fuel corpus DAMPING = None
        ∧ (main findall fs [prog; path] fuel g).1
          = (SamplingHeader SAMPLES :: rank_lines sampled, Iterating))
       ∨ (∃ iterated,
            iterate_pagerank fuel corpus DAMPING = Some (Ok iterated)
            ∧ (main findall fs [prog; path] fuel g).1
              = (SamplingHeader SAMPLES :: rank_lines sampled
                   ++ IterationHeader :: rank_lines iterated, Finished))).
Proof.
  intros Hfs Hnd Hne Hall.
  destruct (crawl_cases findall dir Hnd) as [[_ Hcrawl]|(f & Hf & Hnone & _)].
  2:{ rewrite Forall_forall in Hall. destruct (Hall f Hf) as [c Hc]. congruence. }
  pose proof (crawled_pages_valid findall dir Hnd) as (Hwf & _ & _).
  assert (crawled_pages findall dir ≠ []) as Hne'.
  { intros Hnil. apply (f_equal keys) in Hnil.
    by rewrite keys_crawled_pages in Hnil. }
  destruct DAMPING_range as [Hd0 Hd1].
  destruct (sample_pagerank_total (crawled_pages findall dir) DAMPING SAMPLES g
              Hwf Hne' SAMPLES_pos (positive_weights_damping_lt_1 _ _ Hwf Hd0 Hd1))
    as (sampled & g' & Hsample).
  exists (crawled_pages findall dir), sampled, g'.
  split; [done|]. split; [done|].
  assert (main findall fs [prog; path] fuel g
          = match iterate_pagerank fuel (crawled_pages findall dir) DAMPING with
            | None => ((SamplingHeader SAMPLES :: rank_lines sampled, Iterating), g')
            | Some (Raise e) =>
                ((SamplingHeader SAMPLES :: rank_lines sampled, Uncaught e), g')
            | Some (Ok iterated) =>
                ((SamplingHeader SAMPLES :: rank_lines sampled
                    ++ IterationHeader :: rank_lines iterated, Finished), g')
            end) as Hmain.
  { unfold main. rewrite decide_False by (intros Hlen; by apply Hlen).
    change (list_get [prog; path] 1) with (Ok path : result string).
    cbv iota. rewrite Hfs, Hcrawl, Hsample, print_ranks_spec.
    destruct (iterate_pagerank fuel _ DAMPING) as [[iterated|e]|]; [|done..].
    rewrite print_ranks_spec. cbv zeta. f_equal. f_equal.
    by rewrite <- !app_assoc. }
  rewrite Hmain.
  destruct (iterate_pagerank_no_exception fuel (crawled_pages findall dir) DAMPING
              Hwf Hne' Hd0 Hd1) as [Hnone|[iterated Hiter]].
  - rewrite Hnone. split; [done|]. by left.
  - rewrite Hiter. split; [done|]. right. by exists iterated.
Qed.

Lemma X19_witness :
  ((λ path, if decide (path = "corpus") then Some sample_directory else None) "corpus"
   = Some sample_directory
   ∧ NoDup (listdir sample_directory)
   ∧ html_names (listdir sample_directory) ≠ []
   ∧ Forall (λ f, is_Some (read_file sample_directory f))
            (html_names (listdir sample_directory)))
  ∧ ∃ corpus sampled g',
      crawl findall_lines sample_directory = Crawled corpus
      ∧ sample_pagerank corpus DAMPING SAMPLES rng_steps = (Ok sampled, g')
      ∧ (main findall_lines
           (λ path, if decide (path = "corpus") then Some sample_directory else None)
           ["pagerank.py"; "corpus"] 3 rng_steps).2 = g'
      ∧ ((iterate_pagerank 3 corpus DAMPING = None
          ∧ (main findall_lines
               (λ path, if decide (path = "corpus") then Some sample_directory else None)
               ["pagerank.py"; "corpus"] 3 rng_steps).1
            = (SamplingHeader SAMPLES :: rank_lines sampled, Iterating))
         ∨ (∃ iterated,
              iterate_pagerank 3 corpus DAMPING = Some (Ok iterated)
              ∧ (main findall_lines
                   (λ path, if decide (path = "corpus") then Some sample_directory
                            else None)
                   ["pagerank.py"; "corpus"] 3 rng_steps).1
                = (SamplingHeader SAMPLES :: rank_lines sampled
                     ++ IterationHeader :: rank_lines iterated, Finished))).
Proof.
  assert ((λ path, if decide (path = "corpus") then Some sample_directory else None)
            "corpus" = Some sample_directory) as Hfs by reflexivity.
  assert (NoDup (listdir sample_directory)) as Hnd by compute_done.
  assert (html_names (listdir sample_directory) ≠ []) as Hne by compute_done.
  assert (Forall (λ f, is_Some (read_file sample_directory f))
                 (html_names (listdir sample_directory))) as Hall.
  { apply Forall_forall. intros f Hf.
    repeat (apply elem_of_cons in Hf as [->|Hf]; [by eexists|]).
    by apply elem_of_nil in Hf. }
  split; [exact (conj Hfs (conj Hnd (conj Hne Hall)))|].
  exact (X19_main_on_readable_directory findall_lines _ "pagerank.py" "corpus"
           sample_directory 3 rng_steps Hfs Hnd Hne Hall).
Defined.

(** X20: with a number of command-line arguments other than one, [main]
    exits with the usage message before reading or printing anything;
    and on a directory without any name ending in [.html], the corpus is
    empty and [main] ends with the [ValueError] of [sample_pagerank],
    having printed nothing. *)
Theorem X20_main_usage_and_empty_corpus
    (findall : string → list string) (fs : string → option directory)
    (argv : list string) (prog path : string) (dir : directory)
    (fuel : nat) (g : rng) :
  (length argv ≠ 2%nat →
   main findall fs argv fuel g
   = (([], SystemExit "Usage: python pagerank.py corpus"), g))
  ∧ (fs path = Some dir → html_names (listdir dir) = [] →
     (main findall fs [prog; path] fuel g).1 = ([], Uncaught ValueError)).
Proof.
  split.
  - intros Hlen. unfold main. by rewrite decide_True.
  - intros Hfs Hnil. unfold main.
    rewrite decide_False by (intros Hlen; by apply Hlen).
    change (list_get [prog; path] 1) with (Ok path : result string).
    cbv iota. rewrite Hfs.
    assert (crawl findall dir = Crawled []) as ->; [|done].
    unfold crawl. by rewrite extract_links_html, Hnil.
Qed.

Lemma X20_witness :
  (length ["pagerank.py"] ≠ 2%nat
   ∧ (λ _ : string, Some {| listdir := ["notes.txt"]; read_file := λ _, None |}) "corpus"
     = Some {| listdir := ["notes.txt"]; read_file := λ _, None |}
   ∧ html_names ["notes.txt"] = [])
  ∧ main findall_lines
      (λ _, Some {| listdir := ["notes.txt"]; read_file := λ _, None |})
      ["pagerank.py"] 3 rng_zero
    = (([], SystemExit "Usage: python pagerank.py corpus"), rng_zero)
  ∧ (main findall_lines
       (λ _, Some {| listdir := ["notes.txt"]; read_file := λ _, None |})
       ["pagerank.py"; "corpus"] 3 rng_zero).1
    = ([], Uncaught ValueError).
Proof.
  assert (length ["pagerank.py"] ≠ 2%nat) as Hlen by (simpl; lia).
  assert (html_names ["notes.txt"] = []) as Hnil by compute_done.
  split; [exact (conj Hlen (conj eq_refl Hnil))|].
  destruct (X20_main_usage_and_empty_corpus findall_lines
              (λ _, Some {| listdir := ["notes.txt"]; read_file := λ _, None |})
              ["pagerank.py"] "pagerank.py" "corpus"
              {| listdir := ["notes.txt"]; read_file := λ _, None |} 3 rng_zero)
    as [Husage Hempty].
  split; [exact (Husage Hlen)|exact (Hempty eq_refl Hnil)].
Defined.

(** * Termination of iterate_pagerank below damping one

    One pass through the loop maps the rank map [x] to the swept ranks
    divided by their sum.  The sweep is linear in the ranks and the base
    rank together, every swept rank is at least the base rank, and so the
    bounds [m] and [M] on the ratio between the swept and the previous
    ranks come closer by a constant factor at each pass.  The change of
    every rank is bounded by their distance, which therefore falls below
    the threshold after finitely many passes. *)

(** ** Order on the rationals *)

(** The operations of [Qc] on the underlying fractions.  [qc_arith]
    passes a goal on the order of [Qc] to [Q], where [lra] and [nra]
    decide it. *)
Lemma Qc_this_plus (x y : Qc) : (this (x + y) == this x + this y)%Q.
Proof. unfold Qcplus. apply Qred_correct. Qed.
Lemma Qc_this_mult (x y : Qc) : (this (x * y) == this x * this y)%Q.
Proof. unfold Qcmult. apply Qred_correct. Qed.
Lemma Qc_this_opp (x : Qc) : (this (- x) == - this x)%Q.
Proof. unfold Qcopp. apply Qred_correct. Qed.
Lemma Qc_this_minus (x y : Qc) : (this (x - y) == this x - this y)%Q.
Proof. unfold Qcminus. rewrite Qc_this_plus, Qc_this_opp. reflexivity. Qed.
Lemma Qc_this_eq (x y : Qc) : x = y → (this x == this y)%Q.
Proof. by intros ->. Qed.
Lemma Qc_this_0 : (this 0 == 0)%Q.
Proof. reflexivity. Qed.
Lemma Qc_this_1 : (this 1 == 1)%Q.
Proof. reflexivity. Qed.

Ltac qc_arith :=
  repeat match goal with
  | H : @eq Qc _ _ |- _ => apply Qc_this_eq in H
  | |- @eq Qc _ _ => apply Qc_is_canon
  end;
  unfold Qcle, Qclt in *;
  repeat match goal with
  | H : context [this (_ + _)] |- _ => rewrite Qc_this_plus in H
  | H : context [this (_ * _)] |- _ => rewrite Qc_this_mult in H
  | H : context [this (_ - _)] |- _ => rewrite Qc_this_minus in H
  | H : context [this (- _)] |- _ => rewrite Qc_this_opp in H
  | H : context [this 0] |- _ => rewrite Qc_this_0 in H
  | H : context [this 1] |- _ => rewrite Qc_this_1 in H
  | |- context [this (_ + _)] => rewrite Qc_this_plus
  | |- context [this (_ * _)] => rewrite Qc_this_mult
  | |- context [this (_ - _)] => rewrite Qc_this_minus
  | |- context [this (- _)] => rewrite Qc_this_opp
  | |- context [this 0] => rewrite Qc_this_0
  | |- context [this 1] => rewrite Qc_this_1
  end.

(** ** Linear combinations of rank maps *)

Lemma keys_lin a (x : dict Qc) b (y : dict Qc) :
  keys x = keys y → keys (lin a x b y) = keys x.
Proof.
  revert y. induction x as [|[k v] x IH]; intros [|[k' v'] y]; try done.
  unfold keys, lin in *. rewrite !fmap_cons. simpl. intros [= <- Hk]. f_equal. by apply IH.
Qed.

Lemma rank_of_lin a (x : dict Qc) b (y : dict Qc) p :
  keys x = keys y →
  rank_of (lin a x b y) p = a * rank_of x p + b * rank_of y p.
Proof.
  revert y. induction x as [|[k v] x IH]; intros [|[k' v'] y]; try done.
  - intros _. unfold rank_of. simpl. ring.
  - unfold keys. rewrite !fmap_cons. simpl. intros [= <- Hk].
    specialize (IH y Hk). unfold rank_of, lin in *. simpl.
    destruct (decide (p = k)); [done|]. exact IH.
Qed.

Lemma rank_of_dict_set (d : dict Qc) k v p :
  rank_of (dict_set k v d) p = if decide (p = k) then v else rank_of d p.
Proof.
  unfold rank_of. destruct (decide (p = k)) as [->|Hne].
  - by rewrite dict_get_set_eq.
  - by rewrite dict_get_set_ne.
Qed.

Lemma keys_dict_set_congr {V} k (v v' : V) (x y : dict V) :
  keys x = keys y → keys (dict_set k v x) = keys (dict_set k v' y).
Proof.
  revert y. induction x as [|[k1 v1] x IH]; intros [|[k2 v2] y]; try done.
  unfold keys in *. rewrite !fmap_cons. simpl. intros [= <- Hk].
  destruct (decide (k = k1)); rewrite !fmap_cons; simpl; f_equal; [done|].
  by apply IH.
Qed.

Lemma lin_dict_set a (x : dict Qc) b (y : dict Qc) k v v' :
  keys x = keys y →
  lin a (dict_set k v x) b (dict_set k v' y) = dict_set k (a * v + b * v') (lin a x b y).
Proof.
  revert y. induction x as [|[k1 v1] x IH]; intros [|[k2 v2] y]; try done.
  unfold keys in *. rewrite !fmap_cons. simpl. intros [= <- Hk].
  unfold lin in *. simpl.
  destruct (decide (k = k1)); simpl; f_equal. by apply IH.
Qed.

Lemma incoming_lin corpus a (x : dict Qc) b (y : dict Qc) p :
  keys x = keys y →
  incoming corpus (lin a x b y) p = a * incoming corpus x p + b * incoming corpus y p.
Proof.
  revert y. induction x as [|[k v] x IH]; intros [|[k' v'] y]; try done.
  - intros _. unfold incoming. simpl. ring.
  - unfold keys. rewrite !fmap_cons. simpl. intros [= <- Hk].
    specialize (IH y Hk). unfold incoming, lin in *. simpl.
    rewrite !filter_cons. simpl.
    destruct (decide (p ∈ outlinks corpus k)).
    + rewrite !fmap_cons, !pysum_cons, IH. simpl. unfold Qcdiv. ring.
    + exact IH.
Qed.

Lemma pysum_values_lin a (x : dict Qc) b (y : dict Qc) :
  keys x = keys y →
  pysum (values (lin a x b y)) = a * pysum (values x) + b * pysum (values y).
Proof.
  revert y. induction x as [|[k v] x IH]; intros [|[k' v'] y]; try done.
  - intros _. simpl. ring.
  - unfold keys. rewrite !fmap_cons. simpl. intros [= <- Hk].
    specialize (IH y Hk). unfold values, lin in *. cbn [zip_with].
    rewrite IH. ring.
Qed.

(** The sweep is linear in the base rank and the rank map together. *)
Lemma sweep_from_lin corpus d a b base base' ks (x y : dict Qc) :
  keys x = keys y →
  sweep_from corpus d (a * base + b * base') ks (lin a x b y)
  = lin a (sweep_from corpus d base ks x) b (sweep_from corpus d base' ks y).
Proof.
  revert x y. induction ks as [|k ks IH]; intros x y Hk; [done|].
  unfold sweep_from in *. simpl.
  rewrite <- IH by by apply keys_dict_set_congr.
  f_equal. rewrite lin_dict_set by done. f_equal.
  rewrite incoming_lin by done. ring.
Qed.

Lemma sweep_fold_sweep_from (corpus : Corpus) d ks (cur : dict Qc) :
  sweep_fold corpus d ks cur
  = sweep_from corpus d ((1 - d) / Qc_of_nat (length corpus)) ks cur.
Proof. reflexivity. Qed.

(** With a non-negative damping factor, base rank and rank map, every
    page that the sweep has updated has at least the base rank. *)
Lemma sweep_from_ge corpus d base ks (cur : dict Qc) p :
  0 ≤ d → 0 ≤ base → Forall (λ kv, 0 ≤ kv.2) cur →
  p ∈ ks ∨ base ≤ rank_of cur p →
  base ≤ rank_of (sweep_from corpus d base ks cur) p.
Proof.
  intros Hd Hb. revert cur. induction ks as [|k ks IH]; intros cur Hall Hp.
  - destruct Hp as [Hp|Hp]; [by apply elem_of_nil in Hp|done].
  - unfold sweep_from in *. simpl.
    assert (base ≤ base + d * incoming corpus cur k) as Hv.
    { pose proof (incoming_nonneg corpus cur k Hall) as Hinc.
      set (i := incoming corpus cur k) in *. clearbody i. qc_arith. nra. }
    apply IH.
    + apply Forall_dict_set; [done|]. simpl. by trans base.
    + rewrite rank_of_dict_set. destruct (decide (p = k)) as [->|Hne]; [by right|].
      destruct Hp as [Hp|Hp]; [|by right].
      apply elem_of_cons in Hp as [->|Hp]; [done|by left].
Qed.

Lemma base_rank_pos (corpus : Corpus) d :
  corpus ≠ [] → d < 1 → 0 < base_rank corpus d.
Proof.
  intros Hne Hd. unfold base_rank, Qcdiv. apply Qcmult_pos_pos.
  - qc_arith. lra.
  - apply Qcinv_pos, Qc_of_nat_pos. destruct corpus; [done|simpl; lia].
Qed.

Lemma rank_of_scaled (y : dict Qc) s p :
  rank_of ((λ kv, (kv.1, kv.2 / s)) <$> y) p = rank_of y p / s.
Proof.
  unfold rank_of. induction y as [|[k v] y IH]; simpl.
  - unfold Qcdiv. ring.
  - destruct (decide (p = k)); [done|exact IH].
Qed.

Lemma keys_next_ranks corpus d (x : dict Qc) :
  keys (next_ranks corpus d x) = keys x.
Proof.
  unfold next_ranks. cbv zeta. unfold keys at 1. rewrite <- list_fmap_compose.
  change (fst ∘ _) with (@fst Page Qc). by apply sweep_fold_keys.
Qed.

Lemma nonneg_from_rank_of (x : dict Qc) :
  wf_dict x → (∀ p, p ∈ keys x → 0 ≤ rank_of x p) → Forall (λ kv, 0 ≤ kv.2) x.
Proof.
  intros Hwf Hall. apply Forall_forall. intros [k v] Hkv. simpl.
  specialize (Hall k). unfold rank_of in Hall.
  rewrite (dict_get_elem k v x Hwf Hkv) in Hall. apply Hall.
  apply list_elem_of_fmap. by exists (k, v).
Qed.

Lemma rank_of_le_sum (x : dict Qc) p :
  Forall (λ kv, 0 ≤ kv.2) x → rank_of x p ≤ pysum (values x).
Proof.
  intros Hall.
  assert (Forall (λ v, 0 ≤ v) (values x)) as Hvals by by apply Forall_fmap.
  unfold rank_of. destruct (dict_get p x) as [v|e] eqn:Hv.
  - apply pysum_ge_elem; [done|]. apply dict_get_Ok in Hv.
    apply list_elem_of_fmap. by exists (p, v).
  - by apply pysum_nonneg.
Qed.

Lemma lin_scaled (y : dict Qc) s :
  s ≠ 0 →
  lin s ((λ kv, (kv.1, kv.2 / s)) <$> y) 0 ((λ kv, (kv.1, kv.2 / s)) <$> y) = y.
Proof.
  intros Hs. unfold lin. induction y as [|[k v] y IH]; [done|].
  rewrite fmap_cons. cbn [zip_with]. rewrite IH. simpl. f_equal. f_equal. by field.
Qed.

(** ** One pass narrows the ratio bounds *)

Section contraction.
Variable corpus : Corpus.
Variable d : Qc.
Hypothesis Hne : corpus ≠ [].
Hypothesis Hd0 : 0 ≤ d.
Hypothesis Hd1 : d < 1.

Lemma sweep_fold_ge_base (x : dict Qc) p :
  Forall (λ kv, 0 ≤ kv.2) x → p ∈ keys x →
  base_rank corpus d ≤ rank_of (sweep_fold corpus d (keys x) x) p.
Proof.
  intros Hall Hp. rewrite sweep_fold_sweep_from.
  apply sweep_from_ge; [done| |done|by left].
  by apply Qclt_le_weak, base_rank_pos.
Qed.

(** The sweep of the normalised ranks, scaled back. *)
Lemma sweep_from_scaled (y : dict Qc) s :
  s ≠ 0 →
  let x' := (λ kv, (kv.1, kv.2 / s)) <$> y in
  sweep_from corpus d (s * base_rank corpus d + 0 * base_rank corpus d) (keys y) y
  = lin s (sweep_fold corpus d (keys y) x') 0 (sweep_fold corpus d (keys y) x').
Proof.
  intros Hs x'. rewrite <- (lin_scaled y s Hs) at 2. fold x'.
  rewrite sweep_from_lin by done. by rewrite !sweep_fold_sweep_from.
Qed.

(** With [y] the sweep of [x], [s] its sum and [y'] the sweep of [y / s]:
    [s * y' - m * y] is the sweep of [y - m * x] from the base rank
    [(s - m) * base_rank], and so is at least that. *)
Lemma sweep_lower (x : dict Qc) m M p :
  wf_dict x → Forall (λ kv, 0 ≤ kv.2) x → pysum (values x) = 1 →
  let y := sweep_fold corpus d (keys x) x in
  let s := pysum (values y) in
  let y' := sweep_fold corpus d (keys x) (next_ranks corpus d x) in
  s ≠ 0 → ratio_bounds x y m M → p ∈ keys x →
  m ≤ s
  ∧ base_rank corpus d * (s - m) ≤ s * rank_of y' p - m * rank_of y p.
Proof.
  intros Hwf Hall Hsum y s y' Hs Hb Hp.
  assert (keys y = keys x) as Hky by by apply sweep_fold_keys.
  assert (keys y' = keys x) as Hky'.
  { unfold y'. rewrite sweep_fold_keys; [apply keys_next_ranks|].
    by rewrite keys_next_ranks. }
  set (h := lin 1 y (- m) x).
  assert (keys h = keys x) as Hkh by (unfold h; by rewrite keys_lin).
  assert (Forall (λ kv, 0 ≤ kv.2) h) as Hh.
  { apply nonneg_from_rank_of; [unfold wf_dict; by rewrite Hkh|].
    intros q Hq. rewrite Hkh in Hq. unfold h. rewrite rank_of_lin by done.
    destruct (Hb q Hq) as [Hlo _].
    set (a := rank_of y q) in *. set (b := rank_of x q) in *. clearbody a b.
    qc_arith. lra. }
  assert (m ≤ s) as Hsm.
  { assert (0 ≤ pysum (values h)) as Hsum'.
    { apply pysum_nonneg. unfold values. by apply Forall_fmap. }
    unfold h in Hsum'. rewrite pysum_values_lin in Hsum' by done.
    fold s in Hsum'. rewrite Hsum in Hsum'. clearbody s. qc_arith. lra. }
  split; [done|].
  pose proof (base_rank_pos corpus d Hne Hd1) as Hc.
  set (c := base_rank corpus d) in *.
  assert (sweep_from corpus d (1 * (s * c + 0 * c) + - m * c) (keys x) h
          = lin 1 (lin s y' 0 y') (- m) y) as Heq.
  { unfold h. rewrite sweep_from_lin by done. f_equal.
    rewrite <- Hky at 1. pose proof (sweep_from_scaled y s Hs) as Hsc.
    cbv zeta in Hsc. fold c in Hsc. etrans; [exact Hsc|]. rewrite Hky. reflexivity. }
  assert (0 ≤ 1 * (s * c + 0 * c) + - m * c) as Hbase.
  { clearbody s c. qc_arith. nra. }
  pose proof (sweep_from_ge corpus d _ (keys x) h p Hd0 Hbase Hh (or_introl Hp)) as Hge.
  rewrite Heq in Hge.
  rewrite rank_of_lin in Hge by (rewrite keys_lin by done; congruence).
  rewrite rank_of_lin in Hge by done.
  set (a := rank_of y' p) in *. set (b := rank_of y p) in *.
  clearbody a b s c.
  qc_arith. nra.
Qed.

(** Likewise [M * y - s * y'] is the sweep of [M * x - y]. *)
Lemma sweep_upper (x : dict Qc) m M p :
  wf_dict x → Forall (λ kv, 0 ≤ kv.2) x → pysum (values x) = 1 →
  let y := sweep_fold corpus d (keys x) x in
  let s := pysum (values y) in
  let y' := sweep_fold corpus d (keys x) (next_ranks corpus d x) in
  s ≠ 0 → ratio_bounds x y m M → p ∈ keys x →
  s ≤ M
  ∧ base_rank corpus d * (M - s) ≤ M * rank_of y p - s * rank_of y' p.
Proof.
  intros Hwf Hall Hsum y s y' Hs Hb Hp.
  assert (keys y = keys x) as Hky by by apply sweep_fold_keys.
  assert (keys y' = keys x) as Hky'.
  { unfold y'. rewrite sweep_fold_keys; [apply keys_next_ranks|].
    by rewrite keys_next_ranks. }
  set (h := lin M x (- (1)) y).
  assert (keys h = keys x) as Hkh by (unfold h; by rewrite keys_lin).
  assert (Forall (λ kv, 0 ≤ kv.2) h) as Hh.
  { apply nonneg_from_rank_of; [unfold wf_dict; by rewrite Hkh|].
    intros q Hq. rewrite Hkh in Hq. unfold h. rewrite rank_of_lin by done.
    destruct (Hb q Hq) as [_ Hhi].
    set (a := rank_of y q) in *. set (b := rank_of x q) in *. clearbody a b.
    qc_arith. lra. }
  assert (s ≤ M) as Hsm.
  { assert (0 ≤ pysum (values h)) as Hsum'.
    { apply pysum_nonneg. unfold values. by apply Forall_fmap. }
    unfold h in Hsum'. rewrite pysum_values_lin in Hsum' by done.
    fold s in Hsum'. rewrite Hsum in Hsum'. clearbody s. qc_arith. lra. }
  split; [done|].
  pose proof (base_rank_pos corpus d Hne Hd1) as Hc.
  set (c := base_rank corpus d) in *.
  assert (sweep_from corpus d (M * c + - (1) * (s * c + 0 * c)) (keys x) h
          = lin M y (- (1)) (lin s y' 0 y')) as Heq.
  { unfold h. rewrite sweep_from_lin by done. f_equal.
    rewrite <- Hky at 1. pose proof (sweep_from_scaled y s Hs) as Hsc.
    cbv zeta in Hsc. fold c in Hsc. etrans; [exact Hsc|]. rewrite Hky. reflexivity. }
  assert (0 ≤ M * c + - (1) * (s * c + 0 * c)) as Hbase.
  { clearbody s c. qc_arith. nra. }
  pose proof (sweep_from_ge corpus d _ (keys x) h p Hd0 Hbase Hh (or_introl Hp)) as Hge.
  rewrite Heq in Hge.
  rewrite rank_of_lin in Hge by (rewrite keys_lin by done; congruence).
  rewrite rank_of_lin in Hge by done.
  set (a := rank_of y' p) in *. set (b := rank_of y p) in *.
  clearbody a b s c.
  qc_arith. nra.
Qed.

(** One pass narrows the bounds on the ratio between the swept and the
    previous ranks. *)
Lemma ratio_bounds_next (x : dict Qc) m M M0 :
  wf_dict x → Forall (λ kv, 0 ≤ kv.2) x → pysum (values x) = 1 →
  0 < m → M ≤ M0 →
  let y := sweep_fold corpus d (keys x) x in
  let s := pysum (values y) in
  let x' := next_ranks corpus d x in
  let y' := sweep_fold corpus d (keys x') x' in
  let κ := base_rank corpus d / M0 in
  x ≠ [] → ratio_bounds x y m M →
  m ≤ s ∧ s ≤ M
  ∧ ratio_bounds x' y' (m + κ * (s - m)) (M - κ * (M - s)).
Proof.
  intros Hwf Hall Hsum Hm HM y s x' y' κ Hx Hb.
  assert (keys y = keys x) as Hky by by apply sweep_fold_keys.
  assert (keys x' = keys x) as Hkx' by apply keys_next_ranks.
  assert (∃ p0, p0 ∈ keys x) as [p0 Hp0].
  { destruct x as [|[k v] x]; [done|]. exists k. by left. }
  assert (0 < s) as Hs by by apply sweep_fold_sum_pos.
  assert (s ≠ 0) as Hs' by (intros Hz; symmetry in Hz; by apply Qclt_not_eq in Hs).
  destruct (sweep_lower x m M p0 Hwf Hall Hsum Hs' Hb Hp0) as [Hms _].
  destruct (sweep_upper x m M p0 Hwf Hall Hsum Hs' Hb Hp0) as [HsM _].
  fold y s in Hms, HsM.
  split; [done|]. split; [done|].
  pose proof (base_rank_pos corpus d Hne Hd1) as Hc.
  assert (0 < M0) as HM0.
  { apply Qclt_le_trans with s; [done|]. by trans M. }
  assert (κ * M0 = base_rank corpus d) as Hκ.
  { unfold κ. field. intros Hz. symmetry in Hz. by apply Qclt_not_eq in HM0. }
  assert (0 < κ) as Hκ0.
  { unfold κ, Qcdiv. apply Qcmult_pos_pos; [done|by apply Qcinv_pos]. }
  intros p Hp. rewrite Hkx' in Hp.
  destruct (sweep_lower x m M p Hwf Hall Hsum Hs' Hb Hp) as [_ Hlo].
  destruct (sweep_upper x m M p Hwf Hall Hsum Hs' Hb Hp) as [_ Hhi].
  fold y s x' in Hlo, Hhi. unfold y'. rewrite Hkx'. fold x'.
  set (b' := rank_of (sweep_fold corpus d (keys x) x') p) in *.
  assert (rank_of x' p * s = rank_of y p) as Hq.
  { unfold x', next_ranks. cbv zeta. fold y s. rewrite rank_of_scaled. by field. }
  destruct (Hb p Hp) as [Hb1 Hb2].
  pose proof (rank_of_le_sum x p Hall) as Hx1. rewrite Hsum in Hx1.
  assert (0 ≤ rank_of x p) as Hx0 by by apply rank_of_nonneg.
  set (q := rank_of x' p) in *. set (b := rank_of y p) in *.
  set (a := rank_of x p) in *. set (c := base_rank corpus d) in *.
  clearbody q b a b' c s κ.
  assert (b ≤ M0) as HbM.
  { qc_arith. nra. }
  assert (κ * (s - m) * b ≤ κ * (s - m) * M0) as Hk1.
  { assert (0 ≤ κ * (s - m)) as Hnn by (qc_arith; nra).
    set (t := κ * (s - m)) in *. clearbody t. qc_arith. nra. }
  assert (κ * (M - s) * b ≤ κ * (M - s) * M0) as Hk2.
  { assert (0 ≤ κ * (M - s)) as Hnn by (qc_arith; nra).
    set (t := κ * (M - s)) in *. clearbody t. qc_arith. nra. }
  assert (κ * (s - m) * M0 = c * (s - m)) as He1 by (rewrite <- Hκ; ring).
  assert (κ * (M - s) * M0 = c * (M - s)) as He2 by (rewrite <- Hκ; ring).
  assert ((m + κ * (s - m)) * b ≤ s * b') as H1.
  { clear Hk2 Hhi He2. qc_arith. lra. }
  assert (s * b' ≤ (M - κ * (M - s)) * b) as H2.
  { clear Hk1 Hlo H1 He1. qc_arith. lra. }
  clear He1 He2.
  clear Hk1 Hk2 Hlo Hhi.
  split.
  - qc_arith. nra.
  - qc_arith. nra.
Qed.

Lemma next_ranks_facts (x : dict Qc) :
  wf_dict x → x ≠ [] → Forall (λ kv, 0 ≤ kv.2) x →
  wf_dict (next_ranks corpus d x) ∧ next_ranks corpus d x ≠ []
  ∧ pysum (values (next_ranks corpus d x)) = 1
  ∧ Forall (λ kv, 0 ≤ kv.2) (next_ranks corpus d x).
Proof.
  intros Hwf Hx Hall.
  assert (0 < pysum (values (sweep_fold corpus d (keys x) x))) as Hs
    by by apply sweep_fold_sum_pos.
  split; [unfold wf_dict; by rewrite keys_next_ranks|].
  split.
  { intros Hnil. apply (f_equal keys) in Hnil. rewrite keys_next_ranks in Hnil.
    by destruct x. }
  split.
  - unfold next_ranks. cbv zeta. unfold values at 1. rewrite <- list_fmap_compose.
    set (s := pysum _) in *.
    change (snd ∘ _) with ((λ v, v / s) ∘ (@snd Page Qc)).
    rewrite list_fmap_compose, pysum_div. fold (values (sweep_fold corpus d (keys x) x)).
    fold s. field. intros Hz. symmetry in Hz. by apply Qclt_not_eq in Hs.
  - unfold next_ranks. cbv zeta. apply Forall_fmap, Forall_forall. intros kv Hkv. simpl.
    unfold Qcdiv. apply Qcmult_nonneg_nonneg.
    + pose proof (sweep_fold_nonneg corpus d (keys x) x Hne Hd0 Hd1 Hall) as Hnn.
      rewrite Forall_forall in Hnn. by apply Hnn.
    + by apply Qclt_le_weak, Qcinv_pos.
Qed.

(** One pass through the body of the loop, below damping one. *)
Lemma iteration_next (x : dict Qc) :
  wf_dict x → x ≠ [] → Forall (λ kv, 0 ≤ kv.2) x →
  ∃ mc,
    iteration corpus d x = Ok (next_ranks corpus d x, mc)
    ∧ pymax ((λ k, Qcabs (rank_of (next_ranks corpus d x) k - rank_of x k)) <$> keys x)
      = Ok mc.
Proof.
  intros Hwf Hx Hall. unfold iteration.
  rewrite sweep_spec by done. simpl.
  assert (keys (sweep_fold corpus d (keys x) x) = keys x) as Hkeys
    by by apply sweep_fold_keys.
  assert (0 < pysum (values (sweep_fold corpus d (keys x) x))) as Hsum
    by by apply sweep_fold_sum_pos.
  rewrite normalise_spec.
  2:{ unfold wf_dict. by rewrite Hkeys. }
  2:{ intros Hz. symmetry in Hz. by apply Qclt_not_eq in Hsum. }
  simpl. fold (next_ranks corpus d x).
  unfold iterchanges. rewrite iterchanges_from; [|done|by rewrite keys_next_ranks].
  simpl. rewrite keys_next_ranks.
  destruct (pymax_Ok ((λ k, Qcabs (rank_of (next_ranks corpus d x) k - rank_of x k))
                        <$> keys x)) as [mc Hmc].
  { intros Hnil%fmap_nil_inv. by destruct x. }
  rewrite Hmc. simpl. by exists mc.
Qed.

(** The change of a rank in one pass is bounded by the distance between
    the ratio bounds. *)
Lemma change_bound (x : dict Qc) m M m0 p :
  wf_dict x → x ≠ [] → Forall (λ kv, 0 ≤ kv.2) x → pysum (values x) = 1 →
  0 < m0 → m0 ≤ m →
  ratio_bounds x (sweep_fold corpus d (keys x) x) m M → p ∈ keys x →
  m0 * Qcabs (rank_of (next_ranks corpus d x) p - rank_of x p) ≤ M - m.
Proof.
  intros Hwf Hx Hall Hsum Hm0 Hm Hb Hp.
  set (y := sweep_fold corpus d (keys x) x) in *.
  assert (0 < pysum (values y)) as Hs by by apply sweep_fold_sum_pos.
  assert (pysum (values y) ≠ 0) as Hs'
    by (intros Hz; symmetry in Hz; by apply Qclt_not_eq in Hs).
  destruct (sweep_lower x m M p Hwf Hall Hsum Hs' Hb Hp) as [Hms _].
  destruct (sweep_upper x m M p Hwf Hall Hsum Hs' Hb Hp) as [HsM _].
  fold y in Hms, HsM.
  assert (rank_of (next_ranks corpus d x) p * pysum (values y) = rank_of y p) as Hq.
  { unfold next_ranks. cbv zeta. fold y. rewrite rank_of_scaled. by field. }
  destruct (Hb p Hp) as [Hb1 Hb2].
  pose proof (rank_of_le_sum x p Hall) as Hx1. rewrite Hsum in Hx1.
  assert (0 ≤ rank_of x p) as Hx0 by by apply rank_of_nonneg.
  set (q := rank_of (next_ranks corpus d x) p) in *. set (b := rank_of y p) in *.
  set (a := rank_of x p) in *. set (s := pysum (values y)) in *.
  clearbody q b a s.
  assert (s * (q - a) ≤ M - m) as H1.
  { assert ((M - s) * a ≤ (M - s)) as Ht by (qc_arith; nra).
    qc_arith. nra. }
  assert (s * (a - q) ≤ M - m) as H2.
  { assert ((s - m) * a ≤ (s - m)) as Ht by (qc_arith; nra).
    qc_arith. nra. }
  unfold Qcabs. destruct (decide (q - a < 0)) as [Hneg|Hpos].
  - assert (m0 * (a - q) ≤ s * (a - q)) as Ht by (qc_arith; nra).
    qc_arith. nra.
  - apply Qcnot_lt_le in Hpos.
    assert (m0 * (q - a) ≤ s * (q - a)) as Ht by (qc_arith; nra).
    qc_arith. nra.
Qed.
End contraction.

Lemma foldl_Qcmax_lt a xs t :
  a < t → Forall (λ v, v < t) xs → foldl Qcmax a xs < t.
Proof.
  revert a. induction xs as [|x xs IH]; intros a Ha Hall; [done|].
  apply Forall_cons in Hall as [Hx Hall]. simpl. apply IH; [|done].
  unfold Qcmax. by destruct (decide (a < x)).
Qed.

Lemma pymax_lt xs t mc :
  pymax xs = Ok mc → Forall (λ v, v < t) xs → mc < t.
Proof.
  destruct xs as [|x xs]; [done|]. simpl. intros [= <-] [Hx Hall]%Forall_cons.
  by apply foldl_Qcmax_lt.
Qed.

(** ** Geometric decay *)

Lemma Qc_of_nat_above (q : Qc) : ∃ n : nat, q < Qc_of_nat n.
Proof.
  exists (S (Z.to_nat (Qnum (this q)))).
  unfold Qclt, Qc_of_nat, Qc_of_Z. cbn [this].
  unfold Qlt, inject_Z. cbn [Qnum Qden].
  pose proof (Pos2Z.is_pos (Qden (this q))) as Hden.
  destruct (Z_lt_le_dec (Qnum (this q)) 0) as [Hneg|Hpos]; nia.
Qed.

(** [(1 - κ)^k] is at most [1 / (1 + k * κ)]. *)
Lemma Qcpower_decay (κ : Qc) k :
  0 < κ → κ ≤ 1 →
  0 ≤ (1 - κ) ^ k ∧ (1 - κ) ^ k * (1 + Qc_of_nat k * κ) ≤ 1.
Proof.
  intros Hκ0 Hκ1. induction k as [|k [IH0 IH]].
  - simpl. rewrite Qc_of_nat_0. split; [done|]. qc_arith. lra.
  - cbn [Qcpower]. rewrite Qc_of_nat_S.
    assert (0 ≤ Qc_of_nat k) as Hk.
    { destruct k; [by rewrite Qc_of_nat_0|]. apply Qclt_le_weak, Qc_of_nat_pos. lia. }
    set (P := (1 - κ) ^ k) in *. set (n := Qc_of_nat k) in *. clearbody P n.
    split.
    + qc_arith. nra.
    + assert ((1 - κ) * (1 + (1 + n) * κ) ≤ 1 + n * κ) as Ht.
      { assert (0 ≤ (1 + n) * (κ * κ)) as Hsq by (qc_arith; nra).
        qc_arith. nra. }
      assert (P * ((1 - κ) * (1 + (1 + n) * κ)) ≤ P * (1 + n * κ)) as Ht'.
      { set (u := (1 - κ) * (1 + (1 + n) * κ)) in *. set (v := 1 + n * κ) in *.
        clearbody u v. qc_arith. nra. }
      qc_arith. nra.
Qed.

Lemma Qcpower_small (κ A ε : Qc) :
  0 < κ → κ ≤ 1 → 0 < ε → ∃ k, (1 - κ) ^ k * A < ε.
Proof.
  intros Hκ0 Hκ1 Hε.
  destruct (Qc_of_nat_above (A / (κ * ε))) as [k Hk].
  exists k. destruct (Qcpower_decay κ k Hκ0 Hκ1) as [HP0 HP].
  assert (A < Qc_of_nat k * (κ * ε)) as HA.
  { assert (0 < κ * ε) as Hpos by by apply Qcmult_pos_pos.
    assert (A / (κ * ε) * (κ * ε) = A) as Hdiv.
    { assert (κ ≠ 0) by (intros Hz; rewrite Hz in Hκ0; by apply Qclt_not_eq in Hκ0).
      assert (ε ≠ 0) by (intros Hz; rewrite Hz in Hε; by apply Qclt_not_eq in Hε).
      by field. }
    set (t := κ * ε) in *. set (u := A / t) in *. set (n := Qc_of_nat k) in *.
    clearbody t u n. qc_arith. nra. }
  set (P := (1 - κ) ^ k) in *. set (n := Qc_of_nat k) in *. clearbody P n.
  destruct (decide (P = 0)) as [->|HPne].
  - by rewrite Qcmult_0_l.
  - assert (0 < P) as HPpos.
    { destruct (Qclt_le_dec 0 P) as [?|Hle]; [done|].
      destruct HPne. by apply Qcle_antisym. }
    assert (P * A < P * (n * (κ * ε))) as H1.
    { set (u := n * (κ * ε)) in *. clearbody u. qc_arith. nra. }
    assert (P * (n * (κ * ε)) = ε * (P * (1 + n * κ)) - ε * P) as H2 by ring.
    assert (ε * (P * (1 + n * κ)) ≤ ε) as H3.
    { set (u := P * (1 + n * κ)) in *. clearbody u. qc_arith. nra. }
    assert (0 < ε * P) as H4 by by apply Qcmult_pos_pos.
    set (u := P * (n * (κ * ε))) in *. set (v := ε * (P * (1 + n * κ))) in *.
    set (w := ε * P) in *. set (z := P * A) in *. clearbody u v w z.
    qc_arith. lra.
Qed.

(** ** The loop reaches its exit *)

(** Once [(1 - κ)^k] times the distance between the ratio bounds is below
    the threshold, [k + 1] passes reach the exit of the loop. *)
Lemma iterate_loop_converges (corpus : Corpus) d m0 M0 k :
  corpus ≠ [] → 0 ≤ d → d < 1 → 0 < m0 →
  ∀ (x : dict Qc) m M mc,
    wf_dict x → x ≠ [] → pysum (values x) = 1 → Forall (λ kv, 0 ≤ kv.2) x →
    ratio_bounds x (sweep_fold corpus d (keys x) x) m M →
    m0 ≤ m → M ≤ M0 →
    (1 - base_rank corpus d / M0) ^ k * (M - m) < threshold * m0 →
    ∃ ranks, iterate_loop (S k) corpus d x mc = Some (Ok ranks).
Proof.
  intros Hne Hd0 Hd1 Hm0. induction k as [|k IH];
    intros x m M mc Hwf Hx Hsum Hall Hb Hm HM Hgap.
  - cbn [iterate_loop]. destruct (decide (threshold ≤ mc)); [|by eexists].
    destruct (iteration_next corpus d Hne Hd0 Hd1 x Hwf Hx Hall) as (mc' & -> & Hmax).
    rewrite decide_False; [by eexists|]. apply Qclt_not_le.
    apply (pymax_lt _ _ _ Hmax). apply Forall_fmap, Forall_forall. intros p Hp. simpl.
    pose proof (change_bound corpus d Hne Hd0 Hd1 x m M m0 p
                  Hwf Hx Hall Hsum Hm0 Hm Hb Hp) as Hch.
    cbn [Qcpower] in Hgap.
    set (t := Qcabs _) in *. clearbody t. set (th := threshold) in *. clearbody th.
    qc_arith. nra.
  - remember (S k) as k' eqn:Hk'. cbn [iterate_loop].
    destruct (decide (threshold ≤ mc)); [|by eexists].
    destruct (iteration_next corpus d Hne Hd0 Hd1 x Hwf Hx Hall) as (mc' & -> & Hmax).
    subst k'.
    destruct (next_ranks_facts corpus d Hne Hd0 Hd1 x Hwf Hx Hall)
      as (Hwf' & Hx' & Hsum' & Hall').
    assert (0 < m) as Hmpos by by apply Qclt_le_trans with m0.
    destruct (ratio_bounds_next corpus d Hne Hd0 Hd1 x m M M0
                Hwf Hall Hsum Hmpos HM Hx Hb) as (Hms & HsM & Hb').
    set (s := pysum (values (sweep_fold corpus d (keys x) x))) in *.
    pose proof (base_rank_pos corpus d Hne Hd1) as Hc.
    assert (0 < M0) as HM0.
    { apply Qclt_le_trans with m; [done|]. trans s; [done|]. by trans M. }
    assert (0 < base_rank corpus d / M0) as Hκ.
    { unfold Qcdiv. apply Qcmult_pos_pos; [done|by apply Qcinv_pos]. }
    set (κ := base_rank corpus d / M0) in *.
    apply (IH _ (m + κ * (s - m)) (M - κ * (M - s))); try done.
    + clearbody κ s. qc_arith. nra.
    + clearbody κ s. qc_arith. nra.
    + cbn [Qcpower] in Hgap.
      replace (M - κ * (M - s) - (m + κ * (s - m))) with ((1 - κ) * (M - m)) by ring.
      by rewrite Qcmult_assoc, (Qcmult_comm _ (1 - κ)).
Qed.

(** Below damping one, [iterate_pagerank] on a non-empty corpus returns a
    rank map after finitely many passes. *)
Lemma iterate_pagerank_converges (corpus : Corpus) d :
  wf_dict corpus → corpus ≠ [] → 0 ≤ d → d < 1 →
  ∃ fuel ranks, iterate_pagerank fuel corpus d = Some (Ok ranks).
Proof.
  intros Hwf Hne Hd0 Hd1.
  set (x := uniform_ranks corpus).
  set (y := sweep_fold corpus d (keys x) x).
  set (N := Qc_of_nat (length corpus)).
  set (m0 := 1 - d). set (M0 := N * pysum (values y)).
  assert (0 < N) as HN.
  { apply Qc_of_nat_pos. destruct corpus; [done|simpl; lia]. }
  assert (N ≠ 0) as HN' by (intros Hz; rewrite Hz in HN; by apply Qclt_not_eq in HN).
  assert (keys x = keys corpus) as Hkx by apply keys_uniform_ranks.
  assert (wf_dict x) as Hwfx by (unfold wf_dict; by rewrite Hkx).
  assert (x ≠ []) as Hx.
  { intros Hnil. apply (f_equal keys) in Hnil. rewrite Hkx in Hnil. by destruct corpus. }
  assert (Forall (λ kv, 0 ≤ kv.2) x) as Hall.
  { apply Forall_fmap, Forall_forall. intros k _. simpl. apply Qc_one_over_nat_nonneg. }
  assert (pysum (values x) = 1) as Hsum.
  { unfold x, uniform_ranks, values. rewrite <- list_fmap_compose.
    change (snd ∘ _) with (λ _ : Page, 1 / Qc_of_nat (length corpus)).
    rewrite pysum_const. unfold keys. rewrite length_fmap. fold N. by field. }
  assert (Forall (λ kv, 0 ≤ kv.2) y) as Hally by by apply sweep_fold_nonneg.
  assert (0 < m0) as Hm0 by (unfold m0; qc_arith; lra).
  pose proof (base_rank_pos corpus d Hne Hd1) as Hc.
  assert (∀ p, p ∈ keys x → rank_of x p = 1 / N) as Hxp.
  { intros p Hp. unfold rank_of, x. rewrite dict_get_uniform; [done|done|by rewrite <- Hkx]. }
  assert (ratio_bounds x y m0 M0) as Hb.
  { intros p Hp. rewrite (Hxp p Hp). split.
    - replace (m0 * (1 / N)) with (base_rank corpus d)
        by (unfold m0, base_rank; fold N; by field).
      by apply sweep_fold_ge_base.
    - replace (M0 * (1 / N)) with (pysum (values y)) by (unfold M0; by field).
      by apply rank_of_le_sum. }
  assert (0 < M0) as HM0.
  { unfold M0. apply Qcmult_pos_pos; [done|]. by apply sweep_fold_sum_pos. }
  assert (base_rank corpus d ≤ M0) as HcM.
  { assert (∃ k0, k0 ∈ keys x) as [k0 Hk0].
    { rewrite Hkx. destruct corpus as [|[k0 L0] corpus']; [done|]. exists k0. by left. }
    destruct (Hb k0 Hk0) as [_ Hhi].
    pose proof (sweep_fold_ge_base corpus d Hne Hd0 Hd1 x k0 Hall Hk0) as Hlo.
    fold y in Hlo.
    pose proof (rank_of_le_sum x k0 Hall) as Hle. rewrite Hsum in Hle.
    set (a := rank_of x k0) in *. set (b := rank_of y k0) in *.
    assert (0 ≤ a) as Ha by (by apply rank_of_nonneg).
    clearbody a b M0. set (c := base_rank corpus d) in *. clearbody c.
    assert (M0 * a ≤ M0) as Ht by (qc_arith; nra).
    qc_arith. lra. }
  set (κ := base_rank corpus d / M0).
  assert (0 < κ) as Hκ0.
  { unfold κ, Qcdiv. apply Qcmult_pos_pos; [done|by apply Qcinv_pos]. }
  assert (κ ≤ 1) as Hκ1.
  { assert (κ * M0 = base_rank corpus d) as Hκ.
    { unfold κ. field. intros Hz. rewrite Hz in HM0. by apply Qclt_not_eq in HM0. }
    set (c := base_rank corpus d) in *. clearbody κ c M0.
    destruct (Qclt_le_dec 1 κ) as [Hgt|?]; [|done]. exfalso. qc_arith. nra. }
  assert (0 < threshold * m0) as Hε.
  { apply Qcmult_pos_pos; [compute_done|done]. }
  destruct (Qcpower_small κ (M0 - m0) (threshold * m0) Hκ0 Hκ1 Hε) as [k Hk].
  destruct (iterate_loop_converges corpus d m0 M0 k Hne Hd0 Hd1 Hm0
              x m0 M0 (Qc_of_Z 999) Hwfx Hx Hsum Hall Hb) as [ranks Hranks]; [done..|].
  exists (S k), ranks. unfold iterate_pagerank.
  rewrite initial_ranks_spec by done. exact Hranks.
Qed.

(** ** Damping one: a graph on which the loop never exits *)


(** ** The rank maps of the two estimators *)

(** A tally in which every page has at least one visit has no more pages
    than visits. *)
Lemma length_le_total_visits (tally : dict nat) :
  Forall (λ kv, (1 ≤ kv.2)%nat) tally → (length tally ≤ total_visits tally)%nat.
Proof.
  unfold total_visits. induction 1 as [|kv tally Hkv _ IH]; simpl; lia.
Qed.

Lemma missing_key (ks ks' : list Page) :
  NoDup ks' → (length ks < length ks')%nat → ∃ k, k ∈ ks' ∧ k ∉ ks.
Proof.
  intros Hnd Hlen.
  destruct (decide (Forall (λ k, k ∈ ks) ks')) as [Hall|Hex].
  - rewrite Forall_forall in Hall.
    pose proof (submseteq_length _ _ (NoDup_submseteq _ _ Hnd Hall)). lia.
  - apply not_Forall_Exists in Hex; [|apply _].
    apply Exists_exists in Hex as (k & Hk & Hnin). by exists k.
Qed.

(** C7 (code defect): the rank map of either estimator should have an
    entry for every page of the corpus.  For a corpus with distinct keys,
    a damping factor in [0,1) and a positive number [n] of samples smaller
    than the number of pages, [sample_pagerank] returns a rank map with at
    most [n] entries, since every entry stands for at least one of the [n]
    visits, so that some page of the corpus has no entry, whatever the
    generator draws;
    [iterate_pagerank] on the same corpus returns a rank map with exactly
    the keys of the corpus. *)
Theorem C7_sample_pagerank_omits_unvisited_pages
    (corpus : Corpus) (damping_factor : Qc) (n : nat) (g : rng) :
  wf_dict corpus → 0 ≤ damping_factor → damping_factor < 1 →
  (0 < n)%nat → (n < length corpus)%nat →
  (∃ ranks, (sample_pagerank corpus damping_factor n g).1 = Ok ranks
            ∧ (length ranks ≤ n)%nat
            ∧ ∃ page, page ∈ keys corpus ∧ page ∉ keys ranks)
  ∧ (∃ fuel ranks, iterate_pagerank fuel corpus damping_factor = Some (Ok ranks)
                   ∧ keys ranks = keys corpus).
Proof.
  intros Hwf Hd0 Hd1 Hn HN.
  assert (corpus ≠ []) as Hne by (intros ->; simpl in HN; lia).
  split.
  - destruct (sample_pagerank_total corpus damping_factor n g Hwf Hne Hn)
      as (ranks & g' & Hrun); [by apply positive_weights_damping_lt_1|].
    exists ranks. split; [by rewrite Hrun|].
    destruct (sample_pagerank_tally corpus damping_factor n g ranks Hwf Hn)
      as (tally & _ & _ & Htot & Hpos & ->); [by rewrite Hrun|].
    pose proof (length_le_total_visits tally Hpos) as Hlen. rewrite Htot in Hlen.
    split; [by rewrite length_fmap|]. apply missing_key; [done|].
    unfold keys. rewrite !length_fmap. lia.
  - destruct (iterate_pagerank_converges corpus damping_factor Hwf Hne Hd0 Hd1)
      as (fuel & ranks & Hrun).
    exists fuel, ranks. split; [done|]. by eapply iterate_pagerank_keys.
Qed.

(** One sample on [{"A": set(), "B": {"A"}}] with damping [0.85]: the
    rank map returned is [{"A": 1}], without an entry for [B]. *)
Lemma C7_witness :
  (wf_dict corpus_dangling ∧ 0 ≤ frac 17 20 ∧ frac 17 20 < 1
   ∧ (0 < 1)%nat ∧ (1 < length corpus_dangling)%nat)
  ∧ (sample_pagerank corpus_dangling (frac 17 20) 1 rng_zero).1 = Ok [("A", frac 1 1)]
  ∧ (∃ ranks, (sample_pagerank corpus_dangling (frac 17 20) 1 rng_zero).1 = Ok ranks
              ∧ (length ranks ≤ 1)%nat
              ∧ ∃ page, page ∈ keys corpus_dangling ∧ page ∉ keys ranks)
  ∧ (∃ fuel ranks, iterate_pagerank fuel corpus_dangling (frac 17 20) = Some (Ok ranks)
                   ∧ keys ranks = keys corpus_dangling).
Proof.
  assert (wf_dict corpus_dangling) as Hwf by compute_done.
  assert (0 ≤ frac 17 20) as Hd0 by compute_done.
  assert (frac 17 20 < 1) as Hd1 by compute_done.
  assert (0 < 1)%nat as Hn by lia.
  assert (1 < length corpus_dangling)%nat as HN by (simpl; lia).
  split; [exact (conj Hwf (conj Hd0 (conj Hd1 (conj Hn HN))))|].
  split; [compute_done|].
  exact (C7_sample_pagerank_omits_unvisited_pages corpus_dangling (frac 17 20) 1 rng_zero
           Hwf Hd0 Hd1 Hn HN).
Defined.





(** ** Termination of the iteration, and of main *)



Lemma main_after_sampling (findall : string → list string)
    (fs : string → option directory) (prog path : string) (dir : directory)
    (fuel : nat) (g g' : rng) (corpus : Corpus) (sampled : dict Qc) :
  fs path = Some dir → crawl findall dir = Crawled corpus →
  sample_pagerank corpus DAMPING SAMPLES g = (Ok sampled, g') →
  main findall fs [prog; path] fuel g
  = match iterate_pagerank fuel corpus DAMPING with
    | None => ((SamplingHeader SAMPLES :: rank_lines sampled, Iterating), g')
    | Some (Raise e) => ((SamplingHeader SAMPLES :: rank_lines sampled, Uncaught e), g')
    | Some (Ok iterated) =>
        ((SamplingHeader SAMPLES :: rank_lines sampled
            ++ IterationHeader :: rank_lines iterated, Finished), g')
    end.
Proof.
  intros Hfs Hcrawl Hsample.
  unfold main. rewrite decide_False by (intros Hlen; by apply Hlen).
  change (list_get [prog; path] 1) with (Ok path : result string).
  cbv iota. rewrite Hfs, Hcrawl, Hsample, print_ranks_spec.
  destruct (iterate_pagerank fuel _ DAMPING) as [[iterated|e]|]; [|done..].
  rewrite print_ranks_spec. cbv zeta. f_equal. f_equal.
  by rewrite <- !app_assoc.
Qed.

(** X22: when the directory named on the command line has distinct names,
    at least one name ending in [.html], and every such file can be read,
    [main] finishes: after finitely many passes of the iteration it has
    printed the sampling header and the sampled ranks, then the iteration
    header and the iterated ranks, one line for every page of the corpus,
    and no exception is raised. *)
Theorem X22_main_finishes
    (findall : string → list string) (fs : string → option directory)
    (prog path : string) (dir : directory) (g : rng) :
  fs path = Some dir → NoDup (listdir dir) →
  html_names (listdir dir) ≠ [] →
  Forall (λ f, is_Some (read_file dir f)) (html_names (listdir dir)) →
  ∃ corpus sampled iterated fuel g',
    crawl findall dir = Crawled corpus
    ∧ sample_pagerank corpus DAMPING SAMPLES g = (Ok sampled, g')
    ∧ keys iterated = keys corpus
    ∧ ∀ fuel', (fuel ≤ fuel')%nat →
        iterate_pagerank fuel' corpus DAMPING = Some (Ok iterated)
        ∧ main findall fs [prog; path] fuel' g
          = ((SamplingHeader SAMPLES :: rank_lines sampled
                ++ IterationHeader :: rank_lines iterated, Finished), g').
Proof.
  intros Hfs Hnd Hne Hall.
  destruct (crawl_cases findall dir Hnd) as [[_ Hcrawl]|(f & Hf & Hnone & _)].
  2:{ rewrite Forall_forall in Hall. destruct (Hall f Hf) as [c Hc]. congruence. }
  pose proof (crawled_pages_valid findall dir Hnd) as (Hwf & _ & _).
  assert (crawled_pages findall dir ≠ []) as Hne'.
  { intros Hnil. apply (f_equal keys) in Hnil.
    by rewrite keys_crawled_pages in Hnil. }
  destruct DAMPING_range as [Hd0 Hd1].
  destruct (sample_pagerank_total (crawled_pages findall dir) DAMPING SAMPLES g
              Hwf Hne' SAMPLES_pos (positive_weights_damping_lt_1 _ _ Hwf Hd0 Hd1))
    as (sampled & g' & Hsample).
  destruct (iterate_pagerank_converges (crawled_pages findall dir) DAMPING
              Hwf Hne' Hd0 Hd1) as (fuel & iterated & Hrun).
  exists (crawled_pages findall dir), sampled, iterated, fuel, g'.
  split; [done|]. split; [done|]. split; [by eapply iterate_pagerank_keys|].
  intros fuel' Hle.
  assert (iterate_pagerank fuel' (crawled_pages findall dir) DAMPING
          = Some (Ok iterated)) as Hrun'.
  { unfold iterate_pagerank in *.
    destruct (initial_ranks (crawled_pages findall dir)) as [iterprob|e]; [|done].
    by apply iterate_loop_more_fuel with fuel. }
  split; [done|].
  rewrite (main_after_sampling findall fs prog path dir fuel' g g' _ sampled
             Hfs Hcrawl Hsample).
  by rewrite Hrun'.
Qed.

(** The sample directory of three pages. *)
Lemma X22_witness :
  ((λ path, if decide (path = "corpus") then Some sample_directory else None) "corpus"
   = Some sample_directory
   ∧ NoDup (listdir sample_directory)
   ∧ html_names (listdir sample_directory) ≠ []
   ∧ Forall (λ f, is_Some (read_file sample_directory f))
            (html_names (listdir sample_directory)))
  ∧ ∃ corpus sampled iterated fuel g',
      crawl findall_lines sample_directory = Crawled corpus
      ∧ sample_pagerank corpus DAMPING SAMPLES rng_steps = (Ok sampled, g')
      ∧ keys iterated = keys corpus
      ∧ ∀ fuel', (fuel ≤ fuel')%nat →
          iterate_pagerank fuel' corpus DAMPING = Some (Ok iterated)
          ∧ main findall_lines
              (λ path, if decide (path = "corpus") then Some sample_directory else None)
              ["pagerank.py"; "corpus"] fuel' rng_steps
            = ((SamplingHeader SAMPLES :: rank_lines sampled
                  ++ IterationHeader :: rank_lines iterated, Finished), g').
Proof.
  assert ((λ path, if decide (path = "corpus") then Some sample_directory else None)
            "corpus" = Some sample_directory) as Hfs by reflexivity.
  assert (NoDup (listdir sample_directory)) as Hnd by compute_done.
  assert (html_names (listdir sample_directory) ≠ []) as Hne by compute_done.
  assert (Forall (λ f, is_Some (read_file sample_directory f))
                 (html_names (listdir sample_directory))) as Hall.
  { apply Forall_forall. intros f Hf.
    repeat (apply elem_of_cons in Hf as [->|Hf]; [by eexists|]).
    by apply elem_of_nil in Hf. }
  split; [exact (conj Hfs (conj Hnd (conj Hne Hall)))|].
  exact (X22_main_finishes findall_lines _ "pagerank.py" "corpus"
           sample_directory rng_steps Hfs Hnd Hne Hall).
Defined.
